(** * pubmed_paper_fetcher: a shallow embedding of [fetcher.py]

    The development follows the layout of the Python module: constants and
    heuristics, the PubMed helpers ([esearch], [efetch]), the parsing helpers
    ([is_company_affil], [first_email], [parse_articles]) and the public
    entry point [fetch_papers], followed by [save_or_print] and [cli.main].

    Modelling conventions.
    - A Python [str] is a list of Unicode code points ([str := list char],
      [char := N]); its length is the number of code points.  The character
      functions ([str.isspace], [str.lower], the classes [\s], [\w] and [\d]
      of [re], matching under [re.I]) are those of CPython 3.11, with the
      tables of the Unicode character database 14.0 that it carries.
    - A compiled regular expression is a list of alternatives, each a
      sequence of greedy single-character repetitions, matched by
      backtracking in the priority order of Python's [re].
    - An lxml element is a tag, an optional text and a list of children;
      [find], [findall] and [findtext] are evaluated on that tree.
    - Exceptions are values of [exn]; fallible code returns [result].
    - The remote service is a state [World] threaded through the requests,
      together with the log of the EFetch requests issued so far.
    - The console and the file system are a function [perform] from the
      event that a call is to produce to the outcome of the call, which
      returns or raises. *)

From Stdlib Require Import Ascii String List Bool Arith NArith Lia.
From Stdlib Require Import Permutation Sorted.
Import ListNotations.
Open Scope nat_scope.
Open Scope list_scope.

(* ------------------------------------------------------------------------- *)
(** ** Characters                                                              *)
(* ------------------------------------------------------------------------- *)

(** A character is its code point ([ord]). *)
Definition char : Type := N.

Bind Scope N_scope with char.

Definition str : Type := list char.

(** The code point of an ASCII character, and the text of a literal. *)
Definition code (a : ascii) : char := N_of_ascii a.

Definition txt (s : string) : str := map code (list_ascii_of_string s).

Definition in_range (lo hi : N) (c : char) : bool :=
  (lo <=? c)%N && (c <=? hi)%N.

Definition is_ascii (c : char) : bool := (c <? 128)%N.

Definition is_upper (c : char) : bool := in_range 65 90 c.
Definition is_lower (c : char) : bool := in_range 97 122 c.
Definition is_digit (c : char) : bool := in_range 48 57 c.
Definition is_alpha (c : char) : bool := is_upper c || is_lower c.

Definition char_eqb (a b : char) : bool := (a =? b)%N.

(** [c in chars] *)
Definition one_of (chars : string) (c : char) : bool :=
  existsb (char_eqb c) (txt chars).

(** The tables of the Unicode character database (version 14.0, the one of
    CPython 3.11) behind [str.isalnum], [str.isdecimal] and [str.lower]. *)
Module Unicode.

Fixpoint in_ranges (ranges : list (N * N)) (c : char) : bool :=
  match ranges with
  | [] => false
  | (lo, hi) :: ranges' => in_range lo hi c || in_ranges ranges' c
  end.

(** [str.isalnum]: alphabetic, decimal, digit or numeric. *)
Definition alnum_ranges : list (N * N) :=
  [
    (48, 57); (65, 90); (97, 122); (170, 170);
    (178, 179); (181, 181); (185, 186); (188, 190);
    (192, 214); (216, 246); (248, 705); (710, 721);
    (736, 740); (748, 748); (750, 750); (880, 884);
    (886, 887); (890, 893); (895, 895); (902, 902);
    (904, 906); (908, 908); (910, 929); (931, 1013);
    (1015, 1153); (1162, 1327); (1329, 1366); (1369, 1369);
    (1376, 1416); (1488, 1514); (1519, 1522); (1568, 1610);
    (1632, 1641); (1646, 1647); (1649, 1747); (1749, 1749);
    (1765, 1766); (1774, 1788); (1791, 1791); (1808, 1808);
    (1810, 1839); (1869, 1957); (1969, 1969); (1984, 2026);
    (2036, 2037); (2042, 2042); (2048, 2069); (2074, 2074);
    (2084, 2084); (2088, 2088); (2112, 2136); (2144, 2154);
    (2160, 2183); (2185, 2190); (2208, 2249); (2308, 2361);
    (2365, 2365); (2384, 2384); (2392, 2401); (2406, 2415);
    (2417, 2432); (2437, 2444); (2447, 2448); (2451, 2472);
    (2474, 2480); (2482, 2482); (2486, 2489); (2493, 2493);
    (2510, 2510); (2524, 2525); (2527, 2529); (2534, 2545);
    (2548, 2553); (2556, 2556); (2565, 2570); (2575, 2576);
    (2579, 2600); (2602, 2608); (2610, 2611); (2613, 2614);
    (2616, 2617); (2649, 2652); (2654, 2654); (2662, 2671);
    (2674, 2676); (2693, 2701); (2703, 2705); (2707, 2728);
    (2730, 2736); (2738, 2739); (2741, 2745); (2749, 2749);
    (2768, 2768); (2784, 2785); (2790, 2799); (2809, 2809);
    (2821, 2828); (2831, 2832); (2835, 2856); (2858, 2864);
    (2866, 2867); (2869, 2873); (2877, 2877); (2908, 2909);
    (2911, 2913); (2918, 2927); (2929, 2935); (2947, 2947);
    (2949, 2954); (2958, 2960); (2962, 2965); (2969, 2970);
    (2972, 2972); (2974, 2975); (2979, 2980); (2984, 2986);
    (2990, 3001); (3024, 3024); (3046, 3058); (3077, 3084);
    (3086, 3088); (3090, 3112); (3114, 3129); (3133, 3133);
    (3160, 3162); (3165, 3165); (3168, 3169); (3174, 3183);
    (3192, 3198); (3200, 3200); (3205, 3212); (3214, 3216);
    (3218, 3240); (3242, 3251); (3253, 3257); (3261, 3261);
    (3293, 3294); (3296, 3297); (3302, 3311); (3313, 3314);
    (3332, 3340); (3342, 3344); (3346, 3386); (3389, 3389);
    (3406, 3406); (3412, 3414); (3416, 3425); (3430, 3448);
    (3450, 3455); (3461, 3478); (3482, 3505); (3507, 3515);
    (3517, 3517); (3520, 3526); (3558, 3567); (3585, 3632);
    (3634, 3635); (3648, 3654); (3664, 3673); (3713, 3714);
    (3716, 3716); (3718, 3722); (3724, 3747); (3749, 3749);
    (3751, 3760); (3762, 3763); (3773, 3773); (3776, 3780);
    (3782, 3782); (3792, 3801); (3804, 3807); (3840, 3840);
    (3872, 3891); (3904, 3911); (3913, 3948); (3976, 3980);
    (4096, 4138); (4159, 4169); (4176, 4181); (4186, 4189);
    (4193, 4193); (4197, 4198); (4206, 4208); (4213, 4225);
    (4238, 4238); (4240, 4249); (4256, 4293); (4295, 4295);
    (4301, 4301); (4304, 4346); (4348, 4680); (4682, 4685);
    (4688, 4694); (4696, 4696); (4698, 4701); (4704, 4744);
    (4746, 4749); (4752, 4784); (4786, 4789); (4792, 4798);
    (4800, 4800); (4802, 4805); (4808, 4822); (4824, 4880);
    (4882, 4885); (4888, 4954); (4969, 4988); (4992, 5007);
    (5024, 5109); (5112, 5117); (5121, 5740); (5743, 5759);
    (5761, 5786); (5792, 5866); (5870, 5880); (5888, 5905);
    (5919, 5937); (5952, 5969); (5984, 5996); (5998, 6000);
    (6016, 6067); (6103, 6103); (6108, 6108); (6112, 6121);
    (6128, 6137); (6160, 6169); (6176, 6264); (6272, 6276);
    (6279, 6312); (6314, 6314); (6320, 6389); (6400, 6430);
    (6470, 6509); (6512, 6516); (6528, 6571); (6576, 6601);
    (6608, 6618); (6656, 6678); (6688, 6740); (6784, 6793);
    (6800, 6809); (6823, 6823); (6917, 6963); (6981, 6988);
    (6992, 7001); (7043, 7072); (7086, 7141); (7168, 7203);
    (7232, 7241); (7245, 7293); (7296, 7304); (7312, 7354);
    (7357, 7359); (7401, 7404); (7406, 7411); (7413, 7414);
    (7418, 7418); (7424, 7615); (7680, 7957); (7960, 7965);
    (7968, 8005); (8008, 8013); (8016, 8023); (8025, 8025);
    (8027, 8027); (8029, 8029); (8031, 8061); (8064, 8116);
    (8118, 8124); (8126, 8126); (8130, 8132); (8134, 8140);
    (8144, 8147); (8150, 8155); (8160, 8172); (8178, 8180);
    (8182, 8188); (8304, 8305); (8308, 8313); (8319, 8329);
    (8336, 8348); (8450, 8450); (8455, 8455); (8458, 8467);
    (8469, 8469); (8473, 8477); (8484, 8484); (8486, 8486);
    (8488, 8488); (8490, 8493); (8495, 8505); (8508, 8511);
    (8517, 8521); (8526, 8526); (8528, 8585); (9312, 9371);
    (9450, 9471); (10102, 10131); (11264, 11492); (11499, 11502);
    (11506, 11507); (11517, 11517); (11520, 11557); (11559, 11559);
    (11565, 11565); (11568, 11623); (11631, 11631); (11648, 11670);
    (11680, 11686); (11688, 11694); (11696, 11702); (11704, 11710);
    (11712, 11718); (11720, 11726); (11728, 11734); (11736, 11742);
    (11823, 11823); (12293, 12295); (12321, 12329); (12337, 12341);
    (12344, 12348); (12353, 12438); (12445, 12447); (12449, 12538);
    (12540, 12543); (12549, 12591); (12593, 12686); (12690, 12693);
    (12704, 12735); (12784, 12799); (12832, 12841); (12872, 12879);
    (12881, 12895); (12928, 12937); (12977, 12991); (13312, 19903);
    (19968, 42124); (42192, 42237); (42240, 42508); (42512, 42539);
    (42560, 42606); (42623, 42653); (42656, 42735); (42775, 42783);
    (42786, 42888); (42891, 42954); (42960, 42961); (42963, 42963);
    (42965, 42969); (42994, 43009); (43011, 43013); (43015, 43018);
    (43020, 43042); (43056, 43061); (43072, 43123); (43138, 43187);
    (43216, 43225); (43250, 43255); (43259, 43259); (43261, 43262);
    (43264, 43301); (43312, 43334); (43360, 43388); (43396, 43442);
    (43471, 43481); (43488, 43492); (43494, 43518); (43520, 43560);
    (43584, 43586); (43588, 43595); (43600, 43609); (43616, 43638);
    (43642, 43642); (43646, 43695); (43697, 43697); (43701, 43702);
    (43705, 43709); (43712, 43712); (43714, 43714); (43739, 43741);
    (43744, 43754); (43762, 43764); (43777, 43782); (43785, 43790);
    (43793, 43798); (43808, 43814); (43816, 43822); (43824, 43866);
    (43868, 43881); (43888, 44002); (44016, 44025); (44032, 55203);
    (55216, 55238); (55243, 55291); (63744, 64109); (64112, 64217);
    (64256, 64262); (64275, 64279); (64285, 64285); (64287, 64296);
    (64298, 64310); (64312, 64316); (64318, 64318); (64320, 64321);
    (64323, 64324); (64326, 64433); (64467, 64829); (64848, 64911);
    (64914, 64967); (65008, 65019); (65136, 65140); (65142, 65276);
    (65296, 65305); (65313, 65338); (65345, 65370); (65382, 65470);
    (65474, 65479); (65482, 65487); (65490, 65495); (65498, 65500);
    (65536, 65547); (65549, 65574); (65576, 65594); (65596, 65597);
    (65599, 65613); (65616, 65629); (65664, 65786); (65799, 65843);
    (65856, 65912); (65930, 65931); (66176, 66204); (66208, 66256);
    (66273, 66299); (66304, 66339); (66349, 66378); (66384, 66421);
    (66432, 66461); (66464, 66499); (66504, 66511); (66513, 66517);
    (66560, 66717); (66720, 66729); (66736, 66771); (66776, 66811);
    (66816, 66855); (66864, 66915); (66928, 66938); (66940, 66954);
    (66956, 66962); (66964, 66965); (66967, 66977); (66979, 66993);
    (66995, 67001); (67003, 67004); (67072, 67382); (67392, 67413);
    (67424, 67431); (67456, 67461); (67463, 67504); (67506, 67514);
    (67584, 67589); (67592, 67592); (67594, 67637); (67639, 67640);
    (67644, 67644); (67647, 67669); (67672, 67702); (67705, 67742);
    (67751, 67759); (67808, 67826); (67828, 67829); (67835, 67867);
    (67872, 67897); (67968, 68023); (68028, 68047); (68050, 68096);
    (68112, 68115); (68117, 68119); (68121, 68149); (68160, 68168);
    (68192, 68222); (68224, 68255); (68288, 68295); (68297, 68324);
    (68331, 68335); (68352, 68405); (68416, 68437); (68440, 68466);
    (68472, 68497); (68521, 68527); (68608, 68680); (68736, 68786);
    (68800, 68850); (68858, 68899); (68912, 68921); (69216, 69246);
    (69248, 69289); (69296, 69297); (69376, 69415); (69424, 69445);
    (69457, 69460); (69488, 69505); (69552, 69579); (69600, 69622);
    (69635, 69687); (69714, 69743); (69745, 69746); (69749, 69749);
    (69763, 69807); (69840, 69864); (69872, 69881); (69891, 69926);
    (69942, 69951); (69956, 69956); (69959, 69959); (69968, 70002);
    (70006, 70006); (70019, 70066); (70081, 70084); (70096, 70106);
    (70108, 70108); (70113, 70132); (70144, 70161); (70163, 70187);
    (70272, 70278); (70280, 70280); (70282, 70285); (70287, 70301);
    (70303, 70312); (70320, 70366); (70384, 70393); (70405, 70412);
    (70415, 70416); (70419, 70440); (70442, 70448); (70450, 70451);
    (70453, 70457); (70461, 70461); (70480, 70480); (70493, 70497);
    (70656, 70708); (70727, 70730); (70736, 70745); (70751, 70753);
    (70784, 70831); (70852, 70853); (70855, 70855); (70864, 70873);
    (71040, 71086); (71128, 71131); (71168, 71215); (71236, 71236);
    (71248, 71257); (71296, 71338); (71352, 71352); (71360, 71369);
    (71424, 71450); (71472, 71483); (71488, 71494); (71680, 71723);
    (71840, 71922); (71935, 71942); (71945, 71945); (71948, 71955);
    (71957, 71958); (71960, 71983); (71999, 71999); (72001, 72001);
    (72016, 72025); (72096, 72103); (72106, 72144); (72161, 72161);
    (72163, 72163); (72192, 72192); (72203, 72242); (72250, 72250);
    (72272, 72272); (72284, 72329); (72349, 72349); (72368, 72440);
    (72704, 72712); (72714, 72750); (72768, 72768); (72784, 72812);
    (72818, 72847); (72960, 72966); (72968, 72969); (72971, 73008);
    (73030, 73030); (73040, 73049); (73056, 73061); (73063, 73064);
    (73066, 73097); (73112, 73112); (73120, 73129); (73440, 73458);
    (73648, 73648); (73664, 73684); (73728, 74649); (74752, 74862);
    (74880, 75075); (77712, 77808); (77824, 78894); (82944, 83526);
    (92160, 92728); (92736, 92766); (92768, 92777); (92784, 92862);
    (92864, 92873); (92880, 92909); (92928, 92975); (92992, 92995);
    (93008, 93017); (93019, 93025); (93027, 93047); (93053, 93071);
    (93760, 93846); (93952, 94026); (94032, 94032); (94099, 94111);
    (94176, 94177); (94179, 94179); (94208, 100343); (100352, 101589);
    (101632, 101640); (110576, 110579); (110581, 110587); (110589, 110590);
    (110592, 110882); (110928, 110930); (110948, 110951); (110960, 111355);
    (113664, 113770); (113776, 113788); (113792, 113800); (113808, 113817);
    (119520, 119539); (119648, 119672); (119808, 119892); (119894, 119964);
    (119966, 119967); (119970, 119970); (119973, 119974); (119977, 119980);
    (119982, 119993); (119995, 119995); (119997, 120003); (120005, 120069);
    (120071, 120074); (120077, 120084); (120086, 120092); (120094, 120121);
    (120123, 120126); (120128, 120132); (120134, 120134); (120138, 120144);
    (120146, 120485); (120488, 120512); (120514, 120538); (120540, 120570);
    (120572, 120596); (120598, 120628); (120630, 120654); (120656, 120686);
    (120688, 120712); (120714, 120744); (120746, 120770); (120772, 120779);
    (120782, 120831); (122624, 122654); (123136, 123180); (123191, 123197);
    (123200, 123209); (123214, 123214); (123536, 123565); (123584, 123627);
    (123632, 123641); (124896, 124902); (124904, 124907); (124909, 124910);
    (124912, 124926); (124928, 125124); (125127, 125135); (125184, 125251);
    (125259, 125259); (125264, 125273); (126065, 126123); (126125, 126127);
    (126129, 126132); (126209, 126253); (126255, 126269); (126464, 126467);
    (126469, 126495); (126497, 126498); (126500, 126500); (126503, 126503);
    (126505, 126514); (126516, 126519); (126521, 126521); (126523, 126523);
    (126530, 126530); (126535, 126535); (126537, 126537); (126539, 126539);
    (126541, 126543); (126545, 126546); (126548, 126548); (126551, 126551);
    (126553, 126553); (126555, 126555); (126557, 126557); (126559, 126559);
    (126561, 126562); (126564, 126564); (126567, 126570); (126572, 126578);
    (126580, 126583); (126585, 126588); (126590, 126590); (126592, 126601);
    (126603, 126619); (126625, 126627); (126629, 126633); (126635, 126651);
    (127232, 127244); (130032, 130041); (131072, 173791); (173824, 177976);
    (177984, 178205); (178208, 183969); (183984, 191456); (194560, 195101);
    (196608, 201546)
  ]%N.

(** [str.isdecimal]: the decimal digits of every script. *)
Definition decimal_ranges : list (N * N) :=
  [
    (48, 57); (1632, 1641); (1776, 1785); (1984, 1993);
    (2406, 2415); (2534, 2543); (2662, 2671); (2790, 2799);
    (2918, 2927); (3046, 3055); (3174, 3183); (3302, 3311);
    (3430, 3439); (3558, 3567); (3664, 3673); (3792, 3801);
    (3872, 3881); (4160, 4169); (4240, 4249); (6112, 6121);
    (6160, 6169); (6470, 6479); (6608, 6617); (6784, 6793);
    (6800, 6809); (6992, 7001); (7088, 7097); (7232, 7241);
    (7248, 7257); (42528, 42537); (43216, 43225); (43264, 43273);
    (43472, 43481); (43504, 43513); (43600, 43609); (44016, 44025);
    (65296, 65305); (66720, 66729); (68912, 68921); (69734, 69743);
    (69872, 69881); (69942, 69951); (70096, 70105); (70384, 70393);
    (70736, 70745); (70864, 70873); (71248, 71257); (71360, 71369);
    (71472, 71481); (71904, 71913); (72016, 72025); (72784, 72793);
    (73040, 73049); (73120, 73129); (92768, 92777); (92864, 92873);
    (93008, 93017); (120782, 120831); (123200, 123209); (123632, 123641);
    (125264, 125273); (130032, 130041)
  ]%N.

(** Cased and not case-ignorable. *)
Definition cased_ranges : list (N * N) :=
  [
    (65, 90); (97, 122); (170, 170); (181, 181);
    (186, 186); (192, 214); (216, 246); (248, 442);
    (444, 447); (452, 659); (661, 687); (880, 883);
    (886, 887); (891, 893); (895, 895); (902, 902);
    (904, 906); (908, 908); (910, 929); (931, 1013);
    (1015, 1153); (1162, 1327); (1329, 1366); (1376, 1416);
    (4256, 4293); (4295, 4295); (4301, 4301); (4304, 4346);
    (4349, 4351); (5024, 5109); (5112, 5117); (7296, 7304);
    (7312, 7354); (7357, 7359); (7424, 7467); (7531, 7543);
    (7545, 7578); (7680, 7957); (7960, 7965); (7968, 8005);
    (8008, 8013); (8016, 8023); (8025, 8025); (8027, 8027);
    (8029, 8029); (8031, 8061); (8064, 8116); (8118, 8124);
    (8126, 8126); (8130, 8132); (8134, 8140); (8144, 8147);
    (8150, 8155); (8160, 8172); (8178, 8180); (8182, 8188);
    (8450, 8450); (8455, 8455); (8458, 8467); (8469, 8469);
    (8473, 8477); (8484, 8484); (8486, 8486); (8488, 8488);
    (8490, 8493); (8495, 8500); (8505, 8505); (8508, 8511);
    (8517, 8521); (8526, 8526); (8544, 8575); (8579, 8580);
    (9398, 9449); (11264, 11387); (11390, 11492); (11499, 11502);
    (11506, 11507); (11520, 11557); (11559, 11559); (11565, 11565);
    (42560, 42605); (42624, 42651); (42786, 42863); (42865, 42887);
    (42891, 42894); (42896, 42954); (42960, 42961); (42963, 42963);
    (42965, 42969); (42997, 42998); (43002, 43002); (43824, 43866);
    (43872, 43880); (43888, 43967); (64256, 64262); (64275, 64279);
    (65313, 65338); (65345, 65370); (66560, 66639); (66736, 66771);
    (66776, 66811); (66928, 66938); (66940, 66954); (66956, 66962);
    (66964, 66965); (66967, 66977); (66979, 66993); (66995, 67001);
    (67003, 67004); (68736, 68786); (68800, 68850); (71840, 71903);
    (93760, 93823); (119808, 119892); (119894, 119964); (119966, 119967);
    (119970, 119970); (119973, 119974); (119977, 119980); (119982, 119993);
    (119995, 119995); (119997, 120003); (120005, 120069); (120071, 120074);
    (120077, 120084); (120086, 120092); (120094, 120121); (120123, 120126);
    (120128, 120132); (120134, 120134); (120138, 120144); (120146, 120485);
    (120488, 120512); (120514, 120538); (120540, 120570); (120572, 120596);
    (120598, 120628); (120630, 120654); (120656, 120686); (120688, 120712);
    (120714, 120744); (120746, 120770); (120772, 120779); (122624, 122633);
    (122635, 122654); (125184, 125251); (127280, 127305); (127312, 127337);
    (127344, 127369)
  ]%N.

(** Case-ignorable. *)
Definition case_ignorable_ranges : list (N * N) :=
  [
    (39, 39); (46, 46); (58, 58); (94, 94);
    (96, 96); (168, 168); (173, 173); (175, 175);
    (180, 180); (183, 184); (688, 879); (884, 885);
    (890, 890); (900, 901); (903, 903); (1155, 1161);
    (1369, 1369); (1375, 1375); (1425, 1469); (1471, 1471);
    (1473, 1474); (1476, 1477); (1479, 1479); (1524, 1524);
    (1536, 1541); (1552, 1562); (1564, 1564); (1600, 1600);
    (1611, 1631); (1648, 1648); (1750, 1757); (1759, 1768);
    (1770, 1773); (1807, 1807); (1809, 1809); (1840, 1866);
    (1958, 1968); (2027, 2037); (2042, 2042); (2045, 2045);
    (2070, 2093); (2137, 2139); (2184, 2184); (2192, 2193);
    (2200, 2207); (2249, 2306); (2362, 2362); (2364, 2364);
    (2369, 2376); (2381, 2381); (2385, 2391); (2402, 2403);
    (2417, 2417); (2433, 2433); (2492, 2492); (2497, 2500);
    (2509, 2509); (2530, 2531); (2558, 2558); (2561, 2562);
    (2620, 2620); (2625, 2626); (2631, 2632); (2635, 2637);
    (2641, 2641); (2672, 2673); (2677, 2677); (2689, 2690);
    (2748, 2748); (2753, 2757); (2759, 2760); (2765, 2765);
    (2786, 2787); (2810, 2815); (2817, 2817); (2876, 2876);
    (2879, 2879); (2881, 2884); (2893, 2893); (2901, 2902);
    (2914, 2915); (2946, 2946); (3008, 3008); (3021, 3021);
    (3072, 3072); (3076, 3076); (3132, 3132); (3134, 3136);
    (3142, 3144); (3146, 3149); (3157, 3158); (3170, 3171);
    (3201, 3201); (3260, 3260); (3263, 3263); (3270, 3270);
    (3276, 3277); (3298, 3299); (3328, 3329); (3387, 3388);
    (3393, 3396); (3405, 3405); (3426, 3427); (3457, 3457);
    (3530, 3530); (3538, 3540); (3542, 3542); (3633, 3633);
    (3636, 3642); (3654, 3662); (3761, 3761); (3764, 3772);
    (3782, 3782); (3784, 3789); (3864, 3865); (3893, 3893);
    (3895, 3895); (3897, 3897); (3953, 3966); (3968, 3972);
    (3974, 3975); (3981, 3991); (3993, 4028); (4038, 4038);
    (4141, 4144); (4146, 4151); (4153, 4154); (4157, 4158);
    (4184, 4185); (4190, 4192); (4209, 4212); (4226, 4226);
    (4229, 4230); (4237, 4237); (4253, 4253); (4348, 4348);
    (4957, 4959); (5906, 5908); (5938, 5939); (5970, 5971);
    (6002, 6003); (6068, 6069); (6071, 6077); (6086, 6086);
    (6089, 6099); (6103, 6103); (6109, 6109); (6155, 6159);
    (6211, 6211); (6277, 6278); (6313, 6313); (6432, 6434);
    (6439, 6440); (6450, 6450); (6457, 6459); (6679, 6680);
    (6683, 6683); (6742, 6742); (6744, 6750); (6752, 6752);
    (6754, 6754); (6757, 6764); (6771, 6780); (6783, 6783);
    (6823, 6823); (6832, 6862); (6912, 6915); (6964, 6964);
    (6966, 6970); (6972, 6972); (6978, 6978); (7019, 7027);
    (7040, 7041); (7074, 7077); (7080, 7081); (7083, 7085);
    (7142, 7142); (7144, 7145); (7149, 7149); (7151, 7153);
    (7212, 7219); (7222, 7223); (7288, 7293); (7376, 7378);
    (7380, 7392); (7394, 7400); (7405, 7405); (7412, 7412);
    (7416, 7417); (7468, 7530); (7544, 7544); (7579, 7679);
    (8125, 8125); (8127, 8129); (8141, 8143); (8157, 8159);
    (8173, 8175); (8189, 8190); (8203, 8207); (8216, 8217);
    (8228, 8228); (8231, 8231); (8234, 8238); (8288, 8292);
    (8294, 8303); (8305, 8305); (8319, 8319); (8336, 8348);
    (8400, 8432); (11388, 11389); (11503, 11505); (11631, 11631);
    (11647, 11647); (11744, 11775); (11823, 11823); (12293, 12293);
    (12330, 12333); (12337, 12341); (12347, 12347); (12441, 12446);
    (12540, 12542); (40981, 40981); (42232, 42237); (42508, 42508);
    (42607, 42610); (42612, 42621); (42623, 42623); (42652, 42655);
    (42736, 42737); (42752, 42785); (42864, 42864); (42888, 42890);
    (42994, 42996); (43000, 43001); (43010, 43010); (43014, 43014);
    (43019, 43019); (43045, 43046); (43052, 43052); (43204, 43205);
    (43232, 43249); (43263, 43263); (43302, 43309); (43335, 43345);
    (43392, 43394); (43443, 43443); (43446, 43449); (43452, 43453);
    (43471, 43471); (43493, 43494); (43561, 43566); (43569, 43570);
    (43573, 43574); (43587, 43587); (43596, 43596); (43632, 43632);
    (43644, 43644); (43696, 43696); (43698, 43700); (43703, 43704);
    (43710, 43711); (43713, 43713); (43741, 43741); (43756, 43757);
    (43763, 43764); (43766, 43766); (43867, 43871); (43881, 43883);
    (44005, 44005); (44008, 44008); (44013, 44013); (64286, 64286);
    (64434, 64450); (65024, 65039); (65043, 65043); (65056, 65071);
    (65106, 65106); (65109, 65109); (65279, 65279); (65287, 65287);
    (65294, 65294); (65306, 65306); (65342, 65342); (65344, 65344);
    (65392, 65392); (65438, 65439); (65507, 65507); (65529, 65531);
    (66045, 66045); (66272, 66272); (66422, 66426); (67456, 67461);
    (67463, 67504); (67506, 67514); (68097, 68099); (68101, 68102);
    (68108, 68111); (68152, 68154); (68159, 68159); (68325, 68326);
    (68900, 68903); (69291, 69292); (69446, 69456); (69506, 69509);
    (69633, 69633); (69688, 69702); (69744, 69744); (69747, 69748);
    (69759, 69761); (69811, 69814); (69817, 69818); (69821, 69821);
    (69826, 69826); (69837, 69837); (69888, 69890); (69927, 69931);
    (69933, 69940); (70003, 70003); (70016, 70017); (70070, 70078);
    (70089, 70092); (70095, 70095); (70191, 70193); (70196, 70196);
    (70198, 70199); (70206, 70206); (70367, 70367); (70371, 70378);
    (70400, 70401); (70459, 70460); (70464, 70464); (70502, 70508);
    (70512, 70516); (70712, 70719); (70722, 70724); (70726, 70726);
    (70750, 70750); (70835, 70840); (70842, 70842); (70847, 70848);
    (70850, 70851); (71090, 71093); (71100, 71101); (71103, 71104);
    (71132, 71133); (71219, 71226); (71229, 71229); (71231, 71232);
    (71339, 71339); (71341, 71341); (71344, 71349); (71351, 71351);
    (71453, 71455); (71458, 71461); (71463, 71467); (71727, 71735);
    (71737, 71738); (71995, 71996); (71998, 71998); (72003, 72003);
    (72148, 72151); (72154, 72155); (72160, 72160); (72193, 72202);
    (72243, 72248); (72251, 72254); (72263, 72263); (72273, 72278);
    (72281, 72283); (72330, 72342); (72344, 72345); (72752, 72758);
    (72760, 72765); (72767, 72767); (72850, 72871); (72874, 72880);
    (72882, 72883); (72885, 72886); (73009, 73014); (73018, 73018);
    (73020, 73021); (73023, 73029); (73031, 73031); (73104, 73105);
    (73109, 73109); (73111, 73111); (73459, 73460); (78896, 78904);
    (92912, 92916); (92976, 92982); (92992, 92995); (94031, 94031);
    (94095, 94111); (94176, 94177); (94179, 94180); (110576, 110579);
    (110581, 110587); (110589, 110590); (113821, 113822); (113824, 113827);
    (118528, 118573); (118576, 118598); (119143, 119145); (119155, 119170);
    (119173, 119179); (119210, 119213); (119362, 119364); (121344, 121398);
    (121403, 121452); (121461, 121461); (121476, 121476); (121499, 121503);
    (121505, 121519); (122880, 122886); (122888, 122904); (122907, 122913);
    (122915, 122916); (122918, 122922); (123184, 123197); (123566, 123566);
    (123628, 123631); (125136, 125142); (125252, 125259); (127995, 127999);
    (917505, 917505); (917536, 917631); (917760, 917999)
  ]%N.

(** The simple lower-case mapping above 127, as runs
    [(first, last, step, image)]: the characters [first], [first + step],
    ... up to [last] are mapped to the characters at the same distance from
    [image], the lower case of [first]. *)
Definition lower_runs : list (N * N * N * N) :=
  [
    (192, 214, 1, 224); (216, 222, 1, 248); (256, 302, 2, 257);
    (304, 304, 1, 105); (306, 310, 2, 307); (313, 327, 2, 314);
    (330, 374, 2, 331); (376, 376, 1, 255); (377, 381, 2, 378);
    (385, 385, 1, 595); (386, 388, 2, 387); (390, 390, 1, 596);
    (391, 391, 1, 392); (393, 394, 1, 598); (395, 395, 1, 396);
    (398, 398, 1, 477); (399, 399, 1, 601); (400, 400, 1, 603);
    (401, 401, 1, 402); (403, 403, 1, 608); (404, 404, 1, 611);
    (406, 406, 1, 617); (407, 407, 1, 616); (408, 408, 1, 409);
    (412, 412, 1, 623); (413, 413, 1, 626); (415, 415, 1, 629);
    (416, 420, 2, 417); (422, 422, 1, 640); (423, 423, 1, 424);
    (425, 425, 1, 643); (428, 428, 1, 429); (430, 430, 1, 648);
    (431, 431, 1, 432); (433, 434, 1, 650); (435, 437, 2, 436);
    (439, 439, 1, 658); (440, 440, 1, 441); (444, 444, 1, 445);
    (452, 452, 1, 454); (453, 453, 1, 454); (455, 455, 1, 457);
    (456, 456, 1, 457); (458, 458, 1, 460); (459, 475, 2, 460);
    (478, 494, 2, 479); (497, 497, 1, 499); (498, 500, 2, 499);
    (502, 502, 1, 405); (503, 503, 1, 447); (504, 542, 2, 505);
    (544, 544, 1, 414); (546, 562, 2, 547); (570, 570, 1, 11365);
    (571, 571, 1, 572); (573, 573, 1, 410); (574, 574, 1, 11366);
    (577, 577, 1, 578); (579, 579, 1, 384); (580, 580, 1, 649);
    (581, 581, 1, 652); (582, 590, 2, 583); (880, 882, 2, 881);
    (886, 886, 1, 887); (895, 895, 1, 1011); (902, 902, 1, 940);
    (904, 906, 1, 941); (908, 908, 1, 972); (910, 911, 1, 973);
    (913, 929, 1, 945); (931, 939, 1, 963); (975, 975, 1, 983);
    (984, 1006, 2, 985); (1012, 1012, 1, 952); (1015, 1015, 1, 1016);
    (1017, 1017, 1, 1010); (1018, 1018, 1, 1019); (1021, 1023, 1, 891);
    (1024, 1039, 1, 1104); (1040, 1071, 1, 1072); (1120, 1152, 2, 1121);
    (1162, 1214, 2, 1163); (1216, 1216, 1, 1231); (1217, 1229, 2, 1218);
    (1232, 1326, 2, 1233); (1329, 1366, 1, 1377); (4256, 4293, 1, 11520);
    (4295, 4295, 1, 11559); (4301, 4301, 1, 11565); (5024, 5103, 1, 43888);
    (5104, 5109, 1, 5112); (7312, 7354, 1, 4304); (7357, 7359, 1, 4349);
    (7680, 7828, 2, 7681); (7838, 7838, 1, 223); (7840, 7934, 2, 7841);
    (7944, 7951, 1, 7936); (7960, 7965, 1, 7952); (7976, 7983, 1, 7968);
    (7992, 7999, 1, 7984); (8008, 8013, 1, 8000); (8025, 8031, 2, 8017);
    (8040, 8047, 1, 8032); (8072, 8079, 1, 8064); (8088, 8095, 1, 8080);
    (8104, 8111, 1, 8096); (8120, 8121, 1, 8112); (8122, 8123, 1, 8048);
    (8124, 8124, 1, 8115); (8136, 8139, 1, 8050); (8140, 8140, 1, 8131);
    (8152, 8153, 1, 8144); (8154, 8155, 1, 8054); (8168, 8169, 1, 8160);
    (8170, 8171, 1, 8058); (8172, 8172, 1, 8165); (8184, 8185, 1, 8056);
    (8186, 8187, 1, 8060); (8188, 8188, 1, 8179); (8486, 8486, 1, 969);
    (8490, 8490, 1, 107); (8491, 8491, 1, 229); (8498, 8498, 1, 8526);
    (8544, 8559, 1, 8560); (8579, 8579, 1, 8580); (9398, 9423, 1, 9424);
    (11264, 11311, 1, 11312); (11360, 11360, 1, 11361); (11362, 11362, 1, 619);
    (11363, 11363, 1, 7549); (11364, 11364, 1, 637); (11367, 11371, 2, 11368);
    (11373, 11373, 1, 593); (11374, 11374, 1, 625); (11375, 11375, 1, 592);
    (11376, 11376, 1, 594); (11378, 11378, 1, 11379); (11381, 11381, 1, 11382);
    (11390, 11391, 1, 575); (11392, 11490, 2, 11393); (11499, 11501, 2, 11500);
    (11506, 11506, 1, 11507); (42560, 42604, 2, 42561); (42624, 42650, 2, 42625);
    (42786, 42798, 2, 42787); (42802, 42862, 2, 42803); (42873, 42875, 2, 42874);
    (42877, 42877, 1, 7545); (42878, 42886, 2, 42879); (42891, 42891, 1, 42892);
    (42893, 42893, 1, 613); (42896, 42898, 2, 42897); (42902, 42920, 2, 42903);
    (42922, 42922, 1, 614); (42923, 42923, 1, 604); (42924, 42924, 1, 609);
    (42925, 42925, 1, 620); (42926, 42926, 1, 618); (42928, 42928, 1, 670);
    (42929, 42929, 1, 647); (42930, 42930, 1, 669); (42931, 42931, 1, 43859);
    (42932, 42946, 2, 42933); (42948, 42948, 1, 42900); (42949, 42949, 1, 642);
    (42950, 42950, 1, 7566); (42951, 42953, 2, 42952); (42960, 42960, 1, 42961);
    (42966, 42968, 2, 42967); (42997, 42997, 1, 42998); (65313, 65338, 1, 65345);
    (66560, 66599, 1, 66600); (66736, 66771, 1, 66776); (66928, 66938, 1, 66967);
    (66940, 66954, 1, 66979); (66956, 66962, 1, 66995); (66964, 66965, 1, 67003);
    (68736, 68786, 1, 68800); (71840, 71871, 1, 71872); (93760, 93791, 1, 93792);
    (125184, 125217, 1, 125218)
  ]%N.

(** [Py_UNICODE_ISALNUM] and [Py_UNICODE_ISDECIMAL] *)
Definition isalnum (c : char) : bool := in_ranges alnum_ranges c.
Definition isdecimal (c : char) : bool := in_ranges decimal_ranges c.

(** [_PyUnicode_IsCaseIgnorable], and [_PyUnicode_IsCased] on the characters
    that are not case-ignorable. *)
Definition case_ignorable (c : char) : bool :=
  in_ranges case_ignorable_ranges c.
Definition cased (c : char) : bool := in_ranges cased_ranges c.

Fixpoint lower_in (runs : list (N * N * N * N)) (c : char) : option char :=
  match runs with
  | [] => None
  | (first, last, step, image) :: runs' =>
      if in_range first last c && ((c - first) mod step =? 0)%N
      then Some (image + (c - first))%N
      else lower_in runs' c
  end.

(** [Py_UNICODE_TOLOWER] above 127 *)
Definition tolower (c : char) : char :=
  match lower_in lower_runs c with
  | Some image => image
  | None => c
  end.

End Unicode.

(* ------------------------------------------------------------------------- *)
(** ** Python strings                                                          *)
(* ------------------------------------------------------------------------- *)

(** The ASCII capital letters to small letters. *)
Definition ascii_lower (c : char) : char :=
  if is_upper c then (c + 32)%N else c.

(** The lower-case character of [c] (the simple mapping). *)
Definition lower_char (c : char) : char :=
  if is_ascii c then ascii_lower c else Unicode.tolower c.

(** The lower-case string of one character: [U+0130] (capital I with a dot
    above) gives [i] and the combining dot above, every other character its
    simple lower case. *)
Definition lower_full (c : char) : str :=
  if (c =? 304)%N then [105; 775]%N else [lower_char c].

(** The first character of [s] that is not case-ignorable is cased. *)
Fixpoint cased_ahead (s : str) : bool :=
  match s with
  | c :: s' =>
      if Unicode.case_ignorable c then cased_ahead s' else Unicode.cased c
  | [] => false
  end.

(** The context in which a capital sigma becomes a final sigma: after a
    cased character and not before one, case-ignorable characters being
    skipped on both sides.  [before] is the text before the sigma,
    reversed. *)
Definition final_sigma (before after : str) : bool :=
  cased_ahead before && negb (cased_ahead after).

Fixpoint lower_from (before s : str) : str :=
  match s with
  | [] => []
  | c :: after =>
      (if (c =? 931)%N
       then [if final_sigma before after then 962 else 963]%N
       else lower_full c)
      ++ lower_from (c :: before) after
  end.

(** [str.lower()] *)
Definition lower (s : str) : str := lower_from [] s.

(** [str.isspace] on one character: TAB, LF, VT, FF, CR, FS, GS, RS, US, the
    space, NEL, the no-break space and the blanks of Unicode. *)
Definition isspace (c : char) : bool :=
  in_range 9 13 c || in_range 28 32 c || (c =? 133)%N || (c =? 160)%N
  || (c =? 5760)%N || in_range 8192 8202 c || in_range 8232 8233 c
  || (c =? 8239)%N || (c =? 8287)%N || (c =? 12288)%N.

Fixpoint lstrip (s : str) : str :=
  match s with
  | [] => []
  | c :: s' => if isspace c then lstrip s' else s
  end.

Definition rstrip (s : str) : str := rev (lstrip (rev s)).

(** [str.strip()] *)
Definition strip (s : str) : str := rstrip (lstrip s).

(** [str.split()] with no argument: the maximal runs of non-blank
    characters. *)
Fixpoint split (s : str) : list str :=
  match s with
  | [] => []
  | c :: s' =>
      if isspace c then split s'
      else match s' with
           | [] => [[c]]
           | d :: _ =>
               if isspace d then [c] :: split s'
               else match split s' with
                    | w :: ws => (c :: w) :: ws
                    | [] => [[c]]
                    end
           end
  end.

(** [sep.join(parts)] *)
Fixpoint join (sep : str) (parts : list str) : str :=
  match parts with
  | [] => []
  | [p] => p
  | p :: ps => p ++ sep ++ join sep ps
  end.

Definition str_eq_dec : forall a b : str, {a = b} + {a <> b} :=
  list_eq_dec N.eq_dec.

Definition str_eqb (a b : str) : bool :=
  if str_eq_dec a b then true else false.

(** Truth value of a string or of a list: non-empty. *)
Definition truthy {A : Type} (s : list A) : bool :=
  match s with [] => false | _ :: _ => true end.

(** [x or default] for an optional string [x]. *)
Definition or_else (x : option str) (default : str) : str :=
  match x with
  | Some (c :: s) => c :: s
  | _ => default
  end.

(** Truth value of an optional string ([None] and [""] are false). *)
Definition truthy_opt (x : option str) : bool :=
  match x with
  | Some s => truthy s
  | None => false
  end.

(** The order of [str] values: lexicographic on code points. *)
Fixpoint str_ltb (a b : str) : bool :=
  match a, b with
  | [], [] => false
  | [], _ :: _ => true
  | _ :: _, [] => false
  | x :: a', y :: b' =>
      if (x <? y)%N then true
      else if (y <? x)%N then false
      else str_ltb a' b'
  end.

Definition str_leb (a b : str) : bool := negb (str_ltb b a).

(** [set(xs)]: the distinct elements (in some order, here that of the last
    occurrences). *)
Definition py_set (xs : list str) : list str := nodup str_eq_dec xs.

Fixpoint insert_sorted (x : str) (l : list str) : list str :=
  match l with
  | [] => [x]
  | y :: l' => if str_leb x y then x :: l else y :: insert_sorted x l'
  end.

(** [sorted(xs)] *)
Fixpoint sorted (xs : list str) : list str :=
  match xs with
  | [] => []
  | x :: xs' => insert_sorted x (sorted xs')
  end.

(* ------------------------------------------------------------------------- *)
(** ** Exceptions                                                              *)
(* ------------------------------------------------------------------------- *)

Inductive exn : Type :=
| ValueError (msg : string)
| HTTPError (status : nat)
| RequestException (msg : string)
| KeyError (key : string)
| JSONDecodeError
| XMLSyntaxError (msg : string)
| MarkupError (msg : string)
| OSError (msg : string).

Inductive result (A : Type) : Type :=
| Ok (a : A)
| Raise (e : exn).

Arguments Ok {A} a.
Arguments Raise {A} e.

Definition bind {A B : Type} (r : result A) (k : A -> result B) : result B :=
  match r with
  | Ok a => k a
  | Raise e => Raise e
  end.

Notation "x <- r ;; k" := (bind r (fun x => k))
  (at level 61, r at next level, right associativity).

(* ------------------------------------------------------------------------- *)
(** ** Regular expressions ([re])                                              *)
(* ------------------------------------------------------------------------- *)

Module Re.

(** One greedy repetition [cls{rmin,rmax}] of a character class; [rmax] is
    [None] for an unbounded repetition. *)
Record atom : Type := Atom {
  cls : char -> bool;
  rmin : nat;
  rmax : option nat
}.

(** A sequence of atoms, and a pattern as alternatives [a1|a2|...]. *)
Definition alt : Type := list atom.
Definition pattern : Type := list alt.

Definition below (n : nat) (bound : option nat) : bool :=
  match bound with
  | None => true
  | Some m => n <? m
  end.

(** Greedy repetition followed by the continuation [k]: [n] characters of
    the class have been consumed; one more is tried first, and the
    continuation is tried when that fails.  The result is the number of
    characters matched from here. *)
Fixpoint rep (c : char -> bool) (lo : nat) (hi : option nat)
    (k : str -> option nat) (n : nat) (s : str) : option nat :=
  let stop := if lo <=? n then k s else None in
  match s with
  | x :: s' =>
      if c x && below n hi
      then match rep c lo hi k (S n) s' with
           | Some r => Some (S r)
           | None => stop
           end
      else stop
  | [] => stop
  end.

(** Match a sequence of atoms at the start of [s]. *)
Fixpoint match_alt (a : alt) (s : str) : option nat :=
  match a with
  | [] => Some 0
  | x :: a' => rep (cls x) (rmin x) (rmax x) (match_alt a') 0 s
  end.

(** [pattern.match(s)]: the first alternative that matches at the start. *)
Fixpoint match_here (p : pattern) (s : str) : option nat :=
  match p with
  | [] => None
  | a :: p' =>
      match match_alt a s with
      | Some n => Some n
      | None => match_here p' s
      end
  end.

(** [pattern.search(s)]: the leftmost match, as (start, length). *)
Fixpoint search (p : pattern) (s : str) : option (nat * nat) :=
  match match_here p s with
  | Some n => Some (0, n)
  | None =>
      match s with
      | [] => None
      | _ :: s' =>
          match search p s' with
          | Some (i, n) => Some (S i, n)
          | None => None
          end
      end
  end.

(** [m.group(0)] *)
Definition group0 (s : str) (m : nat * nat) : str :=
  firstn (snd m) (skipn (fst m) s).

(** Atom constructors. *)
Definition once (c : char -> bool) : atom := Atom c 1 (Some 1).
Definition opt (c : char -> bool) : atom := Atom c 0 (Some 1).
Definition plus (c : char -> bool) : atom := Atom c 1 None.
Definition at_least (n : nat) (c : char -> bool) : atom := Atom c n None.

(** A literal character. *)
Definition is_char (x : char) : char -> bool := char_eqb x.

(** The characters outside ASCII that [re.I] takes for an ASCII letter: the
    dotted capital [U+0130] and the dotless small [U+0131] for [i], the long
    s [U+017F] for [s], the Kelvin sign [U+212A] for [k]. *)
Definition folds_to (x c : char) : bool :=
  (char_eqb x (code "i") && (char_eqb c 304 || char_eqb c 305))
  || (char_eqb x (code "s") && char_eqb c 383)
  || (char_eqb x (code "k") && char_eqb c 8490).

(** A literal ASCII character [x] under [re.I]: the character [x] in
    either case, or a character that folds to it. *)
Definition is_char_i (x : char) : char -> bool :=
  fun c =>
    char_eqb (ascii_lower c) (ascii_lower x) || folds_to (ascii_lower x) c.

(** A literal word under [re.I]. *)
Definition word_i (w : string) : alt := map (fun x => once (is_char_i x)) (txt w).

End Re.

(* ------------------------------------------------------------------------- *)
(** ** Constants & simple heuristics                                           *)
(* ------------------------------------------------------------------------- *)

Definition BATCH_SIZE : nat := 200.

Definition dot : char := (code ".").

(** [pharm|biotech|inc\.?|ltd\.?|llc|gmbh|corp|corporation|
     s\.?a\.?|plc|k\.?k\.?|co\.?\s?ltd], flags [re.I | re.X]. *)
Definition COMPANY_KEYWORDS : Re.pattern :=
  [ Re.word_i "pharm";
    Re.word_i "biotech";
    Re.word_i "inc" ++ [Re.opt (Re.is_char_i dot)];
    Re.word_i "ltd" ++ [Re.opt (Re.is_char_i dot)];
    Re.word_i "llc";
    Re.word_i "gmbh";
    Re.word_i "corp";
    Re.word_i "corporation";
    Re.word_i "s" ++ [Re.opt (Re.is_char_i dot)] ++
      Re.word_i "a" ++ [Re.opt (Re.is_char_i dot)];
    Re.word_i "plc";
    Re.word_i "k" ++ [Re.opt (Re.is_char_i dot)] ++
      Re.word_i "k" ++ [Re.opt (Re.is_char_i dot)];
    Re.word_i "co" ++ [Re.opt (Re.is_char_i dot); Re.opt isspace] ++
      Re.word_i "ltd" ].

(** [univ|universit|college|academy|school|hospital|centre|center|
     institut|facult|dept|department], flags [re.I | re.X]. *)
Definition ACADEMIC_KEYWORDS : Re.pattern :=
  map Re.word_i
    [ "univ"; "universit"; "college"; "academy"; "school"; "hospital";
      "centre"; "center"; "institut"; "facult"; "dept"; "department" ]%string.

Definition email_local (c : char) : bool :=
  is_alpha c || is_digit c || one_of "._%+-" c.

Definition email_domain (c : char) : bool :=
  is_alpha c || is_digit c || one_of ".-" c.

(** [[A-Za-z0-9._%+-]+@[A-Za-z0-9.-]+\.[A-Za-z]{2,}] *)
Definition EMAIL_RE : Re.pattern :=
  [ [ Re.plus email_local;
      Re.once (Re.is_char (code "@"));
      Re.plus email_domain;
      Re.once (Re.is_char dot);
      Re.at_least 2 is_alpha ] ].

(* ------------------------------------------------------------------------- *)
(** ** Parsing helpers: classifier and e-mail                                  *)
(* ------------------------------------------------------------------------- *)

Definition is_match (m : option (nat * nat)) : bool :=
  match m with Some _ => true | None => false end.

(** True if affiliation looks like a company, false if academic. *)
Definition is_company_affil (affil : str) : bool :=
  let affil_lc := lower affil in
  is_match (Re.search COMPANY_KEYWORDS affil_lc)
  && negb (is_match (Re.search ACADEMIC_KEYWORDS affil_lc)).

(** Extract first email address from text, if any. *)
Definition first_email (text : str) : option str :=
  match Re.search EMAIL_RE text with
  | Some m => Some (Re.group0 text m)
  | None => None
  end.

(* ------------------------------------------------------------------------- *)
(** ** [textwrap.shorten] (Python standard library)                            *)
(* ------------------------------------------------------------------------- *)

(** The call site is [textwrap.shorten(title, width=200)]: a [TextWrapper]
    with [max_lines=1] and every other attribute at its default. *)
Module Textwrap.

Definition placeholder : str := txt " [...]".
Definition initial_indent : str := [].
Definition subsequent_indent : str := [].
Definition tabsize : nat := 8.
Definition max_lines : nat := 1.

Definition is_dash (c : char) : bool := char_eqb c (code "-").
Definition is_tab (c : char) : bool := (c =? 9)%N.

(** [_whitespace = '\t\n\x0b\x0c\r '] *)
Definition is_ws (c : char) : bool := in_range 9 13 c || (c =? 32)%N.

(** [\w]: alphanumeric or the underscore; [letter = [^\d\W]]: a word
    character that is no decimal digit; [word_punct]: a word character or
    one of [! & . , ?], the apostrophe and the double quote (code 34). *)
Definition is_word (c : char) : bool :=
  Unicode.isalnum c || char_eqb c (code "_").
Definition is_letter (c : char) : bool :=
  is_word c && negb (Unicode.isdecimal c).
Definition is_word_punct (c : char) : bool :=
  is_word c || one_of "!'&.,?" c || (c =? 34)%N.

(** [x.strip() == ''] *)
Definition blank (x : str) : bool := negb (truthy (strip x)).

(** [text.expandtabs(tabsize)], from column [col]. *)
Fixpoint expandtabs (col : nat) (s : str) : str :=
  match s with
  | [] => []
  | c :: s' =>
      if is_tab c then
        let incr := tabsize - (col mod tabsize) in
        repeat (code " ") incr ++ expandtabs (col + incr) s'
      else if ((c =? 10) || (c =? 13))%N then c :: expandtabs 0 s'
      else c :: expandtabs (S col) s'
  end.

(** [text.translate(unicode_whitespace_trans)] *)
Definition translate (s : str) : str :=
  map (fun c => if is_ws c then (code " ") else c) s.

Definition _munge_whitespace (text : str) : str :=
  translate (expandtabs 0 text).

(** *** [wordsep_re]

    The pattern has three alternatives, tried in this order at the
    current position: a run of whitespace; an em-dash [-{2,}] between a
    word-punctuation character and a word character; a word, extended
    lazily until it ends after a hyphen inside a hyphenated word, before
    whitespace or the end of the text, or before an em-dash.  [b] is the
    text before the current position, reversed (the look-behinds read
    it). *)
Fixpoint ws_run (s : str) : nat :=
  match s with
  | c :: s' => if is_ws c then S (ws_run s') else 0
  | [] => 0
  end.

Fixpoint dash_run (s : str) : nat :=
  match s with
  | c :: s' => if is_dash c then S (dash_run s') else 0
  | [] => 0
  end.

(** [-{2,}(?=\w)] at the start of [s]. *)
Definition emdash (s : str) : option nat :=
  let d := dash_run s in
  if (2 <=? d)
     && match nth_error s d with Some c => is_word c | None => false end
  then Some d else None.

(** [(?<=word_punct)] *)
Definition behind_word_punct (b : str) : bool :=
  match b with
  | p :: _ => is_word_punct p
  | [] => false
  end.

(** [(?<=letter{2}-) | (?<=letter-letter-)], the hyphen just consumed. *)
Definition behind_hyphen (b : str) : bool :=
  match b with
  | x :: y :: b' =>
      is_letter x
      && (is_letter y
          || (is_dash y
              && match b' with z :: _ => is_letter z | [] => false end))
  | _ => false
  end.

(** [(?= letter -? letter)] *)
Definition ahead_hyphen (s : str) : bool :=
  match s with
  | x :: y :: s' =>
      is_letter x
      && ((is_dash y
           && match s' with z :: _ => is_letter z | [] => false end)
          || is_letter y)
  | _ => false
  end.

Definition is_some {A : Type} (o : option A) : bool :=
  match o with Some _ => true | None => false end.

(** The lazy word [[^ws]+?(...)]: the number of further characters taken
    once at least one character of the word has been consumed. *)
Fixpoint word_end (b s : str) : nat :=
  match s with
  | [] => 0
  | c :: s' =>
      if is_dash c && behind_hyphen b && ahead_hyphen s' then 1
      else if is_ws c then 0
      else if behind_word_punct b && is_some (emdash s) then 0
      else S (word_end (c :: b) s')
  end.

(** Length of the match of [wordsep_re] at the start of [s]. *)
Definition chunk_len (b s : str) : nat :=
  match s with
  | [] => 0
  | c :: s' =>
      if is_ws c then ws_run s
      else match (if behind_word_punct b then emdash s else None) with
           | Some d => d
           | None => S (word_end (c :: b) s')
           end
  end.

(** [wordsep_re.split(text)]: the matches tile the text, so the pieces
    between two matches are empty and the captured groups are the
    chunks. *)
Fixpoint split_from (fuel : nat) (b s : str) : list str :=
  match fuel with
  | 0 => []
  | S fuel' =>
      match s with
      | [] => []
      | _ :: _ =>
          let n := chunk_len b s in
          firstn n s
            :: split_from fuel' (rev (firstn n s) ++ b) (skipn n s)
      end
  end.

(** [_split] with [break_on_hyphens]: [[c for c in chunks if c]]. *)
Definition _split (text : str) : list str :=
  filter truthy (split_from (length text) [] text).

Definition _split_chunks (text : str) : list str :=
  _split (_munge_whitespace text).

(** [chunk.rfind('-', 0, hi)], scanning from index [i]. *)
Fixpoint rfind_dash (s : str) (i hi : nat) (found : option nat)
    : option nat :=
  match s with
  | [] => found
  | c :: s' =>
      if i <? hi
      then rfind_dash s' (S i) hi (if is_dash c then Some i else found)
      else found
  end.

Definition sum_len (l : list str) : nat :=
  fold_right (fun x n => length x + n) 0 l.

(** [_handle_long_word] with [break_long_words] and [break_on_hyphens].
    The current line [cur_line] is kept reversed: its head is
    [cur_line[-1]]. *)
Definition _handle_long_word (chunks cur_line : list str)
    (cur_len width : nat) : list str * list str :=
  let space_left := if width <? 1 then 1 else width - cur_len in
  match chunks with
  | [] => (chunks, cur_line)
  | chunk :: rest =>
      let end_ :=
        if space_left <? length chunk then
          match rfind_dash chunk 0 space_left None with
          | Some hyphen =>
              if (0 <? hyphen)
                 && existsb (fun c => negb (is_dash c)) (firstn hyphen chunk)
              then hyphen + 1 else space_left
          | None => space_left
          end
        else space_left in
      (skipn end_ chunk :: rest, firstn end_ chunk :: cur_line)
  end.

(** The inner [while chunks:] loop that fills the current line. *)
Fixpoint fill_line (width : nat) (cur_line : list str) (cur_len : nat)
    (chunks : list str) : list str * nat * list str :=
  match chunks with
  | [] => (cur_line, cur_len, [])
  | chunk :: rest =>
      let l := length chunk in
      if cur_len + l <=? width
      then fill_line width (chunk :: cur_line) (cur_len + l) rest
      else (cur_line, cur_len, chunks)
  end.

(** The [while cur_line:] loop of the truncated last line; [None] is its
    [else] branch. *)
Fixpoint add_placeholder (width : nat) (cur_line : list str)
    (cur_len : nat) : option (list str) :=
  match cur_line with
  | [] => None
  | x :: cur_line' =>
      if negb (blank x) && (cur_len + length placeholder <=? width)
      then Some (placeholder :: cur_line)
      else add_placeholder width cur_line' (cur_len - length x)
  end.

Inductive flow : Type := Continue | Break.

Definition replace_last (lines : list str) (x : str) : list str :=
  removelast lines ++ [x].

(** [if chunks and len(chunks[-1]) > width]: the next chunk fits on no
    line; [_handle_long_word], then [cur_len = sum(map(len, cur_line))]. *)
Definition long_word_step (width : nat) (st : list str * nat * list str)
    : list str * nat * list str :=
  let '(cur_line, cur_len, chunks) := st in
  match chunks with
  | chunk :: _ =>
      if width <? length chunk then
        let '(chunks', cur_line') :=
          _handle_long_word chunks cur_line cur_len width in
        (cur_line', sum_len cur_line', chunks')
      else st
  | [] => st
  end.

(** If the last chunk on this line is all whitespace, drop it. *)
Definition drop_trailing_blank (cur_line : list str) (cur_len : nat)
    : list str * nat :=
  match cur_line with
  | x :: cur_line' =>
      if blank x then (cur_line', cur_len - length x)
      else (cur_line, cur_len)
  | [] => (cur_line, cur_len)
  end.

(** [if cur_line: ...]: the line is stored, or (last allowed line, text
    left over) truncated and marked with the placeholder. *)
Definition finish_line (self_width width : nat) (indent : str)
    (lines cur_line : list str) (cur_len : nat) (chunks : list str)
    : list str * list str * flow :=
  match cur_line with
  | [] => (lines, chunks, Continue)
  | _ :: _ =>
      if (length lines + 1 <? max_lines)
         || ((match chunks with
              | [] => true
              | [chunk] => blank chunk
              | _ => false
              end) && (cur_len <=? width))
      then (lines ++ [indent ++ concat (rev cur_line)], chunks, Continue)
      else
        match add_placeholder width cur_line cur_len with
        | Some cur_line' =>
            (lines ++ [indent ++ concat (rev cur_line')], chunks, Break)
        | None =>
            match lines with
            | _ :: _ =>
                let prev_line := rstrip (last lines []) in
                if length prev_line + length placeholder <=? self_width
                then (replace_last lines (prev_line ++ placeholder),
                      chunks, Break)
                else (lines ++ [indent ++ lstrip placeholder],
                      chunks, Break)
            | [] => (lines ++ [indent ++ lstrip placeholder], chunks, Break)
            end
        end
  end.

(** One iteration of the outer [while chunks:] loop ([chunks] is not
    empty). *)
Definition wrap_line (self_width : nat) (lines chunks : list str)
    : list str * list str * flow :=
  let indent :=
    if truthy lines then subsequent_indent else initial_indent in
  let width := self_width - length indent in
  let chunks :=
    match chunks with
    | chunk :: rest => if blank chunk && truthy lines then rest else chunks
    | [] => chunks
    end in
  let '(cur_line, cur_len, chunks) :=
    long_word_step width (fill_line width [] 0 chunks) in
  let '(cur_line, cur_len) := drop_trailing_blank cur_line cur_len in
  finish_line self_width width indent lines cur_line cur_len chunks.

Fixpoint wrap_loop (fuel self_width : nat) (lines chunks : list str)
    : list str :=
  match fuel with
  | 0 => lines
  | S fuel' =>
      match chunks with
      | [] => lines
      | _ :: _ =>
          match wrap_line self_width lines chunks with
          | (lines', _, Break) => lines'
          | (lines', chunks', Continue) =>
              wrap_loop fuel' self_width lines' chunks'
          end
      end
  end.

(** [_wrap_chunks].  The fuel bounds the iterations of the loop: every
    iteration that does not break takes a chunk, or a non-empty part of one,
    off [chunks]. *)
Definition _wrap_chunks (self_width : nat) (chunks : list str)
    : result (list str) :=
  if self_width <=? 0
  then Raise (ValueError "invalid width (must be > 0)")
  else if self_width <? length initial_indent + length (lstrip placeholder)
  then Raise (ValueError "placeholder too large for max width")
  else Ok (wrap_loop (S (sum_len chunks + length chunks))
                     self_width [] chunks).

Definition wrap (self_width : nat) (text : str) : result (list str) :=
  _wrap_chunks self_width (_split_chunks text).

Definition newline : str := [10%N].

Definition fill (self_width : nat) (text : str) : result str :=
  lines <- wrap self_width text ;;
  Ok (join newline lines).

(** [' '.join(text.strip().split())] *)
Definition collapse (text : str) : str :=
  join (txt " ") (split (strip text)).

Definition shorten (text : str) (width : nat) : result str :=
  fill width (collapse text).

End Textwrap.

(* ------------------------------------------------------------------------- *)
(** ** XML trees ([lxml.etree])                                                *)
(* ------------------------------------------------------------------------- *)

Module Etree.

#[local] Set Warnings "-register-all".

Inductive element : Type :=
| Element (tag : str) (text : option str) (children : list element).

Definition tag (e : element) : str :=
  match e with Element t _ _ => t end.
Definition text (e : element) : option str :=
  match e with Element _ x _ => x end.
Definition children (e : element) : list element :=
  match e with Element _ _ cs => cs end.

(** [e.iter()]: the element and its descendants, in document order. *)
Fixpoint iter (e : element) : list element :=
  match e with
  | Element _ _ cs => e :: flat_map iter cs
  end.

Definition descendants (e : element) : list element :=
  flat_map iter (children e).

Definition has_tag (name : string) (e : element) : bool :=
  str_eqb (tag e) (txt name).

(** [e.findall(".//name")] *)
Definition findall_desc (name : string) (e : element) : list element :=
  filter (has_tag name) (descendants e).

(** [e.findall("name")] *)
Definition findall_child (name : string) (e : element) : list element :=
  filter (has_tag name) (children e).

(** [e.find(".//name")] and [e.find("name")] *)
Definition find_desc (name : string) (e : element) : option element :=
  hd_error (findall_desc name e).
Definition find_child (name : string) (e : element) : option element :=
  hd_error (findall_child name e).

(** [e.find(".//a/b/c")] *)
Definition find_desc_path3 (a b c : string) (e : element)
    : option element :=
  hd_error
    (flat_map (findall_child c)
       (flat_map (findall_child b) (findall_desc a e))).

(** The text returned by [findtext] for the element found: [el.text or ''],
    and [None] when there is no such element. *)
Definition text_of (found : option element) : option str :=
  match found with
  | Some el => Some (or_else (text el) [])
  | None => None
  end.

(** [e.findtext(".//name")] and [e.findtext("name")] *)
Definition findtext_desc (name : string) (e : element) : option str :=
  text_of (find_desc name e).
Definition findtext_child (name : string) (e : element) : option str :=
  text_of (find_child name e).

End Etree.

Import Etree.

(* ------------------------------------------------------------------------- *)
(** ** [parse_articles]                                                        *)
(* ------------------------------------------------------------------------- *)

(** A row of the DataFrame; [PubmedID] is [None] when the record has no
    [PMID] element. *)
Record row : Type := Row {
  PubmedID : option str;
  Title : str;
  Publication_Date : str;
  Non_academic_Authors : str;
  Company_Affiliations : str;
  Corresponding_Author_Email : str
}.

Definition NA : str := txt "N/A".

(** Publication date (many variants in PubMed). *)
Definition publication_date (art : element) : str :=
  let pub_date := NA in
  let date_node := find_desc "ArticleDate" art in
  let date_node :=
    match date_node with
    | None => find_desc_path3 "Journal" "JournalIssue" "PubDate" art
    | Some _ => date_node
    end in
  match date_node with
  | Some node =>
      let y := or_else (findtext_child "Year" node) [] in
      let m := or_else (findtext_child "Month" node) [] in
      let d := or_else (findtext_child "Day" node) [] in
      or_else (Some (join (txt "-") (filter truthy [y; m; d]))) NA
  | None => pub_date
  end.

(** The local state of the author loop. *)
Record scan : Type := Scan {
  non_acad_authors : list str;
  company_affils : list str;
  corr_email : option str
}.

(** [name = f"{first} {last}".strip()] *)
Definition author_name (author : element) : str :=
  let last := or_else (findtext_child "LastName" author) [] in
  let first :=
    or_else (findtext_child "ForeName" author)
      (or_else (findtext_child "Initials" author) []) in
  strip (first ++ txt " " ++ last).

(** [affil = (affil_info.findtext("Affiliation") or "").strip()] *)
Definition affiliation_text (affil_info : element) : str :=
  strip (or_else (findtext_child "Affiliation" affil_info) []).

Section Parser.

(** The classifier called by the loop; [parse_articles] below passes
    [is_company_affil]. *)
Variable classify : str -> bool.

(** Body of [for affil_info in author.findall(".//AffiliationInfo")]. *)
Definition scan_affiliation (name : str) (st : scan) (affil_info : element)
    : scan :=
  let affil := affiliation_text affil_info in
  let corr :=
    if negb (truthy_opt (corr_email st)) then first_email affil
    else corr_email st in
  if truthy affil then
    if classify affil then
      Scan (non_acad_authors st ++ [name]) (company_affils st ++ [affil])
           corr
    else Scan (non_acad_authors st) (company_affils st) corr
  else Scan (non_acad_authors st) (company_affils st) corr.

(** Body of [for author in art.findall(".//Author")]. *)
Definition scan_author (st : scan) (author : element) : scan :=
  let name := author_name author in
  fold_left (scan_affiliation name) (findall_desc "AffiliationInfo" author)
    st.

Definition scan_authors (art : element) : scan :=
  fold_left scan_author (findall_desc "Author" art) (Scan [] [] None).

(** Body of [for art in root.findall(".//PubmedArticle")]: the rows after
    this record. *)
Definition parse_article (rows : list row) (art : element)
    : result (list row) :=
  let pmid := findtext_desc "PMID" art in
  let title := or_else (findtext_desc "ArticleTitle" art) NA in
  let pub_date := publication_date art in
  let st := scan_authors art in
  if truthy (non_acad_authors st) then
    short <- Textwrap.shorten title 200 ;;
    Ok (rows ++
        [ Row pmid short pub_date
            (join (txt "; ") (sorted (py_set (non_acad_authors st))))
            (join (txt "; ") (sorted (py_set (company_affils st))))
            (or_else (corr_email st) NA) ])
  else Ok rows.

Fixpoint for_each {A B : Type} (body : B -> A -> result B) (xs : list A)
    (acc : B) : result B :=
  match xs with
  | [] => Ok acc
  | x :: xs' => acc' <- body acc x ;; for_each body xs' acc'
  end.

(** [parse_articles] on the tree returned by [etree.fromstring]. *)
Definition parse_tree_with (root : element) : result (list row) :=
  for_each parse_article (findall_desc "PubmedArticle" root) [].

End Parser.

(** Parse an XML chunk (many articles) and return rows for DataFrame. *)
Definition parse_tree (root : element) : result (list row) :=
  parse_tree_with is_company_affil root.

(* ------------------------------------------------------------------------- *)
(** ** PubMed helpers and public API                                           *)
(* ------------------------------------------------------------------------- *)

(** [range(start, stop, step)] for a positive [step]. *)
Fixpoint range_from (fuel start stop step : nat) : list nat :=
  match fuel with
  | 0 => []
  | S fuel' =>
      if start <? stop
      then start :: range_from fuel' (start + step) stop step
      else []
  end.

Definition range (start stop step : nat) : list nat :=
  range_from stop start stop step.

(** [xs[start:stop]] *)
Definition slice {A : Type} (xs : list A) (start stop : nat) : list A :=
  firstn (stop - start) (skipn start xs).

Section Pipeline.

(** The remote service and the network. *)
Variable World : Type.

(** [requests.get(esearch.fcgi)], [raise_for_status()] and the decoding of
    [resp.json()["esearchresult"]["idlist"]]. *)
Variable esearch_request : str -> nat -> World -> World * result (list str).

(** [requests.get(efetch.fcgi)] with [id = ",".join(batch)], then
    [raise_for_status()] and [resp.text]. *)
Variable efetch_request : str -> World -> World * result str.

(** [etree.fromstring(xml_chunk.encode())] *)
Variable fromstring : str -> result element.

(** The state of a run: the world and the [id] parameters of the EFetch
    requests issued so far. *)
Record run : Type := Run {
  world : World;
  efetch_log : list str
}.

(** Return a list of PubMed IDs for the query (up to retmax). *)
Definition esearch (query : str) (retmax : nat) (st : run)
    : run * result (list str) :=
  let '(w, r) := esearch_request query retmax (world st) in
  (Run w (efetch_log st), r).

(** One step of the generator [efetch]: the request for the batch that
    starts at [start]. *)
Definition efetch_batch (pmids : list str) (start : nat) (st : run)
    : run * result str :=
  let batch := slice pmids start (start + BATCH_SIZE) in
  let ids := join (txt ",") batch in
  let '(w, r) := efetch_request ids (world st) in
  (Run w (efetch_log st ++ [ids]), r).

(** The batches of [efetch], one per element of
    [range(0, len(pmids), BATCH_SIZE)]. *)
Definition efetch_starts (pmids : list str) : list nat :=
  range 0 (length pmids) BATCH_SIZE.

(** [list(efetch(pmids))]: the generator run to its end, or to the first
    request that raises. *)
Fixpoint efetch_from (pmids : list str) (starts : list nat) (st : run)
    : run * result (list str) :=
  match starts with
  | [] => (st, Ok [])
  | start :: starts' =>
      match efetch_batch pmids start st with
      | (st1, Raise e) => (st1, Raise e)
      | (st1, Ok xml) =>
          match efetch_from pmids starts' st1 with
          | (st2, Raise e) => (st2, Raise e)
          | (st2, Ok xmls) => (st2, Ok (xml :: xmls))
          end
      end
  end.

Definition efetch (pmids : list str) (st : run) : run * result (list str) :=
  efetch_from pmids (efetch_starts pmids) st.

(** Parse an XML chunk (many articles) and return rows for DataFrame. *)
Definition parse_articles (xml_chunk : str) : result (list row) :=
  root <- fromstring xml_chunk ;;
  parse_tree root.

(** [for xml in efetch(pmids): rows.extend(parse_articles(xml))]: each
    batch is requested when the loop asks for it and parsed before the
    next request. *)
Fixpoint fetch_loop (pmids : list str) (starts : list nat)
    (rows : list row) (st : run) : run * result (list row) :=
  match starts with
  | [] => (st, Ok rows)
  | start :: starts' =>
      match efetch_batch pmids start st with
      | (st1, Raise e) => (st1, Raise e)
      | (st1, Ok xml) =>
          match parse_articles xml with
          | Raise e => (st1, Raise e)
          | Ok new_rows => fetch_loop pmids starts' (rows ++ new_rows) st1
          end
      end
  end.

(** Return DataFrame of papers that have at least one company author; the
    DataFrame is the list of its rows. *)
Definition fetch_papers (query : str) (retmax : nat) (st : run)
    : run * result (list row) :=
  match esearch query retmax st with
  | (st1, Raise e) => (st1, Raise e)
  | (st1, Ok pmids) => fetch_loop pmids (efetch_starts pmids) [] st1
  end.

End Pipeline.

Arguments Run {World} world efetch_log.
Arguments world {World} r.
Arguments efetch_log {World} r.

(* ------------------------------------------------------------------------- *)
(** ** Specification vocabulary                                                *)
(* ------------------------------------------------------------------------- *)

(** [infix k s]: the string [k] occurs in [s]. *)
Definition infix (k s : str) : Prop :=
  exists pre post, s = pre ++ k ++ post.

(** The words matched by a sequence of atoms: one block of characters of the
    class per atom, its length within the bounds of the repetition. *)
Inductive matches_alt : Re.alt -> str -> Prop :=
| matches_nil : matches_alt [] []
| matches_cons (x : Re.atom) (a : Re.alt) (w1 w2 : str) :
    Forall (fun c => Re.cls x c = true) w1 ->
    Re.rmin x <= length w1 ->
    (forall m, Re.rmax x = Some m -> length w1 <= m) ->
    matches_alt a w2 ->
    matches_alt (x :: a) (w1 ++ w2).

(** The words matched by a pattern, and the strings in which the pattern
    matches somewhere. *)
Definition matches (p : Re.pattern) (w : str) : Prop :=
  exists a, In a p /\ matches_alt a w.

Definition contains_match (p : Re.pattern) (s : str) : Prop :=
  exists w, matches p w /\ infix w s.

(** A match of the pattern starts at offset [i] of [s]. *)
Definition match_starts_at (p : Re.pattern) (s : str) (i : nat) : Prop :=
  exists w post, matches p w /\ skipn i s = w ++ post /\ i <= length s.

(** Occurrence of a keyword, as a test. *)
Fixpoint prefixb (k s : str) : bool :=
  match k, s with
  | [], _ => true
  | x :: k', y :: s' => char_eqb x y && prefixb k' s'
  | _ :: _, [] => false
  end.

Fixpoint infixb (k s : str) : bool :=
  prefixb k s || match s with [] => false | _ :: s' => infixb k s' end.

(** The company and the academic indicators: the keywords whose occurrence
    in the lower-cased affiliation makes the respective pattern match. *)
Definition company_indicators : list str :=
  map txt [ "pharm"; "biotech"; "inc"; "ltd"; "llc"; "gmbh"; "corp";
            "sa"; "s.a"; "plc"; "kk"; "k.k" ]%string.

Definition academic_indicators : list str :=
  map txt [ "univ"; "college"; "academy"; "school"; "hospital"; "centre";
            "center"; "institut"; "facult"; "dept"; "department" ]%string.

Definition has_indicator (indicators : list str) (affil : str) : Prop :=
  exists k, In k indicators /\ infix k (lower affil).

(** A text of ASCII characters, and one without capital letters. *)
Definition ascii_text (s : str) : Prop := forallb is_ascii s = true.

Definition lowered (s : str) : Prop :=
  Forall (fun c => is_ascii c = true /\ ascii_lower c = c) s.

(** The records of a batch, the authors of a record and the trimmed
    affiliation strings of an author, in document order. *)
Definition records (root : element) : list element :=
  findall_desc "PubmedArticle" root.

Definition authors (art : element) : list element :=
  findall_desc "Author" art.

Definition affiliations (author : element) : list str :=
  map affiliation_text (findall_desc "AffiliationInfo" author).

(** The (name, affiliation) pairs of a record, in the order of the scan. *)
Definition author_pairs (author : element) : list (str * str) :=
  map (fun affil => (author_name author, affil)) (affiliations author).

Definition scanned (art : element) : list (str * str) :=
  flat_map author_pairs (authors art).

(** The pairs whose affiliation is classified as a company. *)
Definition company_pairs (art : element) : list (str * str) :=
  filter (fun p => is_company_affil (snd p)) (scanned art).

(** At least one author of the record has an affiliation classified as a
    company. *)
Definition has_company_author (art : element) : bool :=
  existsb (fun author => existsb is_company_affil (affiliations author))
    (authors art).

(** The first e-mail address found in a list of texts. *)
Fixpoint first_found (texts : list str) : option str :=
  match texts with
  | [] => None
  | t :: texts' =>
      match first_email t with
      | Some e => Some e
      | None => first_found texts'
      end
  end.

(** The title as [textwrap.shorten] returns it. *)
Definition shortened (title : str) : str :=
  match Textwrap.shorten title 200 with
  | Ok short => short
  | Raise _ => []
  end.

Definition title_of (art : element) : str :=
  or_else (findtext_desc "ArticleTitle" art) NA.

(** The row of a record that has a company author. *)
Definition row_of (art : element) : row :=
  Row (findtext_desc "PMID" art)
      (shortened (title_of art))
      (publication_date art)
      (join (txt "; ") (sorted (py_set (map fst (company_pairs art)))))
      (join (txt "; ") (sorted (py_set (map snd (company_pairs art)))))
      (or_else (first_found (map snd (scanned art))) NA).

(** The author loop on one (name, affiliation) pair. *)
Definition scan_pair (classify : str -> bool) (st : scan) (p : str * str)
    : scan :=
  let '(name, affil) := p in
  let corr :=
    if negb (truthy_opt (corr_email st)) then first_email affil
    else corr_email st in
  if truthy affil then
    if classify affil then
      Scan (non_acad_authors st ++ [name]) (company_affils st ++ [affil]) corr
    else Scan (non_acad_authors st) (company_affils st) corr
  else Scan (non_acad_authors st) (company_affils st) corr.

(** The pairs that the loop keeps. *)
Definition kept (classify : str -> bool) (p : str * str) : bool :=
  truthy (snd p) && classify (snd p).

(** The e-mail kept by the loop is absent or non-empty. *)
Definition email_state (x : option str) : Prop :=
  truthy_opt x = false -> x = None.

(** The record contributes the row [r] to the output. *)
Definition emits (art : element) (r : row) : Prop :=
  parse_article is_company_affil [] art = Ok [r].

(** [e] is a match of the e-mail pattern in [text] that starts at the
    leftmost offset at which the pattern matches. *)
Definition leftmost_email (text e : str) : Prop :=
  exists i post,
    i <= length text /\ skipn i text = e ++ post /\ matches EMAIL_RE e /\
    forall i', i' < i -> ~ match_starts_at EMAIL_RE text i'.

(** The date node that the parser reads, and the text of one of its
    sub-fields ([""] when the sub-field is missing or empty). *)
Definition date_node (art : element) : option element :=
  match find_desc "ArticleDate" art with
  | Some node => Some node
  | None => find_desc_path3 "Journal" "JournalIssue" "PubDate" art
  end.

Definition date_field (name : string) (node : element) : str :=
  or_else (findtext_child name node) [].

Definition hyphen : str := txt "-".

(** The date string of the specification for the sub-fields it names:
    [YYYY-MM-DD], [YYYY-MM] or [YYYY], and the announced sentinel when no
    sub-field is present. *)
Definition announced_date (y m d s : str) : Prop :=
  (y <> [] /\ m <> [] /\ d <> [] /\ s = y ++ hyphen ++ m ++ hyphen ++ d)
  \/ (y <> [] /\ m <> [] /\ d = [] /\ s = y ++ hyphen ++ m)
  \/ (y <> [] /\ m = [] /\ d = [] /\ s = y)
  \/ (y = [] /\ m = [] /\ d = [] /\ s = txt "unknown").

(** Leaves and containers of sample records. *)
Definition leaf (name value : string) : element :=
  Element (txt name) (Some (txt value)) [].

Definition node (name : string) (children : list element) : element :=
  Element (txt name) None children.

Definition an_author (last fore affil : string) : element :=
  node "Author"
    [ leaf "LastName" last; leaf "ForeName" fore;
      node "AffiliationInfo" [ leaf "Affiliation" affil ] ].

(** [SAMPLE_XML] of [tests/test_parser.py], as the tree that lxml builds
    (the blank text between the tags is left out). *)
Definition SAMPLE_XML : element :=
  node "PubmedArticleSet"
    [ node "PubmedArticle"
        [ node "MedlineCitation" [ leaf "PMID" "123" ];
          node "Article"
            [ leaf "ArticleTitle" "Sample";
              node "ArticleDate"
                [ leaf "Year" "2024"; leaf "Month" "05"; leaf "Day" "01" ];
              node "AuthorList"
                [ an_author "Doe" "Jane" "Acme Biotech Inc., Boston" ] ] ] ].

(** A record with a company author whose [ArticleDate] has the given
    sub-fields, and whose journal issue is dated 2023-Jan-15. *)
Definition dated_record (article_date : list element) : element :=
  node "PubmedArticle"
    [ node "MedlineCitation" [ leaf "PMID" "7" ];
      node "Article"
        [ node "Journal"
            [ node "JournalIssue"
                [ node "PubDate"
                    [ leaf "Year" "2023"; leaf "Month" "Jan";
                      leaf "Day" "15" ] ] ];
          leaf "ArticleTitle" "Sample";
          node "ArticleDate" article_date;
          node "AuthorList"
            [ an_author "Doe" "Jane" "Acme Biotech Inc., Boston" ] ] ].

(** A record with the given authors. *)
Definition authored_record (author_list : list element) : element :=
  node "PubmedArticle"
    [ node "MedlineCitation" [ leaf "PMID" "7" ];
      node "Article"
        [ leaf "ArticleTitle" "Sample";
          node "AuthorList" author_list ] ].

(** A record with an academic author and a company author whose affiliation
    holds two e-mail addresses. *)
Definition record_with_email : element :=
  authored_record
    [ an_author "Roe" "Rick" "Example University";
      an_author "Doe" "Jane"
        "Acme Inc., Boston. jane.doe@acme.com; j@acme.org" ].

(** The strict order of strings. *)
Definition str_lt (a b : str) : Prop := str_ltb a b = true.

(** Two records that list the same authors and affiliations, with a
    repetition, in different orders. *)
Definition record_zeta_first : element :=
  authored_record
    [ an_author "Zeta" "Zoe" "Zeta Pharma Ltd";
      an_author "Doe" "Jane" "Acme Biotech Inc., Boston";
      an_author "Zeta" "Zoe" "Zeta Pharma Ltd" ].

Definition record_doe_first : element :=
  authored_record
    [ an_author "Doe" "Jane" "Acme Biotech Inc., Boston";
      an_author "Zeta" "Zoe" "Zeta Pharma Ltd";
      an_author "Zeta" "Zoe" "Zeta Pharma Ltd" ].

(** Shapes of strings: every character is a space or not blank; the first
    (the last) character is not blank; a word of [str.split()]. *)
Definition space : char := (code " ").

Definition clean (t : str) : Prop :=
  Forall (fun c => c = space \/ isspace c = false) t.

Definition starts_nonblank (t : str) : Prop :=
  exists c t', t = c :: t' /\ isspace c = false.

Definition ends_nonblank (t : str) : Prop :=
  exists t' c, t = t' ++ [c] /\ isspace c = false.

Definition is_word (w : str) : Prop :=
  w <> [] /\ Forall (fun c => isspace c = false) w.

(** [out] is the text [t] cut to the width [width] and marked: a part of
    the start of [t] followed by the placeholder [" [...]"], or the bare
    marker ["[...]"] when not even the first word fits. *)
Definition truncated (width : nat) (t out : str) : Prop :=
  length out <= width /\
  ((exists p post, t = p ++ post /\ out = p ++ Textwrap.placeholder)
   \/ out = txt "[...]").

(** A record with the given title and a company author. *)
Definition titled_record (title : string) : element :=
  node "PubmedArticle"
    [ node "MedlineCitation" [ leaf "PMID" "7" ];
      node "Article"
        [ leaf "ArticleTitle" title;
          node "AuthorList"
            [ an_author "Doe" "Jane" "Acme Biotech Inc., Boston" ] ] ].

(** [ceil(n / c)] *)
Definition ceil_div (n c : nat) : nat := (n + c - 1) / c.

(** The batches of identifiers that [efetch] asks for, in order. *)
Definition batches (pmids : list str) : list (list str) :=
  map (fun start => slice pmids start (start + BATCH_SIZE))
    (efetch_starts pmids).

(** The [id] parameter of the request for a batch. *)
Definition id_param (batch : list str) : str := join (txt ",") batch.

Section Failures.

Variable World : Type.
Variable esearch_request : str -> nat -> World -> World * result (list str).
Variable efetch_request : str -> World -> World * result str.
Variable fromstring : str -> result element.

(** A stage of the batch loop raises [e]: the request for a batch, or the
    parsing of a batch, all the stages before it having succeeded. *)
Inductive batch_raises (pmids : list str)
    : list nat -> run World -> exn -> Prop :=
| fetch_raises (start : nat) (starts : list nat) (st st1 : run World)
    (e : exn) :
    efetch_batch World efetch_request pmids start st = (st1, Raise e) ->
    batch_raises pmids (start :: starts) st e
| parse_raises (start : nat) (starts : list nat) (st st1 : run World)
    (xml : str) (e : exn) :
    efetch_batch World efetch_request pmids start st = (st1, Ok xml) ->
    parse_articles fromstring xml = Raise e ->
    batch_raises pmids (start :: starts) st e
| later_raises (start : nat) (starts : list nat) (st st1 : run World)
    (xml : str) (rows : list row) (e : exn) :
    efetch_batch World efetch_request pmids start st = (st1, Ok xml) ->
    parse_articles fromstring xml = Ok rows ->
    batch_raises pmids starts st1 e ->
    batch_raises pmids (start :: starts) st e.

(** A stage of the pipeline raises [e]: the search, or a stage of the batch
    loop after a successful search. *)
Inductive stage_raises (query : str) (retmax : nat) (st : run World)
    (e : exn) : Prop :=
| search_raises (st1 : run World) :
    esearch World esearch_request query retmax st = (st1, Raise e) ->
    stage_raises query retmax st e
| loop_raises (st1 : run World) (pmids : list str) :
    esearch World esearch_request query retmax st = (st1, Ok pmids) ->
    batch_raises pmids (efetch_starts pmids) st1 e ->
    stage_raises query retmax st e.

End Failures.

(** Sample transports over a world without state: a fetch endpoint that
    answers with the identifiers it was asked for, one that refuses every
    request, and a search endpoint that finds one record. *)
Definition echo_fetch (ids : str) (w : unit) : unit * result str :=
  (w, Ok ids).

Definition refusing_fetch (ids : str) (w : unit) : unit * result str :=
  (w, Raise (HTTPError 500)).

Definition one_hit_search (query : str) (retmax : nat) (w : unit)
    : unit * result (list str) :=
  (w, Ok [txt "123"]).

Definition sample_fromstring (xml : str) : result element :=
  Ok SAMPLE_XML.

(* ------------------------------------------------------------------------- *)
(** ** Output and command line ([save_or_print], [cli.main])                   *)
(* ------------------------------------------------------------------------- *)

(** What the program shows and writes.  A message is kept as the event that
    produces it, with the values that the message is formatted from. *)
Inductive event : Type :=
| QueryShown (query : str)
| ErrorShown (exc : exn)
| FileWritten (filename : str) (csv : str)
| SavedShown (rows : nat) (filename : str)
| NoMatchShown
| CsvPrinted (csv : str).

(** How a function of the program ends: it returns, it leaves through
    [sys.exit(code)], or an exception leaves it. *)
Inductive ending : Type :=
| Returned
| SystemExit (code : nat)
| Raised (e : exn).

Section Output.

(** The console and the file system.  [perform ev] is the outcome of the
    call that produces the event [ev]: [rich.print] of the message for
    [QueryShown] and [ErrorShown] (it raises when the message is not
    well-formed console markup, and the message holds the query, or the
    text of the exception, as given), [df.to_csv(filename, index=False)]
    for [FileWritten], [print] for the others.  Each of them may raise. *)
Variable perform : event -> result unit.

(** [df.to_csv(buf, index=False)] and [buf.getvalue()] on the six columns
    of the DataFrame. *)
Variable to_csv : list row -> str.

(** A sequence of calls, to the first one that raises: the events of the
    calls that returned, and how the sequence ends. *)
Fixpoint perform_all (evs : list event) : list event * ending :=
  match evs with
  | [] => ([], Returned)
  | ev :: evs' =>
      match perform ev with
      | Raise e => ([], Raised e)
      | Ok _ =>
          let '(done, how) := perform_all evs' in (ev :: done, how)
      end
  end.

(** Save DataFrame to CSV or print to console.  [if filename:] holds for a
    file name that is neither [None] nor empty; [df.empty] holds for a
    DataFrame without rows. *)
Definition save_or_print (df : list row) (filename : option str)
    : list event * ending :=
  match filename with
  | Some (c :: f) =>
      perform_all
        [ FileWritten (c :: f) (to_csv df);
          SavedShown (length df) (c :: f) ]
  | _ =>
      match df with
      | [] => perform_all [NoMatchShown]
      | _ :: _ => perform_all [CsvPrinted (to_csv df)]
      end
  end.

End Output.

Module Cli.

(** The namespace returned by [build_parser().parse_args(argv)]. *)
Record namespace : Type := Namespace {
  query : str;
  file : option str;
  debug : bool;
  limit : nat
}.

Section Main.

Variable World : Type.
Variable esearch_request : str -> nat -> World -> World * result (list str).
Variable efetch_request : str -> World -> World * result str.
Variable fromstring : str -> result element.
Variable perform : event -> result unit.
Variable to_csv : list row -> str.

(** Parse CLI args and run fetch, from the parsed arguments on.  The set-up
    of [logging] is left out, as the log messages are everywhere;
    [except Exception] catches every exception of [exn], and an exception
    raised in the handler leaves [main]. *)
Definition main (args : namespace) (st : run World)
    : run World * list event * ending :=
  match perform (QueryShown (query args)) with
  | Raise e => (st, [], Raised e)
  | Ok _ =>
      let shown := [QueryShown (query args)] in
      match fetch_papers World esearch_request efetch_request fromstring
              (query args) (limit args) st with
      | (st', Raise exc) =>
          match perform (ErrorShown exc) with
          | Raise e => (st', shown, Raised e)
          | Ok _ => (st', shown ++ [ErrorShown exc], SystemExit 1)
          end
      | (st', Ok df) =>
          let '(out, how) := save_or_print perform to_csv df (file args) in
          (st', shown ++ out, how)
      end
  end.

End Main.

End Cli.

(** A console and a file system on which every call succeeds, and a
    console that takes a query with an unmatched closing tag for
    ill-formed markup. *)
Definition obliging (ev : event) : result unit := Ok tt.

Definition strict_markup (ev : event) : result unit :=
  match ev with
  | QueryShown q =>
      if str_eqb q (txt "x[/y]")
      then Raise (MarkupError "closing tag '[/y]' doesn't match any open tag")
      else Ok tt
  | _ => Ok tt
  end.

(** A search endpoint that finds 201 records, and a parser that rejects
    every document. *)
Definition many_hit_search (query : str) (retmax : nat) (w : unit)
    : unit * result (list str) :=
  (w, Ok (repeat (txt "1") 201)).

Definition rejecting_fromstring (xml : str) : result element :=
  Raise (XMLSyntaxError "Document is empty").

(** Every call of the sequence returns. *)
Definition succeed (perform : event -> result unit) (evs : list event)
    : Prop :=
  Forall (fun ev => perform ev = Ok tt) evs.

(** What [save_or_print] is to write and show. *)
Definition intended (to_csv : list row -> str) (df : list row)
    (filename : option str) : list event :=
  if truthy_opt filename then
    [ FileWritten (or_else filename []) (to_csv df);
      SavedShown (length df) (or_else filename []) ]
  else if truthy df then [CsvPrinted (to_csv df)]
  else [NoMatchShown].

(** A file is written, a CSV text is printed. *)
Definition writes_file (events : list event) : Prop :=
  exists filename csv, In (FileWritten filename csv) events.

Definition prints_csv (events : list event) : Prop :=
  exists csv, In (CsvPrinted csv) events.

(** The characters of [str.isspace]. *)
Definition whitespace : list char :=
  [ 9; 10; 11; 12; 13; 28; 29; 30; 31; 32; 133; 160; 5760; 8192; 8193; 8194;
    8195; 8196; 8197; 8198; 8199; 8200; 8201; 8202; 8232; 8233; 8239; 8287;
    12288 ]%N.

Definition blanks (b : str) : Prop := Forall (fun c => isspace c = true) b.

(** A string without blanks at its ends. *)
Definition trimmed (s : str) : Prop :=
  s = [] \/ (starts_nonblank s /\ ends_nonblank s).

Definition at_sign : char := (code "@").

(** The shape of a match of [EMAIL_RE]: a local part, [@], a domain, a dot
    and at least two letters. *)
Definition email_shape (e : str) : Prop :=
  exists l d t,
    e = l ++ at_sign :: d ++ dot :: t /\
    l <> [] /\ Forall (fun c => email_local c = true) l /\
    d <> [] /\ Forall (fun c => email_domain c = true) d /\
    2 <= length t /\ Forall (fun c => is_alpha c = true) t.

(** A record with a company author and neither identifier nor title. *)
Definition bare_record : element :=
  node "PubmedArticle"
    [ node "Article"
        [ node "AuthorList"
            [ an_author "Doe" "Jane" "Acme Biotech Inc., Boston" ] ] ].

(* ------------------------------------------------------------------------- *)
(** * Properties                                                               *)
(* ------------------------------------------------------------------------- *)

(** ** Regular expressions: the matcher against the matched words *)

Lemma firstn_plus {A : Type} (j r : nat) (s : list A) :
  firstn (j + r) s = firstn j s ++ firstn r (skipn j s).
Proof.
  revert s; induction j as [|j IH]; intros s; simpl.
  - reflexivity.
  - destruct s as [|x s]; simpl.
    + now rewrite firstn_nil.
    + now rewrite IH.
Qed.

Lemma rep_sound (c : char -> bool) (lo : nat) (hi : option nat)
    (k : str -> option nat) :
  forall s n r,
    Re.rep c lo hi k n s = Some r ->
    exists j r',
      r = j + r' /\ j <= length s /\
      Forall (fun x => c x = true) (firstn j s) /\
      lo <= n + j /\
      (forall m, hi = Some m -> n <= m -> n + j <= m) /\
      k (skipn j s) = Some r'.
Proof.
  assert (Hstop : forall s n r,
             (if lo <=? n then k s else None) = Some r ->
             exists j r',
               r = j + r' /\ j <= length s /\
               Forall (fun x => c x = true) (firstn j s) /\
               lo <= n + j /\
               (forall m, hi = Some m -> n <= m -> n + j <= m) /\
               k (skipn j s) = Some r').
  { intros s n r H. destruct (lo <=? n) eqn:E; [|discriminate].
    apply Nat.leb_le in E. exists 0, r. simpl.
    repeat split; auto; try (intros; lia). }
  induction s as [|x s IH]; intros n r H.
  - apply Hstop. exact H.
  - simpl in H. destruct (c x && Re.below n hi) eqn:E.
    + destruct (Re.rep c lo hi k (S n) s) as [r1|] eqn:R.
      * injection H as <-. apply andb_prop in E as [Ec Eb].
        destruct (IH _ _ R) as (j & r' & -> & Hj & Hall & Hlo & Hhi & Hk).
        exists (S j), r'. simpl. repeat split; auto; try lia.
        intros m Hm Hn. subst hi. simpl in Eb. apply Nat.ltb_lt in Eb.
        specialize (Hhi m eq_refl). lia.
      * apply Hstop. exact H.
    + apply Hstop. exact H.
Qed.

Lemma rep_complete (c : char -> bool) (lo : nat) (hi : option nat)
    (k : str -> option nat) :
  forall w n t,
    Forall (fun x => c x = true) w ->
    lo <= n + length w ->
    (forall m, hi = Some m -> n + length w <= m) ->
    k t <> None ->
    Re.rep c lo hi k n (w ++ t) <> None.
Proof.
  induction w as [|x w IH]; intros n t Hall Hlo Hhi Hk.
  - simpl in *. replace (lo <=? n) with true
      by (symmetry; apply Nat.leb_le; lia).
    destruct t as [|y t]; simpl.
    + replace (lo <=? n) with true by (symmetry; apply Nat.leb_le; lia).
      exact Hk.
    + replace (lo <=? n) with true by (symmetry; apply Nat.leb_le; lia).
      destruct (c y && Re.below n hi); [|exact Hk].
      destruct (Re.rep c lo hi k (S n) t); [discriminate|exact Hk].
  - inversion Hall as [|? ? Hx Hw]; subst. simpl in *.
    assert (Hb : Re.below n hi = true).
    { destruct hi as [m|]; simpl; auto. apply Nat.ltb_lt.
      specialize (Hhi m eq_refl). lia. }
    rewrite Hx, Hb. simpl.
    assert (Hr : Re.rep c lo hi k (S n) (w ++ t) <> None).
    { apply IH; auto; try lia. intros m Hm. specialize (Hhi m Hm). lia. }
    destruct (Re.rep c lo hi k (S n) (w ++ t)); [discriminate|congruence].
Qed.

Lemma match_alt_sound :
  forall a s n,
    Re.match_alt a s = Some n ->
    n <= length s /\ matches_alt a (firstn n s).
Proof.
  induction a as [|x a IH]; intros s n H; simpl in H.
  - injection H as <-. split; [lia|]. simpl. constructor.
  - apply rep_sound in H
      as (j & r' & -> & Hj & Hall & Hlo & Hhi & Hk).
    apply IH in Hk as [Hr Hm]. rewrite length_skipn in Hr.
    split; [lia|]. rewrite firstn_plus.
    constructor; auto.
    + rewrite length_firstn. lia.
    + intros m Hm'. rewrite length_firstn. specialize (Hhi m Hm'). lia.
Qed.

Lemma match_alt_complete :
  forall a w t, matches_alt a w -> Re.match_alt a (w ++ t) <> None.
Proof.
  intros a w t H. revert t.
  induction H as [|x a w1 w2 Hall Hlo Hhi Hm IH]; intros t; simpl.
  - discriminate.
  - rewrite <- app_assoc. apply rep_complete; auto.
Qed.

Lemma match_here_sound :
  forall p s n,
    Re.match_here p s = Some n ->
    n <= length s /\ matches p (firstn n s).
Proof.
  induction p as [|a p IH]; intros s n H; simpl in H; [discriminate|].
  destruct (Re.match_alt a s) as [n'|] eqn:E.
  - injection H as <-. apply match_alt_sound in E as [Hn Hm].
    split; auto. exists a. split; [now left|exact Hm].
  - apply IH in H as [Hn (a' & Hin & Hm)].
    split; auto. exists a'. split; [now right|exact Hm].
Qed.

Lemma match_here_complete :
  forall p w t, matches p w -> Re.match_here p (w ++ t) <> None.
Proof.
  induction p as [|a p IH]; intros w t (a' & Hin & Hm); simpl.
  - destruct Hin.
  - destruct (Re.match_alt a (w ++ t)) eqn:E; [discriminate|].
    destruct Hin as [->|Hin].
    + exfalso. eapply match_alt_complete; eauto.
    + apply IH. exists a'. auto.
Qed.

(** [search] finds the leftmost offset at which the pattern matches. *)
Lemma search_some :
  forall p s i n,
    Re.search p s = Some (i, n) ->
    i + n <= length s /\
    matches p (Re.group0 s (i, n)) /\
    Re.match_here p (skipn i s) = Some n /\
    forall i', i' < i -> Re.match_here p (skipn i' s) = None.
Proof.
  intros p. induction s as [|x s IH]; intros i n H; simpl in H.
  - destruct (Re.match_here p []) as [n'|] eqn:E; [|discriminate].
    injection H as <- <-. apply match_here_sound in E as H'.
    destruct H' as [Hn Hm]. unfold Re.group0. simpl in *.
    repeat split; auto. intros i' Hi'. lia.
  - destruct (Re.match_here p (x :: s)) as [n'|] eqn:E.
    + injection H as <- <-. apply match_here_sound in E as H'.
      destruct H' as [Hn Hm]. unfold Re.group0. simpl in *.
      repeat split; auto. intros i' Hi'. lia.
    + destruct (Re.search p s) as [[i0 n0]|] eqn:R; [|discriminate].
      injection H as <- <-.
      destruct (IH _ _ eq_refl) as (Hlen & Hm & Hhere & Hleft).
      unfold Re.group0 in *. simpl in *. repeat split; auto; try lia.
      intros [|i'] Hi'; simpl; auto. apply Hleft. lia.
Qed.

Lemma search_none :
  forall p s,
    Re.search p s = None ->
    forall i, i <= length s -> Re.match_here p (skipn i s) = None.
Proof.
  intros p. induction s as [|x s IH]; intros H i Hi; simpl in H.
  - destruct (Re.match_here p []) eqn:E; [discriminate|].
    simpl in Hi. replace i with 0 by lia. exact E.
  - destruct (Re.match_here p (x :: s)) eqn:E; [discriminate|].
    destruct (Re.search p s) as [[i0 n0]|] eqn:R; [discriminate|].
    destruct i as [|i]; simpl; auto. apply IH; auto. simpl in Hi. lia.
Qed.

Lemma match_starts_at_here (p : Re.pattern) (s : str) (i : nat) :
  match_starts_at p s i <->
  i <= length s /\ Re.match_here p (skipn i s) <> None.
Proof.
  split.
  - intros (w & post & Hm & Hs & Hi). split; auto.
    rewrite Hs. now apply match_here_complete.
  - intros [Hi H]. destruct (Re.match_here p (skipn i s)) as [n|] eqn:E;
      [|congruence].
    apply match_here_sound in E as [Hn Hm].
    exists (firstn n (skipn i s)), (skipn n (skipn i s)).
    repeat split; auto. now rewrite firstn_skipn.
Qed.

Lemma contains_match_starts (p : Re.pattern) (s : str) :
  contains_match p s <-> exists i, match_starts_at p s i.
Proof.
  split.
  - intros (w & Hm & pre & post & ->). exists (length pre), w, post.
    repeat split; auto.
    + rewrite skipn_app, Nat.sub_diag, skipn_all. reflexivity.
    + rewrite length_app. lia.
  - intros (i & w & post & Hm & Hs & Hi). exists w. split; auto.
    exists (firstn i s), post. rewrite <- Hs. now rewrite firstn_skipn.
Qed.

(** [pattern.search(s)] is a match object exactly when the pattern matches
    somewhere in [s]. *)
Lemma search_is_match (p : Re.pattern) (s : str) :
  is_match (Re.search p s) = true <-> contains_match p s.
Proof.
  rewrite contains_match_starts. split.
  - destruct (Re.search p s) as [[i n]|] eqn:E; [|discriminate].
    intros _. apply search_some in E as (Hlen & _ & Hhere & _).
    exists i. apply match_starts_at_here. split; [lia|congruence].
  - intros (i & Hi). apply match_starts_at_here in Hi as [Hi Hh].
    destruct (Re.search p s) as [m|] eqn:E; [reflexivity|].
    exfalso. apply Hh. now apply search_none.
Qed.

(** ** Keyword occurrence *)

Lemma prefixb_spec (k s : str) :
  prefixb k s = true <-> exists post, s = k ++ post.
Proof.
  revert s. induction k as [|x k IH]; intros s; simpl.
  - split; eauto.
  - destruct s as [|y s].
    + split; [discriminate|]. intros (post & H). discriminate.
    + rewrite andb_true_iff, IH. unfold char_eqb. rewrite N.eqb_eq.
      split.
      * intros (-> & post & ->). eauto.
      * intros (post & H). injection H as -> ->. eauto.
Qed.

Lemma infixb_spec (k s : str) : infixb k s = true <-> infix k s.
Proof.
  induction s as [|y s IH]; simpl.
  - rewrite orb_false_r, prefixb_spec. split.
    + intros (post & H). exists [], post. exact H.
    + intros (pre & post & H). destruct pre; simpl in H.
      * eauto.
      * discriminate.
  - rewrite orb_true_iff, prefixb_spec, IH. split.
    + intros [(post & ->)|(pre & post & ->)].
      * exists [], post. reflexivity.
      * exists (y :: pre), post. reflexivity.
    + intros (pre & post & H). destruct pre as [|z pre]; simpl in H.
      * left. eauto.
      * right. injection H as -> ->. exists pre, post. reflexivity.
Qed.

Lemma infix_trans (a b c : str) : infix a b -> infix b c -> infix a c.
Proof.
  intros (p1 & q1 & ->) (p2 & q2 & ->).
  exists (p2 ++ p1), (q1 ++ q2). now rewrite <- !app_assoc.
Qed.

Lemma existsb_infixb (indicators : list str) (s : str) :
  existsb (fun k => infixb k s) indicators = true <->
  exists k, In k indicators /\ infix k s.
Proof.
  rewrite existsb_exists. split; intros (k & Hin & H); exists k;
    split; auto; now apply infixb_spec.
Qed.

(** ** Lower case *)

(** Case analysis on the comparisons of character codes. *)
Ltac char_cases :=
  unfold is_ascii, is_upper, is_lower, is_digit, is_alpha, in_range,
    char_eqb in *;
  repeat match goal with
    | |- context [(?a <=? ?b)%N] => destruct (N.leb_spec a b)
    | |- context [(?a <? ?b)%N] => destruct (N.ltb_spec a b)
    | |- context [(?a =? ?b)%N] => destruct (N.eqb_spec a b)
    | H : context [(?a <=? ?b)%N] |- _ => destruct (N.leb_spec a b)
    | H : context [(?a <? ?b)%N] |- _ => destruct (N.ltb_spec a b)
    | H : context [(?a =? ?b)%N] |- _ => destruct (N.eqb_spec a b)
    end;
  simpl in *; try discriminate; try lia; try congruence; auto.

(** The same by arithmetic, for the larger classes. *)
Ltac char_lia :=
  unfold isspace, is_ascii, is_alpha, is_upper, is_lower, is_digit,
    in_range, char_eqb in *;
  repeat progress
    (rewrite ?orb_false_r, ?orb_true_iff, ?orb_false_iff, ?andb_true_iff,
       ?andb_false_iff, ?N.leb_le, ?N.leb_gt, ?N.ltb_lt, ?N.ltb_ge,
       ?N.eqb_eq, ?N.eqb_neq in *);
  lia.

Lemma ascii_lower_idem (c : char) :
  ascii_lower (ascii_lower c) = ascii_lower c.
Proof. unfold ascii_lower. char_cases. Qed.

Lemma ascii_lower_ascii (c : char) :
  is_ascii (ascii_lower c) = is_ascii c.
Proof. unfold ascii_lower. char_cases. Qed.

Lemma lower_char_ascii (c : char) :
  is_ascii c = true -> lower_char c = ascii_lower c.
Proof. unfold lower_char. now intros ->. Qed.

Lemma ascii_text_cons (c : char) (s : str) :
  ascii_text (c :: s) <-> is_ascii c = true /\ ascii_text s.
Proof. unfold ascii_text. simpl. apply andb_true_iff. Qed.

Lemma ascii_text_app (s t : str) :
  ascii_text (s ++ t) <-> ascii_text s /\ ascii_text t.
Proof. unfold ascii_text. rewrite forallb_app. apply andb_true_iff. Qed.

(** On ASCII text [str.lower] maps the capital letters to small letters
    and does nothing else. *)
Lemma lower_from_ascii (s before : str) :
  ascii_text s -> lower_from before s = map ascii_lower s.
Proof.
  revert before. induction s as [|c s IH]; intros before H; simpl; auto.
  apply ascii_text_cons in H as [Hc Hs].
  rewrite (IH (c :: before) Hs). unfold lower_full.
  rewrite (lower_char_ascii c Hc).
  replace (c =? 931)%N with false by (symmetry; char_cases).
  replace (c =? 304)%N with false by (symmetry; char_cases).
  reflexivity.
Qed.

Lemma lower_ascii (s : str) : ascii_text s -> lower s = map ascii_lower s.
Proof. apply lower_from_ascii. Qed.

Lemma lowered_map (s : str) : ascii_text s -> lowered (map ascii_lower s).
Proof.
  induction s as [|c s IH]; intros H; simpl; [constructor|].
  apply ascii_text_cons in H as [Hc Hs]. constructor; [|now apply IH].
  now rewrite ascii_lower_ascii, ascii_lower_idem.
Qed.

Lemma lowered_lower (s : str) : ascii_text s -> lowered (lower s).
Proof. intros H. rewrite (lower_ascii s H). now apply lowered_map. Qed.

Lemma lowered_infix (w s : str) : infix w s -> lowered s -> lowered w.
Proof.
  intros (pre & post & ->) H. unfold lowered in *.
  apply Forall_app in H as [_ H]. now apply Forall_app in H as [H _].
Qed.

Lemma folds_to_outside (x c : char) :
  Re.folds_to x c = true -> is_ascii c = false.
Proof. unfold Re.folds_to, code. simpl. char_cases. Qed.

Lemma is_char_i_lowered (x c : char) :
  Re.is_char_i x c = true -> is_ascii c = true -> ascii_lower c = c ->
  c = ascii_lower x.
Proof.
  unfold Re.is_char_i. intros H Ha Hc.
  apply orb_true_iff in H as [H|H].
  - apply N.eqb_eq in H. congruence.
  - apply folds_to_outside in H. congruence.
Qed.

(** ** Inversion of the matched words, atom by atom *)

Lemma matches_nil_inv (w : str) : matches_alt [] w -> w = [].
Proof. intros H. now inversion H. Qed.

Lemma matches_cons_inv (x : Re.atom) (a : Re.alt) (w : str) :
  matches_alt (x :: a) w ->
  exists w1 w2,
    w = w1 ++ w2 /\
    Forall (fun c => Re.cls x c = true) w1 /\
    Re.rmin x <= length w1 /\
    (forall m, Re.rmax x = Some m -> length w1 <= m) /\
    matches_alt a w2.
Proof.
  intros H. inversion H; subst. eauto 10.
Qed.

Lemma matches_app_inv (a b : Re.alt) :
  forall w, matches_alt (a ++ b) w ->
  exists w1 w2, w = w1 ++ w2 /\ matches_alt a w1 /\ matches_alt b w2.
Proof.
  induction a as [|x a IH]; intros w H; simpl in H.
  - exists [], w. repeat split; auto. constructor.
  - inversion H as [|? ? w1 w2 Hall Hlo Hhi Hm]; subst.
    apply IH in Hm as (u1 & u2 & -> & Hu1 & Hu2).
    exists (w1 ++ u1), u2. rewrite app_assoc. repeat split; auto.
    now constructor.
Qed.

Lemma matches_once_inv (c : char -> bool) (a : Re.alt) (w : str) :
  matches_alt (Re.Atom c 1 (Some 1) :: a) w ->
  exists x w', w = x :: w' /\ c x = true /\ matches_alt a w'.
Proof.
  intros H. inversion H as [|? ? w1 w2 Hall Hlo Hhi Hm]; subst.
  simpl in *. specialize (Hhi 1 eq_refl).
  destruct w1 as [|x [|y w1]]; simpl in *; try lia.
  inversion Hall; subst. exists x, w2. auto.
Qed.

Lemma matches_opt_inv (c : char -> bool) (a : Re.alt) (w : str) :
  matches_alt (Re.Atom c 0 (Some 1) :: a) w ->
  matches_alt a w \/
  exists x w', w = x :: w' /\ c x = true /\ matches_alt a w'.
Proof.
  intros H. inversion H as [|? ? w1 w2 Hall Hlo Hhi Hm]; subst.
  simpl in *. specialize (Hhi 1 eq_refl).
  destruct w1 as [|x [|y w1]]; simpl in *; try lia.
  - now left.
  - right. inversion Hall; subst. exists x, w2. auto.
Qed.

Lemma matches_lit_inv (x : char) (a : Re.alt) (w : str) :
  matches_alt (Re.Atom (Re.is_char_i x) 1 (Some 1) :: a) w ->
  lowered w ->
  exists w', w = ascii_lower x :: w' /\ lowered w' /\ matches_alt a w'.
Proof.
  intros H Hl. apply matches_once_inv in H as (c & w' & -> & Hc & Hm).
  inversion Hl as [|? ? [Ha Hf] Hl']; subst. exists w'. repeat split; auto.
  f_equal. now apply is_char_i_lowered.
Qed.

Lemma matches_opt_lit_inv (x : char) (a : Re.alt) (w : str) :
  matches_alt (Re.Atom (Re.is_char_i x) 0 (Some 1) :: a) w ->
  lowered w ->
  matches_alt a w \/
  exists w', w = ascii_lower x :: w' /\ lowered w' /\ matches_alt a w'.
Proof.
  intros H Hl. apply matches_opt_inv in H as [H|(c & w' & -> & Hc & Hm)].
  - now left.
  - right. inversion Hl as [|? ? [Ha Hf] Hl']; subst. exists w'.
    repeat split; auto. f_equal. now apply is_char_i_lowered.
Qed.

(** A word matched at the start of itself is a matched word. *)
Lemma matches_by_run (p : Re.pattern) (w : str) :
  Re.match_here p w = Some (length w) -> matches p w.
Proof.
  intros H. apply match_here_sound in H as [_ H].
  now rewrite firstn_all in H.
Qed.

Ltac invert_literals :=
  repeat match goal with
    | H : matches_alt [] _ |- _ => apply matches_nil_inv in H; subst
    | H : matches_alt (Re.Atom (Re.is_char_i _) 1 (Some 1) :: _) ?w,
      L : lowered ?w |- _ =>
        let w' := fresh "w" in
        let L' := fresh "L" in
        apply matches_lit_inv in H as (w' & -> & L' & H);
        [clear L|exact L]
    | H : matches_alt (Re.Atom (Re.is_char_i _) 0 (Some 1) :: _) ?w,
      L : lowered ?w |- _ =>
        let w' := fresh "w" in
        let L' := fresh "L" in
        apply matches_opt_lit_inv in H as [H|(w' & -> & L' & H)];
        [|clear L|exact L]
    end.

(** ** The two keyword patterns *)

Lemma company_pattern_sound (w : str) :
  matches COMPANY_KEYWORDS w -> lowered w ->
  existsb (fun k => infixb k w) company_indicators = true.
Proof.
  intros (a & Hin & Hm) Hl.
  unfold COMPANY_KEYWORDS in Hin. simpl in Hin.
  repeat (destruct Hin as [<-|Hin]); try contradiction;
    cbv [Re.word_i Re.once Re.opt txt list_ascii_of_string map app] in Hm.
  12: {
    change (matches_alt
              ([ Re.Atom (Re.is_char_i (code "c")) 1 (Some 1);
                 Re.Atom (Re.is_char_i (code "o")) 1 (Some 1);
                 Re.Atom (Re.is_char_i dot) 0 (Some 1);
                 Re.Atom isspace 0 (Some 1) ] ++
               [ Re.Atom (Re.is_char_i (code "l")) 1 (Some 1);
                 Re.Atom (Re.is_char_i (code "t")) 1 (Some 1);
                 Re.Atom (Re.is_char_i (code "d")) 1 (Some 1) ]) w) in Hm.
    apply matches_app_inv in Hm as (w1 & w2 & -> & _ & Hm).
    assert (L : lowered w2) by (now apply Forall_app in Hl as [_ Hl]).
    invert_literals.
    apply existsb_infixb. exists (txt "ltd"). split.
    - unfold company_indicators. simpl. tauto.
    - exists w1, []. reflexivity. }
  all: invert_literals; reflexivity.
Qed.

Lemma company_pattern_complete (k : str) :
  In k company_indicators -> matches COMPANY_KEYWORDS k.
Proof.
  unfold company_indicators. simpl. intros H.
  repeat (destruct H as [<-|H]); try contradiction;
    apply matches_by_run; reflexivity.
Qed.

Lemma academic_pattern_sound (w : str) :
  matches ACADEMIC_KEYWORDS w -> lowered w ->
  existsb (fun k => infixb k w) academic_indicators = true.
Proof.
  intros (a & Hin & Hm) Hl.
  unfold ACADEMIC_KEYWORDS in Hin. simpl in Hin.
  repeat (destruct Hin as [<-|Hin]); try contradiction;
    cbv [Re.word_i Re.once Re.opt txt list_ascii_of_string map app] in Hm;
    invert_literals; reflexivity.
Qed.

Lemma academic_pattern_complete (k : str) :
  In k academic_indicators -> matches ACADEMIC_KEYWORDS k.
Proof.
  unfold academic_indicators. simpl. intros H.
  repeat (destruct H as [<-|H]); try contradiction;
    apply matches_by_run; reflexivity.
Qed.

(** An indicator in the lower-cased text is matched by the pattern. *)
Lemma indicator_company (affil : str) :
  has_indicator company_indicators affil ->
  contains_match COMPANY_KEYWORDS (lower affil).
Proof.
  intros (k & Hk & Hi). exists k. split; auto.
  now apply company_pattern_complete.
Qed.

Lemma indicator_academic (affil : str) :
  has_indicator academic_indicators affil ->
  contains_match ACADEMIC_KEYWORDS (lower affil).
Proof.
  intros (k & Hk & Hi). exists k. split; auto.
  now apply academic_pattern_complete.
Qed.

(** In ASCII text the patterns match the indicators only. *)
Lemma contains_company_iff (affil : str) :
  ascii_text affil ->
  contains_match COMPANY_KEYWORDS (lower affil) <->
  has_indicator company_indicators affil.
Proof.
  intros Ha. split; [|apply indicator_company].
  intros (w & Hm & Hi).
  assert (Hl : lowered w)
    by (eapply lowered_infix; eauto using lowered_lower).
  apply company_pattern_sound in Hm; auto.
  apply existsb_infixb in Hm as (k & Hk & Hkw).
  exists k. split; auto. eapply infix_trans; eauto.
Qed.

Lemma contains_academic_iff (affil : str) :
  ascii_text affil ->
  contains_match ACADEMIC_KEYWORDS (lower affil) <->
  has_indicator academic_indicators affil.
Proof.
  intros Ha. split; [|apply indicator_academic].
  intros (w & Hm & Hi).
  assert (Hl : lowered w)
    by (eapply lowered_infix; eauto using lowered_lower).
  apply academic_pattern_sound in Hm; auto.
  apply existsb_infixb in Hm as (k & Hk & Hkw).
  exists k. split; auto. eapply infix_trans; eauto.
Qed.

(** ** Case-insensitive patterns *)

(** Every class of the pattern is blind to the case of the ASCII
    letters. *)
Definition case_blind (p : Re.pattern) : Prop :=
  forall a x c, In a p -> In x a -> Re.cls x (ascii_lower c) = Re.cls x c.

Lemma matches_alt_lower (a : Re.alt) :
  (forall x c, In x a -> Re.cls x (ascii_lower c) = Re.cls x c) ->
  forall w, matches_alt a (map ascii_lower w) <-> matches_alt a w.
Proof.
  induction a as [|x a IH]; intros Hb w.
  - split; intros H; apply matches_nil_inv in H.
    + apply map_eq_nil in H. subst. constructor.
    + subst. constructor.
  - assert (Hb' : forall y c, In y a ->
                  Re.cls y (ascii_lower c) = Re.cls y c)
      by (intros; apply Hb; now right).
    split; intros H.
    + apply matches_cons_inv in H as (w1 & w2 & Heq & Hall & Hlo & Hhi & Hm).
      apply map_eq_app in Heq as (u1 & u2 & -> & <- & <-).
      constructor.
      * apply Forall_forall. intros c Hc.
        rewrite <- (Hb x c (or_introl eq_refl)).
        rewrite Forall_forall in Hall. apply Hall. now apply in_map.
      * now rewrite length_map in Hlo.
      * intros m Hm'. specialize (Hhi m Hm'). now rewrite length_map in Hhi.
      * now apply IH.
    + apply matches_cons_inv in H as (w1 & w2 & -> & Hall & Hlo & Hhi & Hm).
      rewrite map_app. constructor.
      * apply Forall_forall. intros c Hc.
        apply in_map_iff in Hc as (c0 & <- & Hc0).
        rewrite (Hb x c0 (or_introl eq_refl)).
        rewrite Forall_forall in Hall. now apply Hall.
      * now rewrite length_map.
      * intros m Hm'. rewrite length_map. now apply Hhi.
      * now apply IH.
Qed.

Lemma contains_match_lower (p : Re.pattern) (s : str) :
  case_blind p ->
  contains_match p (map ascii_lower s) <-> contains_match p s.
Proof.
  intros Hb. split.
  - intros (w & (a & Hin & Hm) & pre & post & Heq).
    apply map_eq_app in Heq as (u1 & u23 & -> & <- & Heq).
    apply map_eq_app in Heq as (u2 & u3 & -> & <- & <-).
    exists u2. split; [|exists u1, u3; reflexivity].
    exists a. split; auto.
    apply (matches_alt_lower a (fun x c Hx => Hb a x c Hin Hx) u2).
    exact Hm.
  - intros (w & (a & Hin & Hm) & pre & post & ->).
    exists (map ascii_lower w). split.
    + exists a. split; auto.
      now apply (matches_alt_lower a (fun x c Hx => Hb a x c Hin Hx) w).
    + exists (map ascii_lower pre), (map ascii_lower post).
      now rewrite !map_app.
Qed.

Lemma isspace_lower (c : char) : isspace (ascii_lower c) = isspace c.
Proof.
  unfold ascii_lower. destruct (is_upper c) eqn:E; auto.
  assert (H1 : isspace c = false) by char_lia.
  assert (H2 : isspace (c + 32) = false) by char_lia.
  congruence.
Qed.

Lemma folds_to_lower (x c : char) :
  Re.folds_to x (ascii_lower c) = Re.folds_to x c.
Proof.
  unfold ascii_lower. destruct (is_upper c) eqn:E; auto.
  unfold Re.folds_to. char_cases.
Qed.

Lemma is_char_i_lower (x c : char) :
  Re.is_char_i x (ascii_lower c) = Re.is_char_i x c.
Proof.
  unfold Re.is_char_i. now rewrite ascii_lower_idem, folds_to_lower.
Qed.

Lemma company_case_blind : case_blind COMPANY_KEYWORDS.
Proof.
  intros a x c Ha Hx. unfold COMPANY_KEYWORDS in Ha. simpl in Ha.
  repeat (destruct Ha as [<-|Ha]); try contradiction;
    simpl in Hx;
    repeat (destruct Hx as [<-|Hx]); try contradiction;
    simpl; auto using is_char_i_lower, isspace_lower.
Qed.

Lemma academic_case_blind : case_blind ACADEMIC_KEYWORDS.
Proof.
  intros a x c Ha Hx. unfold ACADEMIC_KEYWORDS in Ha. simpl in Ha.
  repeat (destruct Ha as [<-|Ha]); try contradiction;
    simpl in Hx;
    repeat (destruct Hx as [<-|Hx]); try contradiction;
    simpl; auto using is_char_i_lower.
Qed.

Lemma is_company_affil_lowered (affil : str) :
  is_company_affil affil = true <->
  contains_match COMPANY_KEYWORDS (lower affil) /\
  ~ contains_match ACADEMIC_KEYWORDS (lower affil).
Proof.
  unfold is_company_affil.
  rewrite andb_true_iff, negb_true_iff, <- not_true_iff_false.
  now rewrite !search_is_match.
Qed.

Lemma is_company_affil_true (affil : str) :
  ascii_text affil ->
  is_company_affil affil = true <->
  contains_match COMPANY_KEYWORDS affil /\
  ~ contains_match ACADEMIC_KEYWORDS affil.
Proof.
  intros Ha. rewrite is_company_affil_lowered, (lower_ascii affil Ha).
  rewrite (contains_match_lower _ _ company_case_blind).
  rewrite (contains_match_lower _ _ academic_case_blind).
  reflexivity.
Qed.

(** C1. [is_company_affil] answers [True] (company) exactly when the
    company pattern matches somewhere in the lower-cased affiliation and the
    academic pattern matches nowhere in it, whatever the characters of the
    affiliation.  In particular an affiliation that contains both a company
    indicator and an academic indicator is not a company (the academic
    indicator overrides), and an affiliation that contains a company
    indicator and nothing that the academic pattern matches is a company.
    An affiliation in ASCII is a company exactly when it contains, without
    regard to case, a company indicator and no academic indicator, which is
    also when the company pattern, and not the academic one, matches in the
    affiliation as given. *)
Theorem is_company_affil_exactly (affil : str) :
  (is_company_affil affil = true <->
     contains_match COMPANY_KEYWORDS (lower affil) /\
     ~ contains_match ACADEMIC_KEYWORDS (lower affil))
  /\ (has_indicator company_indicators affil /\
      has_indicator academic_indicators affil ->
      is_company_affil affil = false)
  /\ (has_indicator company_indicators affil /\
      ~ contains_match ACADEMIC_KEYWORDS (lower affil) ->
      is_company_affil affil = true)
  /\ (ascii_text affil ->
      (is_company_affil affil = true <->
         has_indicator company_indicators affil /\
         ~ has_indicator academic_indicators affil)
      /\ (is_company_affil affil = true <->
            contains_match COMPANY_KEYWORDS affil /\
            ~ contains_match ACADEMIC_KEYWORDS affil)).
Proof.
  split; [apply is_company_affil_lowered|]. split; [|split].
  - intros [_ Ha]. apply not_true_iff_false. intros H.
    apply is_company_affil_lowered in H as [_ H]. apply H.
    now apply indicator_academic.
  - intros [Hc Ha]. apply is_company_affil_lowered. split; auto.
    now apply indicator_company.
  - intros Ha. split; [|now apply is_company_affil_true].
    rewrite is_company_affil_lowered.
    now rewrite (contains_company_iff affil Ha),
      (contains_academic_iff affil Ha).
Qed.

Lemma is_company_affil_exactly_witness :
  ascii_text (txt "Acme Biotech Inc., Boston")
  /\ (is_company_affil (txt "Acme Biotech Inc., Boston") = true <->
      has_indicator company_indicators (txt "Acme Biotech Inc., Boston") /\
      ~ has_indicator academic_indicators (txt "Acme Biotech Inc., Boston"))
  /\ (is_company_affil (txt "Acme Biotech Inc., Boston") = true <->
      contains_match COMPANY_KEYWORDS (txt "Acme Biotech Inc., Boston") /\
      ~ contains_match ACADEMIC_KEYWORDS (txt "Acme Biotech Inc., Boston")).
Proof.
  split; [reflexivity|].
  destruct (is_company_affil_exactly (txt "Acme Biotech Inc., Boston"))
    as (_ & _ & _ & H).
  exact (H eq_refl).
Defined.

(** Outside ASCII the patterns match more than the indicators, as [re.I]
    takes the long s [U+017F] for an s: the text made of a long s and an a
    is a company, and a company name followed by the word school written
    with a long s is not, the academic pattern matching that word.  The
    dotted capital I [U+0130] is an i for [re.I], but its lower case is an
    i followed by a combining dot: written with it, the indicator inc is
    not found in the lower-cased text. *)
Example classification_outside_ascii :
  is_company_affil [383; 97]%N = true
  /\ is_company_affil (txt "Acme Inc " ++ [383%N] ++ txt "chool") = false
  /\ contains_match ACADEMIC_KEYWORDS
       (lower (txt "Acme Inc " ++ [383%N] ++ txt "chool"))
  /\ ~ has_indicator academic_indicators
         (txt "Acme Inc " ++ [383%N] ++ txt "chool")
  /\ is_company_affil (304%N :: txt "nc") = false
  /\ lower (304%N :: txt "nc") = [105; 775; 110; 99]%N
  /\ contains_match COMPANY_KEYWORDS (304%N :: txt "nc").
Proof.
  split; [reflexivity|]. split; [reflexivity|].
  split; [apply search_is_match; reflexivity|]. split.
  - intros H. apply existsb_infixb in H. discriminate.
  - split; [reflexivity|]. split; [reflexivity|].
    apply search_is_match. reflexivity.
Qed.

(** ** [first_email] *)

Lemma first_email_matches (text e : str) :
  first_email text = Some e -> matches EMAIL_RE e /\ infix e text.
Proof.
  unfold first_email. destruct (Re.search EMAIL_RE text) as [[i n]|] eqn:E;
    [|discriminate].
  intros H. injection H as <-.
  apply search_some in E as (Hlen & Hm & _ & _). split; auto.
  unfold Re.group0. simpl.
  exists (firstn i text), (skipn n (skipn i text)).
  now rewrite firstn_skipn, firstn_skipn.
Qed.

Lemma email_not_empty (e : str) : matches EMAIL_RE e -> truthy e = true.
Proof.
  intros (a & [<-|[]] & Hm).
  apply matches_cons_inv in Hm as (w1 & w2 & -> & _ & Hlo & _).
  simpl in Hlo. destruct w1; simpl in *; [lia|reflexivity].
Qed.

Lemma first_email_truthy (text : str) :
  truthy_opt (first_email text) = is_match (Re.search EMAIL_RE text).
Proof.
  destruct (first_email text) as [e|] eqn:E.
  - apply first_email_matches in E as H. destruct H as [Hm _].
    apply email_not_empty in Hm. simpl. rewrite Hm.
    unfold first_email in E. now destruct (Re.search EMAIL_RE text).
  - unfold first_email in E. now destruct (Re.search EMAIL_RE text).
Qed.

Lemma first_found_truthy (texts : list str) (e : str) :
  first_found texts = Some e -> truthy e = true.
Proof.
  induction texts as [|t texts IH]; simpl; [discriminate|].
  destruct (first_email t) as [e'|] eqn:E; auto.
  intros H. injection H as <-.
  apply first_email_matches in E as [Hm _]. now apply email_not_empty.
Qed.

(** ** The author loop *)

Lemma fold_left_flat_map {A B C : Type} (f : C -> B -> C) (g : A -> list B) :
  forall (l : list A) (c : C),
    fold_left f (flat_map g l) c = fold_left (fun c a => fold_left f (g a) c) l c.
Proof.
  induction l as [|a l IH]; intros c; simpl; auto.
  now rewrite fold_left_app, IH.
Qed.

Lemma scan_author_pairs (classify : str -> bool) (st : scan)
    (author : element) :
  scan_author classify st author
  = fold_left (scan_pair classify) (author_pairs author) st.
Proof.
  unfold scan_author, author_pairs, affiliations.
  generalize (findall_desc "AffiliationInfo" author).
  intros infos. revert st.
  induction infos as [|i infos IH]; intros st; simpl; auto.
Qed.

Lemma scan_authors_pairs (classify : str -> bool) (art : element) :
  scan_authors classify art
  = fold_left (scan_pair classify) (scanned art) (Scan [] [] None).
Proof.
  unfold scan_authors, scanned, authors. rewrite fold_left_flat_map.
  generalize (Scan [] [] None).
  induction (findall_desc "Author" art) as [|a l IH]; intros st; simpl; auto.
  now rewrite scan_author_pairs, IH.
Qed.

Lemma scan_pair_fields (classify : str -> bool) (st : scan)
    (p : str * str) :
  non_acad_authors (scan_pair classify st p)
    = non_acad_authors st ++ (if kept classify p then [fst p] else [])
  /\ company_affils (scan_pair classify st p)
    = company_affils st ++ (if kept classify p then [snd p] else [])
  /\ corr_email (scan_pair classify st p)
    = if truthy_opt (corr_email st) then corr_email st
      else first_email (snd p).
Proof.
  destruct p as [name affil]. unfold scan_pair, kept. simpl.
  destruct (truthy affil); simpl; [destruct (classify affil); simpl|];
    rewrite ?app_nil_r; repeat split;
    now destruct (truthy_opt (corr_email st)).
Qed.

Lemma first_email_state (text : str) : email_state (first_email text).
Proof.
  unfold email_state. destruct (first_email text) as [e|] eqn:E; auto.
  apply first_email_matches in E as [Hm _]. apply email_not_empty in Hm.
  simpl. congruence.
Qed.

Lemma scan_pairs_spec (classify : str -> bool) :
  forall (pairs : list (str * str)) (st : scan),
    email_state (corr_email st) ->
    non_acad_authors (fold_left (scan_pair classify) pairs st)
      = non_acad_authors st ++ map fst (filter (kept classify) pairs)
    /\ company_affils (fold_left (scan_pair classify) pairs st)
      = company_affils st ++ map snd (filter (kept classify) pairs)
    /\ corr_email (fold_left (scan_pair classify) pairs st)
      = if truthy_opt (corr_email st) then corr_email st
        else first_found (map snd pairs).
Proof.
  induction pairs as [|p pairs IH]; intros st Hst; cbn [fold_left].
  - cbn. rewrite !app_nil_r. repeat split.
    destruct (truthy_opt (corr_email st)) eqn:E; auto.
  - destruct (scan_pair_fields classify st p) as (F1 & F2 & F3).
    assert (Hst' : email_state (corr_email (scan_pair classify st p))).
    { rewrite F3. destruct (truthy_opt (corr_email st)); auto.
      apply first_email_state. }
    destruct (IH _ Hst') as (IH1 & IH2 & IH3).
    rewrite IH1, IH2, IH3, F1, F2, F3. cbn [filter map first_found].
    repeat split.
    + rewrite <- app_assoc. now destruct (kept classify p).
    + rewrite <- app_assoc. now destruct (kept classify p).
    + destruct (truthy_opt (corr_email st)) eqn:E.
      * now rewrite E.
      * destruct (first_email (snd p)) as [e|] eqn:Ee.
        -- generalize (first_email_state (snd p)). rewrite Ee.
           unfold email_state. destruct (truthy_opt (Some e)); auto.
           intros H. now specialize (H eq_refl).
        -- reflexivity.
Qed.

Lemma is_company_affil_empty : is_company_affil [] = false.
Proof. reflexivity. Qed.

Lemma kept_company (p : str * str) :
  kept is_company_affil p = is_company_affil (snd p).
Proof.
  unfold kept. destruct (snd p); simpl; auto.
Qed.

Lemma scan_authors_spec (art : element) :
  let st := scan_authors is_company_affil art in
  non_acad_authors st = map fst (company_pairs art)
  /\ company_affils st = map snd (company_pairs art)
  /\ corr_email st = first_found (map snd (scanned art)).
Proof.
  simpl. rewrite scan_authors_pairs.
  destruct (scan_pairs_spec is_company_affil (scanned art) (Scan [] [] None))
    as (H1 & H2 & H3); [intros _; reflexivity|].
  simpl in *. rewrite H1, H2, H3. unfold company_pairs.
  rewrite (filter_ext _ _ kept_company). auto.
Qed.

Lemma truthy_map {A B : Type} (f : A -> B) (l : list A) :
  truthy (map f l) = truthy l.
Proof. now destruct l. Qed.

Lemma truthy_filter {A : Type} (f : A -> bool) (l : list A) :
  truthy (filter f l) = existsb f l.
Proof.
  induction l as [|x l IH]; simpl; auto. now destruct (f x).
Qed.

Lemma existsb_flat_map {A B : Type} (f : B -> bool) (g : A -> list B)
    (l : list A) :
  existsb f (flat_map g l) = existsb (fun a => existsb f (g a)) l.
Proof.
  induction l as [|x l IH]; simpl; auto. now rewrite existsb_app, IH.
Qed.

Lemma existsb_map {A B : Type} (f : B -> bool) (g : A -> B) (l : list A) :
  existsb f (map g l) = existsb (fun a => f (g a)) l.
Proof.
  induction l as [|x l IH]; simpl; auto. now rewrite IH.
Qed.

Lemma qualifies_iff (art : element) :
  truthy (non_acad_authors (scan_authors is_company_affil art))
  = has_company_author art.
Proof.
  destruct (scan_authors_spec art) as (H & _). rewrite H.
  rewrite truthy_map. unfold company_pairs. rewrite truthy_filter.
  unfold scanned. rewrite existsb_flat_map. unfold has_company_author.
  induction (authors art) as [|author l IH]; simpl; auto.
  rewrite IH. unfold author_pairs. now rewrite existsb_map.
Qed.

(** ** [textwrap.shorten] returns *)

Lemma shorten_returns (title : str) :
  Textwrap.shorten title 200 = Ok (shortened title).
Proof.
  unfold shortened.
  unfold Textwrap.shorten, Textwrap.fill, Textwrap.wrap,
    Textwrap._wrap_chunks.
  change (200 <=? 0) with false.
  change (200 <? length Textwrap.initial_indent
                 + length (lstrip Textwrap.placeholder)) with false.
  cbv iota. unfold bind. reflexivity.
Qed.

(** ** The record loop *)

Lemma parse_article_spec (rows : list row) (art : element) :
  parse_article is_company_affil rows art
  = Ok (rows ++ if has_company_author art then [row_of art] else []).
Proof.
  unfold parse_article. rewrite qualifies_iff.
  destruct (has_company_author art).
  - fold (title_of art). rewrite shorten_returns. unfold bind.
    destruct (scan_authors_spec art) as (H1 & H2 & H3).
    rewrite H1, H2, H3. reflexivity.
  - now rewrite app_nil_r.
Qed.

Lemma parse_tree_rows (root : element) :
  parse_tree root = Ok (map row_of (filter has_company_author (records root))).
Proof.
  unfold parse_tree, parse_tree_with. fold (records root).
  change (map row_of (filter has_company_author (records root)))
    with ([] ++ map row_of (filter has_company_author (records root))).
  generalize (@nil row) as rows. generalize (records root) as arts.
  induction arts as [|art arts IH]; intros rows; simpl.
  - now rewrite app_nil_r.
  - rewrite parse_article_spec. unfold bind. rewrite IH.
    destruct (has_company_author art); simpl.
    + now rewrite <- app_assoc.
    + now rewrite app_nil_r.
Qed.

Lemma has_company_author_iff (art : element) :
  has_company_author art = true <->
  exists author affil,
    In author (authors art) /\ In affil (affiliations author) /\
    is_company_affil affil = true.
Proof.
  unfold has_company_author. rewrite existsb_exists. split.
  - intros (author & Hin & H). apply existsb_exists in H as (affil & Ha & Hc).
    eauto.
  - intros (author & affil & Hin & Ha & Hc). exists author. split; auto.
    apply existsb_exists. eauto.
Qed.

(** C2. For every well-formed batch, [parse_articles] returns one row per
    record that has at least one author with an affiliation classified as a
    company, in document order, and nothing for the other records: a record
    yields a row if and only if it has such an author. *)
Theorem parse_articles_row_iff (root : element) :
  parse_tree root
    = Ok (flat_map
            (fun art => if has_company_author art then [row_of art] else [])
            (records root))
  /\ (forall (fromstring : str -> result element) (xml_chunk : str),
        fromstring xml_chunk = Ok root ->
        parse_articles fromstring xml_chunk = parse_tree root)
  /\ (forall art rows,
        parse_article is_company_affil rows art
        = Ok (rows ++ if has_company_author art then [row_of art] else []))
  /\ (forall art,
        has_company_author art = true <->
        exists author affil,
          In author (authors art) /\ In affil (affiliations author) /\
          is_company_affil affil = true).
Proof.
  split; [|split; [|split]].
  - rewrite parse_tree_rows. f_equal.
    induction (records root) as [|art arts IH]; simpl; auto.
    destruct (has_company_author art); simpl; now rewrite IH.
  - intros fromstring xml_chunk H. unfold parse_articles. now rewrite H.
  - intros art rows. apply parse_article_spec.
  - intros art. apply has_company_author_iff.
Qed.

(** ** Emitted rows *)

Lemma emits_iff (art : element) (r : row) :
  emits art r <-> has_company_author art = true /\ r = row_of art.
Proof.
  unfold emits. rewrite parse_article_spec. simpl.
  destruct (has_company_author art); split.
  - intros H. injection H as <-. auto.
  - intros [_ ->]. reflexivity.
  - discriminate.
  - intros [H _]. discriminate.
Qed.

(** [test_company_author_detected] *)
Example test_company_author_detected :
  exists r,
    parse_tree SAMPLE_XML = Ok [r] /\
    Non_academic_Authors r = txt "Jane Doe" /\
    Company_Affiliations r = txt "Acme Biotech Inc., Boston" /\
    Publication_Date r = txt "2024-05-01" /\
    Title r = txt "Sample" /\
    PubmedID r = Some (txt "123") /\
    Corresponding_Author_Email r = txt "N/A".
Proof. eexists. repeat split. Qed.

(** ** Publication date *)

Lemma publication_date_node (art : element) :
  publication_date art
  = match date_node art with
    | Some n =>
        or_else
          (Some (join hyphen
                   (filter truthy
                      [ date_field "Year" n; date_field "Month" n;
                        date_field "Day" n ])))
          NA
    | None => NA
    end.
Proof.
  unfold publication_date, date_node.
  destruct (find_desc "ArticleDate" art); reflexivity.
Qed.

Lemma or_else_some (s d : str) : s <> [] -> or_else (Some s) d = s.
Proof. destruct s; [congruence|reflexivity]. Qed.

Lemma publication_date_cases (art : element) :
  publication_date art
  = match date_node art with
    | None => NA
    | Some n =>
        let y := date_field "Year" n in
        let m := date_field "Month" n in
        let d := date_field "Day" n in
        match y, m, d with
        | _ :: _, _ :: _, _ :: _ => y ++ hyphen ++ m ++ hyphen ++ d
        | _ :: _, _ :: _, [] => y ++ hyphen ++ m
        | _ :: _, [], [] => y
        | [], [], [] => NA
        | _ :: _, [], _ :: _ => y ++ hyphen ++ d
        | [], _ :: _, _ :: _ => m ++ hyphen ++ d
        | [], _ :: _, [] => m
        | [], [], _ :: _ => d
        end
    end.
Proof.
  rewrite publication_date_node. destruct (date_node art) as [n|]; auto.
  cbv zeta.
  destruct (date_field "Year" n) as [|y0 y], (date_field "Month" n) as [|m0 m],
    (date_field "Day" n) as [|d0 d]; reflexivity.
Qed.

(** C3 (as amended). The date is read from the article-level date node, and
    from the journal-issue date node when the record has no article-level
    node.  The emitted "Publication Date" joins with hyphens the texts of
    the Year, Month and Day sub-fields that are present and not empty, in
    this order: [YYYY-MM-DD], [YYYY-MM] or [YYYY] when the year, or the year
    and the following sub-fields, are present, and the remaining sub-fields
    alone when the year (or the month) is missing.  It is the sentinel
    ["N/A"] when none is present and when the record has no date node. *)
Theorem publication_date_format (art : element) (r : row) :
  emits art r ->
  date_node art
    = match find_desc "ArticleDate" art with
      | Some n => Some n
      | None => find_desc_path3 "Journal" "JournalIssue" "PubDate" art
      end
  /\ Publication_Date r
     = match date_node art with
       | None => NA
       | Some n =>
           let y := date_field "Year" n in
           let m := date_field "Month" n in
           let d := date_field "Day" n in
           match y, m, d with
           | _ :: _, _ :: _, _ :: _ => y ++ hyphen ++ m ++ hyphen ++ d
           | _ :: _, _ :: _, [] => y ++ hyphen ++ m
           | _ :: _, [], [] => y
           | [], [], [] => NA
           | _ :: _, [], _ :: _ => y ++ hyphen ++ d
           | [], _ :: _, _ :: _ => m ++ hyphen ++ d
           | [], _ :: _, [] => m
           | [], [], _ :: _ => d
           end
       end.
Proof.
  intros H. apply emits_iff in H as [_ ->]. split; [reflexivity|].
  simpl. apply publication_date_cases.
Qed.

Lemma publication_date_format_witness :
  exists r,
    emits (dated_record [leaf "Year" "2024"; leaf "Month" "05"]) r /\
    Publication_Date r = txt "2024-05".
Proof.
  eexists. split; [reflexivity|].
  exact (proj2 (publication_date_format
                  (dated_record [leaf "Year" "2024"; leaf "Month" "05"])
                  _ eq_refl)).
Defined.

(** C3, as stated, fails on two records with a company author: one whose
    article-level date node has no sub-field (the emitted date is ["N/A"],
    not ["unknown"]), and one whose date node has a month and no year (the
    emitted date is the month alone). *)
Lemma publication_date_not_as_announced :
  (exists r,
     emits (dated_record []) r /\
     Publication_Date r = txt "N/A" /\
     ~ announced_date [] [] [] (Publication_Date r))
  /\ (exists r,
        emits (dated_record [leaf "Month" "05"]) r /\
        Publication_Date r = txt "05" /\
        ~ announced_date [] (txt "05") [] (Publication_Date r)).
Proof.
  split; eexists; (split; [reflexivity|]); (split; [reflexivity|]);
    intros [H|[H|[H|H]]]; destruct H as (Hy & Hm & Hd & Hs);
    try (now apply Hy); try (now apply Hm); discriminate.
Qed.

(** C9. When the record has an article-level date node without any of the
    Year, Month and Day sub-fields, the parser does not look at the
    journal-issue date: the emitted "Publication Date" is the missing-date
    sentinel, whatever the journal issue says. *)
Theorem article_date_without_fields (art : element) (r : row)
    (n : element) :
  emits art r ->
  find_desc "ArticleDate" art = Some n ->
  find_child "Year" n = None ->
  find_child "Month" n = None ->
  find_child "Day" n = None ->
  Publication_Date r = NA.
Proof.
  intros H Hn Hy Hm Hd. apply emits_iff in H as [_ ->]. simpl.
  unfold publication_date. rewrite Hn.
  unfold findtext_child. rewrite Hy, Hm, Hd. reflexivity.
Qed.

Lemma article_date_without_fields_witness :
  exists r,
    emits (dated_record []) r /\
    find_desc_path3 "Journal" "JournalIssue" "PubDate" (dated_record [])
      = Some (node "PubDate"
                [ leaf "Year" "2023"; leaf "Month" "Jan"; leaf "Day" "15" ]) /\
    Publication_Date r = txt "N/A".
Proof.
  eexists. split; [reflexivity|]. split; [reflexivity|].
  exact (article_date_without_fields (dated_record []) _ (node "ArticleDate" [])
           eq_refl eq_refl eq_refl eq_refl eq_refl).
Defined.

(** ** Corresponding author e-mail *)

Lemma first_email_none (text : str) :
  first_email text = None <-> ~ contains_match EMAIL_RE text.
Proof.
  rewrite <- search_is_match. unfold first_email.
  destruct (Re.search EMAIL_RE text); simpl; split; try discriminate; auto.
  intros H. now contradiction H.
Qed.

Lemma first_email_leftmost (text e : str) :
  first_email text = Some e -> leftmost_email text e.
Proof.
  unfold first_email.
  destruct (Re.search EMAIL_RE text) as [[i n]|] eqn:E; [|discriminate].
  intros H. injection H as <-.
  apply search_some in E as (Hlen & Hm & Hhere & Hleft).
  unfold Re.group0 in *. simpl in *.
  exists i, (skipn n (skipn i text)). repeat split.
  - lia.
  - now rewrite firstn_skipn.
  - exact Hm.
  - intros i' Hi' H. apply match_starts_at_here in H as [_ H].
    apply H. now apply Hleft.
Qed.

Lemma first_found_skip (pre texts : list str) :
  (forall t, In t pre -> first_email t = None) ->
  first_found (pre ++ texts) = first_found texts.
Proof.
  induction pre as [|t pre IH]; intros H; simpl; auto.
  rewrite (H t (or_introl eq_refl)). apply IH. intros; apply H. now right.
Qed.

Lemma first_found_none (texts : list str) :
  (forall t, In t texts -> first_email t = None) ->
  first_found texts = None.
Proof.
  intros H. rewrite <- (app_nil_r texts). now rewrite first_found_skip.
Qed.

(** C7 (as amended). The emitted "Corresponding Author Email" is found by
    scanning the trimmed affiliation strings of the record, author by
    author and affiliation by affiliation in listed order: it is the
    leftmost match of the e-mail pattern in the first affiliation string in
    which the pattern matches (later affiliations do not change it), and it
    is the sentinel ["N/A"] when the pattern matches in none of them. *)
Theorem corresponding_email_first (art : element) (r : row) :
  emits art r ->
  (forall pre t post,
     map snd (scanned art) = pre ++ t :: post ->
     (forall t', In t' pre -> ~ contains_match EMAIL_RE t') ->
     contains_match EMAIL_RE t ->
     first_email t = Some (Corresponding_Author_Email r) /\
     leftmost_email t (Corresponding_Author_Email r))
  /\ ((forall t, In t (map snd (scanned art)) -> ~ contains_match EMAIL_RE t) ->
      Corresponding_Author_Email r = NA).
Proof.
  intros H. apply emits_iff in H as [_ ->]. simpl. split.
  - intros pre t post Heq Hpre Ht. rewrite Heq.
    rewrite first_found_skip
      by (intros t' Ht'; apply first_email_none; auto).
    simpl. destruct (first_email t) as [e|] eqn:E.
    + assert (He : truthy e = true).
      { apply first_email_matches in E as [Hm _].
        now apply email_not_empty. }
      assert (Hor : or_else (Some e) NA = e) by (now destruct e).
      rewrite Hor. split; auto. now apply first_email_leftmost.
    + apply first_email_none in E. contradiction.
  - intros Hnone. rewrite first_found_none; auto.
    intros t Ht. apply first_email_none. auto.
Qed.

Lemma corresponding_email_first_witness :
  exists r,
    emits record_with_email r /\
    Corresponding_Author_Email r = txt "jane.doe@acme.com".
Proof.
  eexists. split; [reflexivity|].
  pose proof (proj1 (corresponding_email_first record_with_email _ eq_refl)
                [txt "Example University"]
                (txt "Acme Inc., Boston. jane.doe@acme.com; j@acme.org")
                [] eq_refl) as H.
  assert (Hpre : forall t', In t' [txt "Example University"] ->
                            ~ contains_match EMAIL_RE t').
  { intros t' [<-|[]]. apply first_email_none. reflexivity. }
  assert (Ht : contains_match EMAIL_RE
                 (txt "Acme Inc., Boston. jane.doe@acme.com; j@acme.org")).
  { apply search_is_match. reflexivity. }
  destruct (H Hpre Ht) as [H' _].
  apply (f_equal (fun o => or_else o [])) in H'. symmetry. exact H'.
Defined.

(** C7, as stated, fails on a record whose affiliation holds no e-mail
    address: the emitted field is ["N/A"], not ["unknown"]. *)
Lemma corresponding_email_not_unknown :
  exists r,
    emits (dated_record []) r /\
    (forall t, In t (map snd (scanned (dated_record []))) ->
               ~ contains_match EMAIL_RE t) /\
    Corresponding_Author_Email r = txt "N/A" /\
    Corresponding_Author_Email r <> txt "unknown".
Proof.
  eexists. split; [reflexivity|]. split; [|split; [reflexivity|discriminate]].
  intros t [<-|[]]. apply first_email_none. reflexivity.
Qed.

(** ** Sorted sets of strings *)

Lemma str_lt_irrefl (a : str) : str_ltb a a = false.
Proof.
  induction a as [|x a IH]; simpl; auto. now rewrite N.ltb_irrefl.
Qed.

Lemma str_lt_trans (a b c : str) : str_lt a b -> str_lt b c -> str_lt a c.
Proof.
  unfold str_lt. revert b c.
  induction a as [|x a IH]; intros [|y b] [|z c]; simpl; auto;
    try discriminate.
  destruct (x <? y)%N eqn:Exy.
  - intros _. apply N.ltb_lt in Exy.
    destruct (y <? z)%N eqn:Eyz.
    + apply N.ltb_lt in Eyz. intros _.
      replace (x <? z)%N with true
        by (symmetry; apply N.ltb_lt; lia). reflexivity.
    + destruct (z <? y)%N eqn:Ezy; [discriminate|].
      apply N.ltb_ge in Eyz, Ezy. intros _.
      replace (x <? z)%N with true
        by (symmetry; apply N.ltb_lt; lia). reflexivity.
  - destruct (y <? x)%N eqn:Eyx; [discriminate|].
    apply N.ltb_ge in Exy, Eyx. assert (Hxy : x = y) by lia.
    rewrite Hxy. intros Hab.
    destruct (y <? z)%N; auto.
    destruct (z <? y)%N; [discriminate|]. now apply IH.
Qed.

Lemma str_lt_total (a b : str) :
  str_ltb a b = false -> str_ltb b a = false -> a = b.
Proof.
  revert b. induction a as [|x a IH]; intros [|y b]; simpl; auto;
    try discriminate.
  destruct (x <? y)%N eqn:Exy; [discriminate|].
  destruct (y <? x)%N eqn:Eyx; [discriminate|].
  apply N.ltb_ge in Exy, Eyx. intros Hab Hba.
  f_equal; [lia|now apply IH].
Qed.

Lemma insert_sorted_in (x y : str) (l : list str) :
  In y (insert_sorted x l) <-> y = x \/ In y l.
Proof.
  induction l as [|z l IH]; simpl.
  - intuition.
  - destruct (str_leb x z); simpl; rewrite ?IH; intuition.
Qed.

Lemma sorted_in (x : str) (l : list str) : In x (sorted l) <-> In x l.
Proof.
  induction l as [|y l IH]; simpl; [tauto|].
  rewrite insert_sorted_in, IH. intuition.
Qed.

Lemma insert_sorted_strict (x : str) (l : list str) :
  StronglySorted str_lt l -> ~ In x l ->
  StronglySorted str_lt (insert_sorted x l).
Proof.
  induction l as [|y l IH]; intros Hs Hx; simpl.
  - repeat constructor.
  - inversion Hs as [|? ? Hs' Hall]; subst.
    unfold str_leb. destruct (str_ltb y x) eqn:Eyx; simpl.
    + constructor.
      * apply IH; auto. intros H. apply Hx. now right.
      * apply Forall_forall. intros z Hz.
        apply insert_sorted_in in Hz as [->|Hz]; auto.
        rewrite Forall_forall in Hall. now apply Hall.
    + assert (Hxy : str_lt x y).
      { unfold str_lt. destruct (str_ltb x y) eqn:Exy; auto.
        exfalso. apply Hx. left. symmetry. now apply str_lt_total. }
      constructor; auto. constructor; auto.
      apply Forall_forall. intros z Hz. rewrite Forall_forall in Hall.
      eapply str_lt_trans; eauto.
Qed.

Lemma sorted_strict (l : list str) :
  NoDup l -> StronglySorted str_lt (sorted l).
Proof.
  induction 1 as [|x l Hx Hnd IH]; simpl.
  - constructor.
  - apply insert_sorted_strict; auto. now rewrite sorted_in.
Qed.

Lemma strict_nodup (l : list str) : StronglySorted str_lt l -> NoDup l.
Proof.
  induction 1 as [|x l Hs IH Hall]; constructor; auto.
  intros Hin. rewrite Forall_forall in Hall. specialize (Hall x Hin).
  unfold str_lt in Hall. now rewrite str_lt_irrefl in Hall.
Qed.

(** A strictly sorted list is determined by its elements. *)
Lemma strict_unique (l1 l2 : list str) :
  StronglySorted str_lt l1 -> StronglySorted str_lt l2 ->
  (forall x, In x l1 <-> In x l2) -> l1 = l2.
Proof.
  intros H1. revert l2.
  induction H1 as [|x l1 Hs1 IH Hall1]; intros l2 H2 Hsame.
  - destruct l2 as [|y l2]; auto.
    exfalso. apply (Hsame y). now left.
  - destruct H2 as [|y l2 Hs2 Hall2].
    + exfalso. apply (Hsame x). now left.
    + rewrite Forall_forall in Hall1, Hall2.
      assert (Hxy : x = y).
      { destruct (proj1 (Hsame x) (or_introl eq_refl)) as [->|Hx]; auto.
        destruct (proj2 (Hsame y) (or_introl eq_refl)) as [->|Hy]; auto.
        exfalso. specialize (Hall1 y Hy). specialize (Hall2 x Hx).
        generalize (str_lt_trans _ _ _ Hall1 Hall2). unfold str_lt.
        now rewrite str_lt_irrefl. }
      subst y. f_equal. apply IH; auto.
      intros z. split; intros Hz.
      * destruct (proj1 (Hsame z) (or_intror Hz)) as [->|Hz2]; auto.
        exfalso. specialize (Hall1 z Hz). unfold str_lt in Hall1.
        now rewrite str_lt_irrefl in Hall1.
      * destruct (proj2 (Hsame z) (or_intror Hz)) as [->|Hz1]; auto.
        exfalso. specialize (Hall2 z Hz). unfold str_lt in Hall2.
        now rewrite str_lt_irrefl in Hall2.
Qed.

Lemma sorted_set_in (x : str) (l : list str) :
  In x (sorted (py_set l)) <-> In x l.
Proof. unfold py_set. now rewrite sorted_in, nodup_In. Qed.

Lemma sorted_set_strict (l : list str) :
  StronglySorted str_lt (sorted (py_set l)).
Proof. apply sorted_strict. apply NoDup_nodup. Qed.

Lemma sorted_set_same (l1 l2 : list str) :
  (forall x, In x l1 <-> In x l2) ->
  sorted (py_set l1) = sorted (py_set l2).
Proof.
  intros H. apply strict_unique; auto using sorted_set_strict.
  intros x. now rewrite !sorted_set_in.
Qed.

Lemma company_pairs_perm (art art' : element) :
  Permutation (scanned art) (scanned art') ->
  forall p, In p (company_pairs art) <-> In p (company_pairs art').
Proof.
  intros HP p. unfold company_pairs. rewrite !filter_In.
  split; intros [Hin Hc]; split; auto.
  - eapply Permutation_in; eauto.
  - eapply Permutation_in; [apply Permutation_sym|]; eauto.
Qed.

(** C5. In an emitted row, the non-academic-author field and the
    company-affiliation field are the [; ]-joined entries of a strictly
    increasing list of strings (hence sorted and without duplicates, two
    entries being the same when they are equal as trimmed strings), whose
    elements are the names, respectively the affiliations, of the
    company-classified pairs of the record.  Two records whose (name,
    affiliation) pairs are the same up to order get the same two fields. *)
Theorem row_fields_sorted_distinct (art : element) (r : row) :
  emits art r ->
  (exists names affils,
     Non_academic_Authors r = join (txt "; ") names /\
     Company_Affiliations r = join (txt "; ") affils /\
     StronglySorted str_lt names /\ NoDup names /\
     (forall x, In x names <-> In x (map fst (company_pairs art))) /\
     StronglySorted str_lt affils /\ NoDup affils /\
     (forall x, In x affils <-> In x (map snd (company_pairs art))))
  /\ (forall art' r',
        emits art' r' ->
        Permutation (scanned art) (scanned art') ->
        Non_academic_Authors r' = Non_academic_Authors r /\
        Company_Affiliations r' = Company_Affiliations r).
Proof.
  intros H. apply emits_iff in H as [_ ->]. split.
  - exists (sorted (py_set (map fst (company_pairs art)))),
           (sorted (py_set (map snd (company_pairs art)))).
    simpl. repeat split;
      auto using sorted_set_strict, strict_nodup;
      try (now apply sorted_set_in).
  - intros art' r' H' HP. apply emits_iff in H' as [_ ->]. simpl.
    pose proof (company_pairs_perm art art' HP) as Hsame.
    split; f_equal; apply sorted_set_same; intros x;
      rewrite !in_map_iff; split; intros (p & <- & Hp);
      exists p; split; auto; now apply Hsame.
Qed.

Lemma row_fields_sorted_distinct_witness :
  exists r r',
    emits record_zeta_first r /\ emits record_doe_first r' /\
    Non_academic_Authors r = txt "Jane Doe; Zoe Zeta" /\
    Company_Affiliations r = txt "Acme Biotech Inc., Boston; Zeta Pharma Ltd" /\
    Non_academic_Authors r' = Non_academic_Authors r /\
    Company_Affiliations r' = Company_Affiliations r.
Proof.
  eexists. eexists. split; [reflexivity|]. split; [reflexivity|].
  split; [reflexivity|]. split; [reflexivity|].
  apply (proj2 (row_fields_sorted_distinct record_zeta_first _ eq_refl)
           record_doe_first _ eq_refl).
  unfold scanned, authors. simpl. apply perm_swap.
Defined.

(** ** Empty affiliations *)

Lemma scan_pairs_lists (classify : str -> bool) :
  forall (pairs : list (str * str)) (st : scan),
    non_acad_authors (fold_left (scan_pair classify) pairs st)
      = non_acad_authors st ++ map fst (filter (kept classify) pairs)
    /\ company_affils (fold_left (scan_pair classify) pairs st)
      = company_affils st ++ map snd (filter (kept classify) pairs).
Proof.
  induction pairs as [|p pairs IH]; intros st; cbn [fold_left].
  - cbn. now rewrite !app_nil_r.
  - destruct (scan_pair_fields classify st p) as (F1 & F2 & _).
    destruct (IH (scan_pair classify st p)) as (IH1 & IH2).
    rewrite IH1, IH2, F1, F2. cbn [filter map].
    rewrite <- !app_assoc. now destruct (kept classify p).
Qed.

Lemma scan_pair_agree (f g : str -> bool) (st : scan) (p : str * str) :
  (forall s, s <> [] -> f s = g s) -> scan_pair f st p = scan_pair g st p.
Proof.
  intros H. destruct p as [name affil]. unfold scan_pair.
  destruct affil as [|c affil]; simpl; auto.
  now rewrite (H (c :: affil)).
Qed.

Lemma scan_authors_agree (f g : str -> bool) (art : element) :
  (forall s, s <> [] -> f s = g s) -> scan_authors f art = scan_authors g art.
Proof.
  intros H. rewrite !scan_authors_pairs. generalize (Scan [] [] None).
  induction (scanned art) as [|p pairs IH]; intros st; simpl; auto.
  now rewrite (scan_pair_agree f g st p H), IH.
Qed.

Lemma kept_empty (classify : str -> bool) (pairs : list (str * str)) :
  (forall p, In p pairs -> snd p = []) -> filter (kept classify) pairs = [].
Proof.
  induction pairs as [|p pairs IH]; intros H; simpl; auto.
  unfold kept at 1. rewrite (H p (or_introl eq_refl)). simpl.
  apply IH. intros; apply H. now right.
Qed.

(** C10. An affiliation string that is empty after trimming never reaches
    the classifier and never contributes.  Whatever the classifier would
    answer on the empty string, the rows are the same; the company
    affiliations collected for a record, and the sorted set that is emitted,
    never contain the empty string; an author whose affiliation strings are
    all empty after trimming leaves the collected names and affiliations
    unchanged; and a record whose authors are all of this kind yields no
    row. *)
Theorem empty_affiliation_ignored (classify : str -> bool) :
  (forall classify' root,
     (forall s, s <> [] -> classify' s = classify s) ->
     parse_tree_with classify' root = parse_tree_with classify root)
  /\ (forall art,
        ~ In [] (company_affils (scan_authors classify art)) /\
        ~ In [] (sorted (py_set (company_affils (scan_authors classify art)))))
  /\ (forall st author,
        (forall a, In a (affiliations author) -> a = []) ->
        non_acad_authors (scan_author classify st author)
          = non_acad_authors st /\
        company_affils (scan_author classify st author)
          = company_affils st)
  /\ (forall rows art,
        (forall author a,
           In author (authors art) -> In a (affiliations author) -> a = []) ->
        parse_article classify rows art = Ok rows).
Proof.
  repeat split.
  - intros classify' root H. unfold parse_tree_with.
    generalize (@nil row).
    induction (findall_desc "PubmedArticle" root) as [|art arts IH];
      intros rows; simpl; auto.
    unfold parse_article at 1 3.
    rewrite (scan_authors_agree classify' classify art H).
    destruct (truthy (non_acad_authors (scan_authors classify art))).
    + destruct (Textwrap.shorten _ 200); simpl; auto.
    + simpl. apply IH.
  - rewrite scan_authors_pairs.
    destruct (scan_pairs_lists classify (scanned art) (Scan [] [] None))
      as [_ H]. rewrite H. simpl. rewrite in_map_iff.
    intros ([name affil] & Heq & Hin). simpl in Heq. subst affil.
    apply filter_In in Hin as [_ Hk]. discriminate.
  - rewrite sorted_set_in, scan_authors_pairs.
    destruct (scan_pairs_lists classify (scanned art) (Scan [] [] None))
      as [_ H]. rewrite H. simpl. rewrite in_map_iff.
    intros ([name affil] & Heq & Hin). simpl in Heq. subst affil.
    apply filter_In in Hin as [_ Hk]. discriminate.
  - rewrite scan_author_pairs.
    destruct (scan_pairs_lists classify (author_pairs author) st) as [H1 _].
    rewrite H1, kept_empty; [now rewrite app_nil_r|].
    intros p Hp. unfold author_pairs in Hp.
    apply in_map_iff in Hp as (a & <- & Ha). simpl. auto.
  - rewrite scan_author_pairs.
    destruct (scan_pairs_lists classify (author_pairs author) st) as [_ H2].
    rewrite H2, kept_empty; [now rewrite app_nil_r|].
    intros p Hp. unfold author_pairs in Hp.
    apply in_map_iff in Hp as (a & <- & Ha). simpl. auto.
  - intros rows art H. unfold parse_article.
    rewrite scan_authors_pairs.
    destruct (scan_pairs_lists classify (scanned art) (Scan [] [] None))
      as [H1 _]. rewrite H1, kept_empty; [reflexivity|].
    intros p Hp. unfold scanned in Hp.
    apply in_flat_map in Hp as (author & Hau & Hp).
    unfold author_pairs in Hp.
    apply in_map_iff in Hp as (a & <- & Ha). simpl. eauto.
Qed.

(** ** Collapsed whitespace *)

Lemma split_cons (c : char) (s : str) :
  split (c :: s)
  = if isspace c then split s
    else match s with
         | [] => [[c]]
         | d :: _ =>
             if isspace d then [c] :: split s
             else match split s with
                  | w :: ws => (c :: w) :: ws
                  | [] => [[c]]
                  end
         end.
Proof. destruct s; reflexivity. Qed.

Lemma split_words (s : str) : Forall is_word (split s).
Proof.
  induction s as [|c s IH]; [constructor|].
  rewrite split_cons. destruct (isspace c) eqn:Ec; auto.
  assert (Hc : is_word [c]) by (split; [discriminate|now repeat constructor]).
  destruct s as [|d s']; [now repeat constructor|].
  destruct (isspace d) eqn:Ed; [now constructor|].
  destruct (split (d :: s')) as [|w ws]; [now repeat constructor|].
  inversion IH as [|? ? [Hw1 Hw2] Hws]; subst.
  constructor; auto. split; [discriminate|now constructor].
Qed.

Lemma join_cons (sep p : str) (ps : list str) :
  join sep (p :: ps)
  = match ps with [] => p | _ :: _ => p ++ sep ++ join sep ps end.
Proof. reflexivity. Qed.

Lemma word_clean (w : str) : is_word w -> clean w.
Proof.
  intros [_ H]. unfold clean. eapply Forall_impl; [|exact H].
  intros c Hc. now right.
Qed.

Lemma word_starts (w t : str) : is_word w -> starts_nonblank (w ++ t).
Proof.
  intros [Hne H]. destruct w as [|c w]; [congruence|].
  inversion H; subst. exists c, (w ++ t). auto.
Qed.

Lemma word_ends (w t : str) : is_word w -> ends_nonblank (t ++ w).
Proof.
  intros [Hne H]. destruct (exists_last Hne) as (w' & c & ->).
  apply Forall_app in H as [_ H]. inversion H; subst.
  exists (t ++ w'), c. now rewrite app_assoc.
Qed.

Lemma join_words (ws : list str) :
  Forall is_word ws ->
  clean (join [space] ws) /\
  (ws <> [] ->
   starts_nonblank (join [space] ws) /\ ends_nonblank (join [space] ws)).
Proof.
  induction 1 as [|w ws Hw Hws IH].
  - split; [constructor|congruence].
  - rewrite join_cons. destruct ws as [|w2 ws].
    + split; [now apply word_clean|]. intros _. split.
      * rewrite <- (app_nil_r w). now apply word_starts.
      * now apply (word_ends w []).
    + destruct IH as [IHc IHe].
      destruct IHe as [_ (t' & c & Ht & Hc)]; [discriminate|].
      split.
      * unfold clean. apply Forall_app. split; [now apply word_clean|].
        constructor; [now left|exact IHc].
      * intros _. split; [now apply word_starts|].
        exists (w ++ [space] ++ t'), c. rewrite Ht.
        now rewrite <- !app_assoc.
Qed.

Lemma collapse_shape (text : str) :
  clean (Textwrap.collapse text) /\
  (Textwrap.collapse text <> [] ->
   starts_nonblank (Textwrap.collapse text) /\
   ends_nonblank (Textwrap.collapse text)).
Proof.
  unfold Textwrap.collapse.
  destruct (join_words (split (strip text)) (split_words _)) as [Hc He].
  split; [exact Hc|]. intros Hne. apply He. intros Heq.
  apply Hne. now rewrite Heq.
Qed.

(** ** [textwrap]: whitespace and chunks of a collapsed text *)

Lemma is_ws_isspace (c : char) : Textwrap.is_ws c = true -> isspace c = true.
Proof. unfold Textwrap.is_ws. intros H. char_lia. Qed.

Lemma is_tab_isspace (c : char) :
  Textwrap.is_tab c = true -> isspace c = true /\ c <> space.
Proof.
  unfold Textwrap.is_tab. intros H. apply N.eqb_eq in H. subst c.
  split; [reflexivity|discriminate].
Qed.

Lemma expandtabs_clean (t : str) :
  clean t -> forall col, Textwrap.expandtabs col t = t.
Proof.
  induction 1 as [|c t Hc Ht IH]; intros col; simpl; auto.
  destruct (Textwrap.is_tab c) eqn:E.
  - apply is_tab_isspace in E as [E1 E2]. destruct Hc; congruence.
  - destruct ((c =? 10) || (c =? 13))%N; now rewrite IH.
Qed.

Lemma translate_clean (t : str) : clean t -> Textwrap.translate t = t.
Proof.
  induction 1 as [|c t Hc Ht IH]; simpl; auto.
  fold (Textwrap.translate t). rewrite IH.
  destruct (Textwrap.is_ws c) eqn:E; auto.
  apply is_ws_isspace in E. destruct Hc as [->|Hc]; [reflexivity|congruence].
Qed.

Lemma munge_clean (t : str) : clean t -> Textwrap._munge_whitespace t = t.
Proof.
  intros H. unfold Textwrap._munge_whitespace.
  now rewrite expandtabs_clean, translate_clean.
Qed.

Lemma chunk_len_pos (b s : str) : s <> [] -> 1 <= Textwrap.chunk_len b s.
Proof.
  destruct s as [|c s]; [congruence|]. intros _. unfold Textwrap.chunk_len.
  destruct (Textwrap.is_ws c) eqn:E.
  - simpl. rewrite E. lia.
  - destruct (Textwrap.behind_word_punct b); [|lia].
    unfold Textwrap.emdash.
    set (d := Textwrap.dash_run (c :: s)).
    destruct (2 <=? d) eqn:Ed; cbn [andb]; [|lia].
    apply Nat.leb_le in Ed.
    destruct (nth_error (c :: s) d) as [a|];
      [destruct (Textwrap.is_word a)|]; lia.
Qed.

Lemma split_from_concat :
  forall fuel b s,
    length s <= fuel -> concat (Textwrap.split_from fuel b s) = s.
Proof.
  induction fuel as [|fuel IH]; intros b s Hlen.
  - destruct s; [reflexivity|simpl in Hlen; lia].
  - destruct s as [|c s]; [reflexivity|].
    cbn [Textwrap.split_from concat].
    rewrite IH.
    + apply firstn_skipn.
    + rewrite length_skipn.
      assert (Hp : 1 <= Textwrap.chunk_len b (c :: s))
        by (apply chunk_len_pos; discriminate).
      cbn [length] in *. lia.
Qed.

Lemma concat_filter_truthy (l : list str) :
  concat (filter truthy l) = concat l.
Proof.
  induction l as [|x l IH]; simpl; auto.
  destruct x; simpl; auto. now rewrite IH.
Qed.

Lemma split_chunks_spec (t : str) :
  concat (Textwrap._split t) = t /\
  Forall (fun c => c <> []) (Textwrap._split t).
Proof.
  unfold Textwrap._split. split.
  - rewrite concat_filter_truthy. now apply split_from_concat.
  - apply Forall_forall. intros c Hc. apply filter_In in Hc as [_ Hc].
    now destruct c.
Qed.

Lemma lstrip_keeps (x : str) (c : char) :
  In c x -> isspace c = false -> In c (lstrip x).
Proof.
  induction x as [|y x IH]; simpl; auto.
  intros [->|Hin] Hc.
  - rewrite Hc. now left.
  - destruct (isspace y); auto. now right.
Qed.

Lemma blank_false (x : str) (c : char) :
  In c x -> isspace c = false -> Textwrap.blank x = false.
Proof.
  intros Hin Hc. unfold Textwrap.blank, strip, rstrip.
  assert (H : In c (rev (lstrip (rev (lstrip x))))).
  { apply in_rev. rewrite rev_involutive. apply lstrip_keeps; auto.
    apply -> in_rev. now apply lstrip_keeps. }
  now destruct (rev (lstrip (rev (lstrip x)))).
Qed.

Lemma sum_len_app (a b : list str) :
  Textwrap.sum_len (a ++ b) = Textwrap.sum_len a + Textwrap.sum_len b.
Proof.
  induction a as [|x a IH]; simpl; auto. rewrite IH. lia.
Qed.

Lemma sum_len_rev (a : list str) :
  Textwrap.sum_len (rev a) = Textwrap.sum_len a.
Proof.
  induction a as [|x a IH]; simpl; auto.
  rewrite sum_len_app, IH. simpl. lia.
Qed.

Lemma sum_len_concat (a : list str) :
  length (concat a) = Textwrap.sum_len a.
Proof.
  induction a as [|x a IH]; simpl; auto. now rewrite length_app, IH.
Qed.

(** ** [textwrap]: one line *)

Lemma fill_line_spec (width : nat) :
  forall chunks cur_line cur_len,
  exists taken rest,
    chunks = taken ++ rest /\
    Textwrap.fill_line width cur_line cur_len chunks
      = (rev taken ++ cur_line, cur_len + Textwrap.sum_len taken, rest) /\
    (cur_len <= width -> cur_len + Textwrap.sum_len taken <= width) /\
    match rest with
    | [] => True
    | chunk :: _ => width < cur_len + Textwrap.sum_len taken + length chunk
    end.
Proof.
  induction chunks as [|chunk chunks IH]; intros cur_line cur_len.
  - exists [], []. simpl. rewrite Nat.add_0_r. auto.
  - simpl. destruct (cur_len + length chunk <=? width) eqn:E.
    + apply Nat.leb_le in E.
      destruct (IH (chunk :: cur_line) (cur_len + length chunk))
        as (taken & rest & -> & Hf & Hle & Hrest).
      exists (chunk :: taken), rest. simpl. rewrite Hf.
      rewrite <- app_assoc. simpl.
      replace (cur_len + (length chunk + Textwrap.sum_len taken))
        with (cur_len + length chunk + Textwrap.sum_len taken) by lia.
      repeat split; auto.
    + apply Nat.leb_gt in E. exists [], (chunk :: chunks). simpl.
      rewrite Nat.add_0_r. repeat split; auto; lia.
Qed.

Lemma fill_line_all (width : nat) (chunks : list str) :
  Textwrap.sum_len chunks <= width ->
  Textwrap.fill_line width [] 0 chunks
  = (rev chunks, Textwrap.sum_len chunks, []).
Proof.
  intros H.
  destruct (fill_line_spec width chunks [] 0)
    as (taken & rest & -> & Hf & _ & Hrest).
  destruct rest as [|chunk rest].
  - rewrite Hf. now rewrite !app_nil_r.
  - rewrite sum_len_app in H. simpl in *. lia.
Qed.

Lemma rfind_dash_bound :
  forall s i hi found h,
    Textwrap.rfind_dash s i hi found = Some h ->
    found = Some h \/ h < hi.
Proof.
  induction s as [|c s IH]; intros i hi found h H; simpl in H; auto.
  destruct (i <? hi) eqn:E; auto. apply Nat.ltb_lt in E.
  apply IH in H as [H|H]; auto.
  destruct (Textwrap.is_dash c); auto. injection H as <-. now right.
Qed.

Lemma handle_long_word_spec (width cur_len : nat) (cur_line rest : list str)
    (chunk : str) :
  1 <= width -> cur_len <= width -> width < length chunk ->
  exists e,
    Textwrap._handle_long_word (chunk :: rest) cur_line cur_len width
      = (skipn e chunk :: rest, firstn e chunk :: cur_line) /\
    e <= width - cur_len /\ (cur_len = 0 -> 1 <= e).
Proof.
  intros Hw Hc Hl. unfold Textwrap._handle_long_word.
  replace (width <? 1) with false by (symmetry; apply Nat.ltb_ge; lia).
  replace (width - cur_len <? length chunk) with true
    by (symmetry; apply Nat.ltb_lt; lia).
  destruct (Textwrap.rfind_dash chunk 0 (width - cur_len) None)
    as [hyphen|] eqn:E.
  - apply rfind_dash_bound in E as [E|E]; [discriminate|].
    destruct ((0 <? hyphen)
              && existsb (fun c => negb (Textwrap.is_dash c))
                   (firstn hyphen chunk)).
    + exists (hyphen + 1). repeat split; lia.
    + exists (width - cur_len). repeat split; lia.
  - exists (width - cur_len). repeat split; lia.
Qed.

Lemma add_placeholder_spec (width : nat) :
  forall cur_line cur_len out,
    cur_len = Textwrap.sum_len cur_line ->
    Textwrap.add_placeholder width cur_line cur_len = Some out ->
    exists dropped kept_line,
      cur_line = dropped ++ kept_line /\
      out = Textwrap.placeholder :: kept_line /\
      Textwrap.sum_len kept_line + length Textwrap.placeholder <= width.
Proof.
  induction cur_line as [|x cur_line IH]; intros cur_len out Hlen H;
    cbn [Textwrap.add_placeholder] in H; [discriminate|].
  destruct (negb (Textwrap.blank x)
            && (cur_len + length Textwrap.placeholder <=? width)) eqn:E.
  - injection H as <-. apply andb_prop in E as [_ E].
    apply Nat.leb_le in E. exists [], (x :: cur_line). subst cur_len. auto.
  - apply IH in H as (dropped & kept_line & -> & -> & Hk).
    + exists (x :: dropped), kept_line. auto.
    + subst cur_len. simpl. lia.
Qed.

Lemma ends_nonblank_tail (a x : str) :
  ends_nonblank (a ++ x) -> x <> [] ->
  exists c, In c x /\ isspace c = false.
Proof.
  intros (t' & c & Heq & Hc) Hx.
  destruct (exists_last Hx) as (x' & c' & ->).
  rewrite app_assoc in Heq. apply app_inj_tail in Heq as [_ ->].
  exists c. split; auto. apply in_or_app. right. now left.
Qed.

Lemma starts_nonblank_head (x b : str) :
  starts_nonblank (x ++ b) -> x <> [] ->
  exists c, In c x /\ isspace c = false.
Proof.
  intros (c & t' & Heq & Hc) Hx. destruct x as [|y x]; [congruence|].
  injection Heq as -> _. exists c. split; auto. now left.
Qed.

Lemma concat_rev_cons (x : str) (l : list str) :
  concat (rev (x :: l)) = concat (rev l) ++ x.
Proof. simpl. now rewrite concat_app, (app_nil_r x : concat [x] = x). Qed.

(** The line fits: it is stored whole. *)
Lemma wrap_line_fits (width : nat) (chunks : list str) :
  chunks <> [] ->
  Forall (fun c => c <> []) chunks ->
  ends_nonblank (concat chunks) ->
  Textwrap.sum_len chunks <= width ->
  Textwrap.wrap_line width [] chunks = ([concat chunks], [], Textwrap.Continue).
Proof.
  intros Hne Hall Hend Hsum. unfold Textwrap.wrap_line.
  cbn [truthy Textwrap.initial_indent length app].
  rewrite Nat.sub_0_r.
  replace (match chunks with
           | [] => chunks
           | chunk :: rest =>
               if Textwrap.blank chunk && false then rest else chunks
           end) with chunks
    by (destruct chunks; auto; now rewrite andb_false_r).
  rewrite fill_line_all by exact Hsum.
  cbn [Textwrap.long_word_step].
  destruct (exists_last Hne) as (front & x & ->).
  rewrite rev_app_distr. cbn [rev app].
  assert (Hx : x <> []).
  { rewrite Forall_forall in Hall. apply Hall. apply in_or_app.
    right. now left. }
  assert (Hb : Textwrap.blank x = false).
  { rewrite concat_app in Hend. simpl in Hend. rewrite app_nil_r in Hend.
    destruct (ends_nonblank_tail _ _ Hend Hx) as (c & Hin & Hc).
    eapply blank_false; eauto. }
  unfold Textwrap.drop_trailing_blank. rewrite Hb.
  unfold Textwrap.finish_line.
  replace (Textwrap.sum_len (front ++ [x]) <=? width) with true
    by (symmetry; now apply Nat.leb_le).
  cbn [length Nat.add Textwrap.max_lines Nat.ltb Nat.leb orb andb app].
  do 2 f_equal. f_equal.
  change (x :: rev front) with (rev [x] ++ rev front).
  now rewrite <- rev_app_distr, rev_involutive.
Qed.

(** The text does not fit: what the line holds once it is full. *)
Lemma line_taken (width : nat) (chunks : list str) :
  1 <= width ->
  Forall (fun c => c <> []) chunks ->
  width < Textwrap.sum_len chunks ->
  exists cur_line rest,
    Textwrap.long_word_step width (Textwrap.fill_line width [] 0 chunks)
      = (cur_line, Textwrap.sum_len cur_line, rest) /\
    concat (rev cur_line) ++ concat rest = concat chunks /\
    Textwrap.sum_len cur_line <= width /\
    rest <> [] /\ Forall (fun c => c <> []) rest /\
    cur_line <> [] /\ (forall x, cur_line = [x] -> x <> []).
Proof.
  intros Hw Hall Hsum.
  destruct (fill_line_spec width chunks [] 0)
    as (taken & rest & Heq & Hf & Hle & Hrest).
  rewrite Hf. simpl in Hle, Hrest. rewrite app_nil_r. cbn [Nat.add].
  specialize (Hle (Nat.le_0_l _)).
  destruct rest as [|chunk rest].
  { rewrite app_nil_r in Heq. subst taken. lia. }
  assert (Hall' : Forall (fun c => c <> []) taken /\
                  Forall (fun c => c <> []) (chunk :: rest)).
  { rewrite Heq in Hall. now apply Forall_app in Hall. }
  destruct Hall' as [Ht Hr].
  cbn [Textwrap.long_word_step].
  destruct (width <? length chunk) eqn:El.
  - apply Nat.ltb_lt in El.
    destruct (handle_long_word_spec width (Textwrap.sum_len taken)
                (rev taken) rest chunk Hw Hle El) as (e & He & Hb & H0).
    rewrite He.
    exists (firstn e chunk :: rev taken), (skipn e chunk :: rest).
    assert (Hlt : e < length chunk) by lia.
    repeat split.
    + rewrite concat_rev_cons, rev_involutive. cbn [concat].
      rewrite Heq, concat_app. cbn [concat].
      rewrite <- !app_assoc. f_equal. rewrite app_assoc.
      now rewrite firstn_skipn.
    + cbn [Textwrap.sum_len fold_right].
      fold (Textwrap.sum_len (rev taken)).
      rewrite sum_len_rev, length_firstn. lia.
    + discriminate.
    + inversion Hr; subst. constructor; auto.
      intros H. apply (f_equal (@length char)) in H.
      rewrite length_skipn in H. simpl in H. lia.
    + discriminate.
    + intros x Hx. injection Hx as <- Hx.
      assert (Htk : taken = []).
      { destruct taken as [|y taken]; auto. simpl in Hx.
        now destruct (rev taken). }
      subst taken. specialize (H0 eq_refl).
      intros H. apply (f_equal (@length char)) in H.
      rewrite length_firstn in H. simpl in H. lia.
  - apply Nat.ltb_ge in El.
    exists (rev taken), (chunk :: rest).
    assert (Hne : taken <> []).
    { intros ->. simpl in Hrest. lia. }
    repeat split; auto.
    + now rewrite sum_len_rev.
    + now rewrite rev_involutive, Heq, concat_app.
    + now rewrite sum_len_rev.
    + discriminate.
    + intros H. apply Hne. apply (f_equal (@rev str)) in H.
      now rewrite rev_involutive in H.
    + intros x Hx. rewrite Forall_forall in Ht. apply Ht.
      apply (proj2 (in_rev taken x)). rewrite Hx. now left.
Qed.

(** The text does not fit: the only line is cut and marked. *)
Lemma wrap_line_truncates (width : nat) (chunks : list str) :
  5 <= width ->
  Forall (fun c => c <> []) chunks ->
  starts_nonblank (concat chunks) ->
  ends_nonblank (concat chunks) ->
  width < Textwrap.sum_len chunks ->
  exists out rest,
    Textwrap.wrap_line width [] chunks = ([out], rest, Textwrap.Break) /\
    truncated width (concat chunks) out.
Proof.
  intros Hw Hall Hstart Hend Hsum. unfold Textwrap.wrap_line.
  cbn [truthy Textwrap.initial_indent length app].
  rewrite Nat.sub_0_r.
  replace (match chunks with
           | [] => chunks
           | chunk :: rest =>
               if Textwrap.blank chunk && false then rest else chunks
           end) with chunks
    by (destruct chunks; auto; now rewrite andb_false_r).
  destruct (line_taken width chunks ltac:(lia) Hall Hsum)
    as (cur2 & rest & -> & Hcat & Hlen & Hrest & Hrall & Hcur & Hone).
  (* the trailing blank chunk *)
  assert (Hdrop : exists pre cur3,
             cur2 = pre ++ cur3 /\ cur3 <> [] /\
             Textwrap.drop_trailing_blank cur2 (Textwrap.sum_len cur2)
               = (cur3, Textwrap.sum_len cur3)).
  { unfold Textwrap.drop_trailing_blank.
    destruct cur2 as [|x cur2]; [congruence|].
    destruct (Textwrap.blank x) eqn:Eb.
    - exists [x], cur2. repeat split.
      + intros ->. specialize (Hone x eq_refl).
        simpl in Hcat. rewrite <- Hcat, <- app_assoc in Hstart.
        destruct (starts_nonblank_head _ _ Hstart Hone) as (c & Hin & Hc).
        rewrite (blank_false x c Hin Hc) in Eb. discriminate.
      + f_equal. simpl. lia.
    - exists [], (x :: cur2). repeat split. discriminate. }
  destruct Hdrop as (pre & cur3 & Hpre & Hcur3 & ->).
  (* text is left over *)
  assert (Hleft : match rest with
                  | [] => true
                  | [chunk] => Textwrap.blank chunk
                  | _ :: _ :: _ => false
                  end = false).
  { destruct rest as [|chunk [|chunk2 rest]]; [congruence| |reflexivity].
    inversion Hrall as [|? ? Hne _]; subst.
    simpl in Hcat. rewrite app_nil_r in Hcat. rewrite <- Hcat in Hend.
    destruct (ends_nonblank_tail _ _ Hend Hne) as (c & Hin & Hc).
    eapply blank_false; eauto. }
  unfold Textwrap.finish_line. destruct cur3 as [|y cur3]; [congruence|].
  rewrite Hleft.
  cbn [length Nat.add Textwrap.max_lines Nat.ltb Nat.leb orb andb app].
  destruct (Textwrap.add_placeholder width (y :: cur3)
              (Textwrap.sum_len (y :: cur3))) as [out|] eqn:Ea.
  - apply add_placeholder_spec in Ea
      as (dropped & kept_line & Hk & -> & Hfit); auto.
    eexists. eexists. split; [reflexivity|].
    cbn [Textwrap.initial_indent app]. split.
    + rewrite concat_rev_cons, length_app, sum_len_concat, sum_len_rev.
      exact Hfit.
    + left. rewrite concat_rev_cons.
      exists (concat (rev kept_line)),
             (concat (rev dropped) ++ concat (rev pre) ++ concat rest).
      split; auto. rewrite <- Hcat, Hpre, Hk.
      rewrite !rev_app_distr, !concat_app. now rewrite <- !app_assoc.
  - eexists. eexists. split; [reflexivity|]. split.
    + simpl. lia.
    + right. reflexivity.
Qed.

(** ** [textwrap.shorten] *)

Lemma shorten_unfold (text : str) :
  Textwrap.shorten text 200
  = Ok (join Textwrap.newline
          (Textwrap.wrap_loop
             (S (Textwrap.sum_len (Textwrap._split (Textwrap.collapse text))
                 + length (Textwrap._split (Textwrap.collapse text))))
             200 [] (Textwrap._split (Textwrap.collapse text)))).
Proof.
  unfold Textwrap.shorten, Textwrap.fill, Textwrap.wrap,
    Textwrap._wrap_chunks, Textwrap._split_chunks.
  rewrite munge_clean by apply collapse_shape.
  change (200 <=? 0) with false.
  change (200 <? length Textwrap.initial_indent
                 + length (lstrip Textwrap.placeholder)) with false.
  reflexivity.
Qed.

(** A collapsed text that fits in the width is returned as it is. *)
Lemma shorten_fits (text : str) :
  length (Textwrap.collapse text) <= 200 ->
  Textwrap.shorten text 200 = Ok (Textwrap.collapse text).
Proof.
  intros Hlen. rewrite shorten_unfold.
  set (t := Textwrap.collapse text) in *.
  destruct (split_chunks_spec t) as [Hcat Hall].
  destruct (collapse_shape text) as [_ Hshape]. fold t in Hshape.
  remember (Textwrap._split t) as chunks eqn:Hch.
  f_equal. destruct chunks as [|chunk chunks].
  - simpl in *. now subst t.
  - cbn [Textwrap.wrap_loop].
    rewrite wrap_line_fits; auto.
    + rewrite Hcat.
      destruct (Textwrap.sum_len (chunk :: chunks)
                + length (chunk :: chunks)); reflexivity.
    + discriminate.
    + rewrite Hcat. apply Hshape. intros H. rewrite H in Hcat.
      simpl in Hcat. inversion Hall; subst. destruct chunk; [congruence|].
      discriminate.
    + rewrite <- sum_len_concat, Hcat. exact Hlen.
Qed.

(** A collapsed text that does not fit is cut and marked. *)
Lemma shorten_truncates (text : str) :
  200 < length (Textwrap.collapse text) ->
  exists out,
    Textwrap.shorten text 200 = Ok out /\
    truncated 200 (Textwrap.collapse text) out.
Proof.
  intros Hlen. rewrite shorten_unfold.
  set (t := Textwrap.collapse text) in *.
  destruct (split_chunks_spec t) as [Hcat Hall].
  destruct (collapse_shape text) as [_ Hshape]. fold t in Hshape.
  assert (Hne : t <> []) by (intros H; rewrite H in Hlen; simpl in Hlen; lia).
  destruct (Hshape Hne) as [Hstart Hend].
  remember (Textwrap._split t) as chunks eqn:Hch.
  destruct (wrap_line_truncates 200 chunks) as (out & rest & Hline & Htr);
    try (rewrite Hcat; assumption); auto.
  - lia.
  - rewrite <- sum_len_concat, Hcat. exact Hlen.
  - exists out. rewrite Hcat in Htr. split; auto. f_equal.
    destruct chunks as [|chunk chunks].
    + simpl in Hcat. congruence.
    + cbn [Textwrap.wrap_loop]. rewrite Hline. reflexivity.
Qed.

Lemma length_lstrip (s : str) : length (lstrip s) <= length s.
Proof.
  induction s as [|c s IH]; simpl; auto. destruct (isspace c); simpl; lia.
Qed.

Lemma length_strip (s : str) : length (strip s) <= length s.
Proof.
  unfold strip, rstrip. rewrite length_rev.
  etransitivity; [apply length_lstrip|]. rewrite length_rev.
  apply length_lstrip.
Qed.

Lemma length_join_split_blank (s : str) :
  length (join [space] (split s))
  + match s with
    | d :: _ => if isspace d then 1 else 0
    | [] => 0
    end <= length s.
Proof.
  induction s as [|c s IH]; [simpl; lia|].
  rewrite split_cons. destruct (isspace c) eqn:Ec.
  - cbn [length]. destruct s as [|d s']; [simpl; lia|].
    destruct (isspace d); cbn [length] in *; lia.
  - destruct s as [|d s']; [simpl; lia|].
    destruct (isspace d) eqn:Ed.
    + rewrite join_cons.
      destruct (split (d :: s')) as [|w ws]; [simpl; lia|].
      rewrite !length_app. cbn [length] in *. lia.
    + destruct (split (d :: s')) as [|w ws]; [simpl; lia|].
      rewrite join_cons in *. destruct ws as [|w2 ws].
      * cbn [length] in *. lia.
      * cbn [app length] in *. lia.
Qed.

Lemma length_join_split (s : str) :
  length (join [space] (split s)) <= length s.
Proof. pose proof (length_join_split_blank s). lia. Qed.

Lemma length_collapse (text : str) :
  length (Textwrap.collapse text) <= length text.
Proof.
  unfold Textwrap.collapse.
  etransitivity; [apply length_join_split|apply length_strip].
Qed.

(** C4 (as amended). For every title, [textwrap.shorten(title, width=200)]
    returns (it never raises).  It first collapses the whitespace of the
    title: the runs of blanks become single spaces and the blanks at both
    ends go.  When the collapsed title has at most 200 characters, it is
    the result; so for a title of at most 200 characters the result is the
    collapsed title, and it is the title itself exactly when the title is
    already collapsed.  When the collapsed title has more than 200
    characters, the result has at most 200 characters and is a part of the
    start of the collapsed title followed by the marker [" [...]"], or the
    bare marker ["[...]"].  The result is the "Title" of the emitted
    row. *)
Theorem title_shortened (title : str) :
  exists out,
    Textwrap.shorten title 200 = Ok out /\
    (length (Textwrap.collapse title) <= 200 ->
     out = Textwrap.collapse title) /\
    (length title <= 200 ->
     out = Textwrap.collapse title /\
     (out = title <-> Textwrap.collapse title = title)) /\
    (200 < length (Textwrap.collapse title) ->
     truncated 200 (Textwrap.collapse title) out) /\
    (forall art r, emits art r -> title_of art = title -> Title r = out).
Proof.
  exists (shortened title). split; [apply shorten_returns|].
  assert (Hfit : length (Textwrap.collapse title) <= 200 ->
                 shortened title = Textwrap.collapse title).
  { intros H. unfold shortened. now rewrite shorten_fits. }
  split; [exact Hfit|]. split; [|split].
  - intros Hlen.
    assert (Hc : shortened title = Textwrap.collapse title).
    { apply Hfit. pose proof (length_collapse title). lia. }
    split; [exact Hc|]. rewrite Hc. reflexivity.
  - intros H. destruct (shorten_truncates title H) as (out & Ho & Ht).
    unfold shortened. now rewrite Ho.
  - intros art r Hr <-. apply emits_iff in Hr as [_ ->]. reflexivity.
Qed.

(** C4, as stated, fails on two titles.  A title of four characters with
    two spaces in a row is not kept as it is: the row holds it with a
    single space.  A title of 201 characters that ends with a space is
    longer than the budget and is returned without any marker. *)
Lemma title_not_kept :
  (length (txt "a  b") <= 200 /\
   Textwrap.shorten (txt "a  b") 200 = Ok (txt "a b") /\
   txt "a b" <> txt "a  b" /\
   exists r, emits (titled_record "a  b") r /\ Title r = txt "a b")
  /\ (200 < length (repeat (code "a") 200 ++ [space]) /\
      Textwrap.shorten (repeat (code "a") 200 ++ [space]) 200
        = Ok (repeat (code "a") 200)).
Proof.
  split.
  - split; [simpl; lia|]. split; [reflexivity|]. split; [discriminate|].
    eexists. split; reflexivity.
  - split; [simpl; lia|]. vm_compute. reflexivity.
Qed.

(** The width counts characters, not bytes, and every blank of
    [str.isspace] is collapsed: a title of 150 Greek letters is kept, and
    two no-break spaces between two letters become one space. *)
Example title_outside_ascii :
  Textwrap.shorten (repeat 946%N 150) 200 = Ok (repeat 946%N 150)
  /\ Textwrap.shorten [97; 160; 160; 98]%N 200 = Ok (txt "a b")
  /\ strip ([160%N] ++ txt "Jane" ++ [160%N]) = txt "Jane".
Proof. repeat split; vm_compute; reflexivity. Qed.

(** ** Batches of identifiers *)

Lemma ceil_div_zero (c : nat) : 0 < c -> ceil_div 0 c = 0.
Proof. intros H. unfold ceil_div. apply Nat.div_small. lia. Qed.

Lemma ceil_div_succ (d c : nat) :
  0 < c -> 0 < d -> ceil_div d c = S (ceil_div (d - c) c).
Proof.
  intros Hc Hd. unfold ceil_div.
  destruct (Nat.le_gt_cases c d) as [Hle|Hlt].
  - replace (d + c - 1) with ((d - c + c - 1) + 1 * c) by lia.
    rewrite Nat.div_add by lia. lia.
  - replace (d - c) with 0 by lia. simpl.
    rewrite (Nat.div_small (c - 1) c) by lia.
    symmetry. apply (Nat.div_unique _ _ 1 (d - 1)); lia.
Qed.

(** [ceil_div n c] is the least [k] with [n <= k * c]. *)
Lemma ceil_div_spec (n c : nat) :
  0 < c -> n <= ceil_div n c * c /\ ceil_div n c * c < n + c.
Proof.
  intros Hc. unfold ceil_div.
  pose proof (Nat.div_mod_eq (n + c - 1) c) as H.
  pose proof (Nat.mod_upper_bound (n + c - 1) c ltac:(lia)) as Hr.
  split; nia.
Qed.

Lemma range_from_spec (step : nat) :
  0 < step ->
  forall fuel start stop,
    stop - start <= fuel ->
    range_from fuel start stop step
    = map (fun i => start + i * step)
        (seq 0 (ceil_div (stop - start) step)).
Proof.
  intros Hs. induction fuel as [|fuel IH]; intros start stop Hf.
  - replace (stop - start) with 0 by lia.
    now rewrite ceil_div_zero.
  - simpl. destruct (start <? stop) eqn:E.
    + apply Nat.ltb_lt in E.
      rewrite (ceil_div_succ (stop - start) step) by lia.
      rewrite IH by lia. cbn [seq map].
      rewrite <- seq_shift, map_map. f_equal; [lia|].
      replace (stop - start - step) with (stop - (start + step)) by lia.
      apply map_ext. intros i. simpl. lia.
    + apply Nat.ltb_ge in E. replace (stop - start) with 0 by lia.
      now rewrite ceil_div_zero.
Qed.

Lemma efetch_starts_spec (pmids : list str) :
  efetch_starts pmids
  = map (fun i => i * BATCH_SIZE)
      (seq 0 (ceil_div (length pmids) BATCH_SIZE)).
Proof.
  unfold efetch_starts, range.
  rewrite range_from_spec by (unfold BATCH_SIZE; lia || lia).
  rewrite Nat.sub_0_r. apply map_ext. intros i. lia.
Qed.

Lemma batches_spec (pmids : list str) :
  batches pmids
  = map (fun i => firstn BATCH_SIZE (skipn (i * BATCH_SIZE) pmids))
      (seq 0 (ceil_div (length pmids) BATCH_SIZE)).
Proof.
  unfold batches. rewrite efetch_starts_spec, map_map.
  apply map_ext. intros i. unfold slice. f_equal. lia.
Qed.

Lemma concat_pieces {A : Type} (c : nat) :
  forall k (l : list A),
    length l <= k * c ->
    concat (map (fun i => firstn c (skipn (i * c) l)) (seq 0 k)) = l.
Proof.
  induction k as [|k IH]; intros l Hl.
  - destruct l; [reflexivity|simpl in Hl; lia].
  - cbn [seq map concat]. rewrite <- seq_shift, map_map.
    transitivity (firstn c l ++ skipn c l); [|apply firstn_skipn].
    f_equal.
    transitivity
      (concat (map (fun i => firstn c (skipn (i * c) (skipn c l)))
                 (seq 0 k))).
    + f_equal. apply map_ext. intros i. f_equal.
      rewrite skipn_skipn. f_equal. simpl. lia.
    + apply IH. rewrite length_skipn. simpl in Hl. lia.
Qed.

Lemma batches_partition (pmids : list str) :
  length (batches pmids) = ceil_div (length pmids) BATCH_SIZE /\
  concat (batches pmids) = pmids /\
  Forall (fun b => 1 <= length b <= BATCH_SIZE) (batches pmids).
Proof.
  assert (Hc : 0 < BATCH_SIZE) by (unfold BATCH_SIZE; lia).
  destruct (ceil_div_spec (length pmids) BATCH_SIZE Hc) as [Hup Hlow].
  rewrite batches_spec. split; [|split].
  - now rewrite length_map, length_seq.
  - now apply concat_pieces.
  - apply Forall_forall. intros b Hb.
    apply in_map_iff in Hb as (i & <- & Hi). apply in_seq in Hi.
    rewrite length_firstn, length_skipn.
    assert (i * BATCH_SIZE < length pmids) by nia.
    lia.
Qed.

(** ** The run of [efetch] *)

Section EfetchRun.

Variable World : Type.
Variable efetch_request : str -> World -> World * result str.

Lemma efetch_batch_log (pmids : list str) (start : nat) (st st1 : run World)
    (r : result str) :
  efetch_batch World efetch_request pmids start st = (st1, r) ->
  efetch_log st1
  = efetch_log st ++ [id_param (slice pmids start (start + BATCH_SIZE))].
Proof.
  unfold efetch_batch.
  destruct (efetch_request _ (world st)) as [w r']. intros H.
  now injection H as <- _.
Qed.

Lemma efetch_from_log (pmids : list str) :
  forall starts st st' r,
    efetch_from World efetch_request pmids starts st = (st', r) ->
    exists k,
      k <= length starts /\
      efetch_log st'
      = efetch_log st
        ++ map (fun start =>
                  id_param (slice pmids start (start + BATCH_SIZE)))
             (firstn k starts) /\
      (forall xmls, r = Ok xmls ->
                    k = length starts /\ length xmls = length starts).
Proof.
  induction starts as [|start starts IH]; intros st st' r H; simpl in H.
  - injection H as <- <-. exists 0. simpl. rewrite app_nil_r.
    repeat split; auto. now injection H as <-.
  - destruct (efetch_batch World efetch_request pmids start st)
      as [st1 r1] eqn:E1.
    apply efetch_batch_log in E1 as Hlog.
    destruct r1 as [xml|e].
    + destruct (efetch_from World efetch_request pmids starts st1)
        as [st2 r2] eqn:E2.
      destruct (IH _ _ _ E2) as (k & Hk & Hl & Hok).
      assert (Hst : st' = st2) by (destruct r2; now injection H as <- _).
      subst st'. exists (S k). simpl. split; [lia|]. split.
      * rewrite Hl, Hlog, <- app_assoc. reflexivity.
      * intros xmls Hx. destruct r2 as [xmls2|e2].
        -- injection H as <-. injection Hx as <-.
           destruct (Hok xmls2 eq_refl) as [-> Hlen]. simpl. auto.
        -- injection H as <-. discriminate.
    + injection H as <- <-. exists 1. simpl. split; [lia|]. split; auto.
      intros xmls Hx. discriminate.
Qed.

(** C6. [efetch] cuts the identifiers into consecutive batches of at most
    [BATCH_SIZE = 200], in order: there are [ceil(n / 200)] of them for [n]
    identifiers and together they are the identifier list.  A run of
    [efetch] issues the requests for these batches in this order, never
    more than [ceil(n / 200)]; a run that comes to its end has issued
    exactly [ceil(n / 200)] requests and yields exactly [ceil(n / 200)]
    batches.  With no identifier it issues no request and yields the empty
    sequence. *)
Theorem efetch_batch_count (pmids : list str) (st st' : run World)
    (r : result (list str)) :
  efetch World efetch_request pmids st = (st', r) ->
  (length pmids <= ceil_div (length pmids) BATCH_SIZE * BATCH_SIZE /\
   ceil_div (length pmids) BATCH_SIZE * BATCH_SIZE
     < length pmids + BATCH_SIZE)
  /\ (length (batches pmids) = ceil_div (length pmids) BATCH_SIZE /\
      concat (batches pmids) = pmids /\
      Forall (fun b => 1 <= length b <= BATCH_SIZE) (batches pmids))
  /\ (exists k,
        k <= ceil_div (length pmids) BATCH_SIZE /\
        efetch_log st'
        = efetch_log st ++ map id_param (firstn k (batches pmids)))
  /\ (forall xmls,
        r = Ok xmls ->
        length xmls = ceil_div (length pmids) BATCH_SIZE /\
        efetch_log st' = efetch_log st ++ map id_param (batches pmids) /\
        length (efetch_log st')
        = length (efetch_log st) + ceil_div (length pmids) BATCH_SIZE)
  /\ (length pmids = 0 -> st' = st /\ r = Ok []).
Proof.
  intros H. unfold efetch in H.
  destruct (batches_partition pmids) as (Hlen & Hcat & Hsize).
  assert (Hstarts : length (efetch_starts pmids)
                    = ceil_div (length pmids) BATCH_SIZE).
  { unfold batches in Hlen. now rewrite length_map in Hlen. }
  destruct (efetch_from_log pmids _ _ _ _ H) as (k & Hk & Hlog & Hok).
  assert (Hmap : forall j,
             map (fun start =>
                    id_param (slice pmids start (start + BATCH_SIZE)))
               (firstn j (efetch_starts pmids))
             = map id_param (firstn j (batches pmids))).
  { intros j. unfold batches. now rewrite firstn_map, map_map. }
  split; [apply ceil_div_spec; unfold BATCH_SIZE; lia|].
  split; [auto|]. split; [|split].
  - exists k. split; [lia|]. now rewrite Hlog, Hmap.
  - intros xmls Hx. destruct (Hok xmls Hx) as [-> Hl].
    rewrite Hmap in Hlog. rewrite firstn_all2 in Hlog by lia.
    repeat split; [lia|exact Hlog|].
    rewrite Hlog, length_app, length_map. lia.
  - intros Hn. apply length_zero_iff_nil in Hn. subst pmids.
    simpl in H. now injection H as <- <-.
Qed.

End EfetchRun.

Lemma efetch_batch_count_witness :
  exists st' xmls,
    efetch unit echo_fetch (repeat (txt "1") 401) (Run tt [])
      = (st', Ok xmls) /\
    ceil_div 401 BATCH_SIZE = 3 /\
    length xmls = 3 /\ length (efetch_log st') = 3.
Proof.
  eexists. eexists. split; [vm_compute; reflexivity|].
  split; [reflexivity|].
  destruct (efetch_batch_count unit echo_fetch (repeat (txt "1") 401)
              (Run tt []) _ _ ltac:(vm_compute; reflexivity))
    as (_ & _ & _ & Hok & _).
  destruct (Hok _ eq_refl) as (H1 & _ & H3).
  split; [exact H1|exact H3].
Defined.

(** ** Failures of the pipeline *)

Section FailureProofs.

Variable World : Type.
Variable esearch_request : str -> nat -> World -> World * result (list str).
Variable efetch_request : str -> World -> World * result str.
Variable fromstring : str -> result element.

Lemma fetch_loop_raises (pmids : list str) (starts : list nat)
    (st : run World) (e : exn) :
  batch_raises World efetch_request fromstring pmids starts st e ->
  forall rows,
  exists st',
    fetch_loop World efetch_request fromstring pmids starts rows st
    = (st', Raise e).
Proof.
  induction 1 as [start starts st st1 e Hf
                 |start starts st st1 xml e Hf Hp
                 |start starts st st1 xml new_rows e Hf Hp Hlater IH];
    intros rows; cbn [fetch_loop]; rewrite Hf.
  - now exists st1.
  - rewrite Hp. now exists st1.
  - rewrite Hp. apply IH.
Qed.

Lemma fetch_loop_raises_inv (pmids : list str) :
  forall starts rows st st' e,
    fetch_loop World efetch_request fromstring pmids starts rows st
    = (st', Raise e) ->
    batch_raises World efetch_request fromstring pmids starts st e.
Proof.
  induction starts as [|start starts IH]; intros rows st st' e H;
    cbn [fetch_loop] in H; [discriminate|].
  destruct (efetch_batch World efetch_request pmids start st)
    as [st1 [xml|e1]] eqn:Hf.
  - destruct (parse_articles fromstring xml) as [new_rows|e2] eqn:Hp.
    + eapply later_raises; eauto.
    + injection H as <- <-. eapply parse_raises; eauto.
  - injection H as <- <-. eapply fetch_raises; eauto.
Qed.

(** A run raises [e] exactly when one of its stages raises [e]. *)
Lemma fetch_papers_raises_iff (query : str) (retmax : nat) (st : run World)
    (e : exn) :
  (exists st',
     fetch_papers World esearch_request efetch_request fromstring
       query retmax st = (st', Raise e))
  <-> stage_raises World esearch_request efetch_request fromstring
        query retmax st e.
Proof.
  unfold fetch_papers. split.
  - intros (st' & H).
    destruct (esearch World esearch_request query retmax st)
      as [st1 [pmids|e1]] eqn:Hs.
    + eapply loop_raises; eauto. eapply fetch_loop_raises_inv; eauto.
    + injection H as <- <-. eapply search_raises; eauto.
  - intros [st1 Hs|st1 pmids Hs Hb]; rewrite Hs.
    + now exists st1.
    + now apply fetch_loop_raises.
Qed.

(** C8. If a stage of the pipeline fails (the search, the request for a
    batch, or the parsing of a batch), [fetch_papers] fails with the error
    of that stage, unchanged, and returns no report. *)
Theorem failure_propagates (query : str) (retmax : nat) (st : run World)
    (e : exn) :
  stage_raises World esearch_request efetch_request fromstring
    query retmax st e ->
  (exists st',
     fetch_papers World esearch_request efetch_request fromstring
       query retmax st = (st', Raise e))
  /\ (forall st' rows,
        fetch_papers World esearch_request efetch_request fromstring
          query retmax st <> (st', Ok rows)).
Proof.
  intros H. apply fetch_papers_raises_iff in H as (st' & H).
  split; [now exists st'|]. intros st'' rows H'. congruence.
Qed.

End FailureProofs.

Lemma failure_propagates_witness :
  exists st',
    fetch_papers unit one_hit_search refusing_fetch sample_fromstring
      (txt "crispr") 1000 (Run tt [])
    = (st', Raise (HTTPError 500)).
Proof.
  apply (failure_propagates unit one_hit_search refusing_fetch
           sample_fromstring (txt "crispr") 1000 (Run tt [])
           (HTTPError 500)).
  eapply loop_raises; [reflexivity|].
  change (efetch_starts [txt "123"]) with [0].
  eapply fetch_raises. reflexivity.
Defined.

(* ------------------------------------------------------------------------- *)
(** * Further properties of the pipeline                                       *)
(* ------------------------------------------------------------------------- *)

Section PipelineRuns.

Variable World : Type.
Variable esearch_request : str -> nat -> World -> World * result (list str).
Variable efetch_request : str -> World -> World * result str.
Variable fromstring : str -> result element.

Lemma esearch_log (query : str) (retmax : nat) (st st1 : run World)
    (r : result (list str)) :
  esearch World esearch_request query retmax st = (st1, r) ->
  efetch_log st1 = efetch_log st.
Proof.
  unfold esearch. destruct (esearch_request query retmax (world st)).
  intros H. now injection H as <- _.
Qed.

Lemma efetch_batch_request (pmids : list str) (start : nat)
    (st st1 : run World) (r : result str) :
  efetch_batch World efetch_request pmids start st = (st1, r) ->
  efetch_request (id_param (slice pmids start (start + BATCH_SIZE)))
    (world st) = (world st1, r).
Proof.
  unfold efetch_batch, id_param.
  destruct (efetch_request _ (world st)) as [w r']. intros H.
  now injection H as <- <-.
Qed.

Lemma batches_prefix (pmids : list str) (j : nat) :
  map (fun start => id_param (slice pmids start (start + BATCH_SIZE)))
    (firstn j (efetch_starts pmids))
  = map id_param (firstn j (batches pmids)).
Proof. unfold batches. now rewrite firstn_map, map_map. Qed.

Lemma batches_nth (pmids : list str) (k start : nat) :
  nth_error (efetch_starts pmids) k = Some start ->
  nth_error (batches pmids) k
  = Some (slice pmids start (start + BATCH_SIZE)).
Proof.
  intros H. unfold batches.
  exact (map_nth_error
           (fun start => slice pmids start (start + BATCH_SIZE)) k _ H).
Qed.

(** The batch loop succeeds exactly when every request succeeds and every
    batch parses; its rows are those of the batches, in order. *)
Lemma fetch_loop_ok (pmids : list str) :
  forall starts rows st st' out,
    fetch_loop World efetch_request fromstring pmids starts rows st
    = (st', Ok out)
    <-> exists xmls rowss,
          efetch_from World efetch_request pmids starts st = (st', Ok xmls) /\
          Forall2 (fun xml rs => parse_articles fromstring xml = Ok rs)
            xmls rowss /\
          out = rows ++ concat rowss.
Proof.
  induction starts as [|start starts IH]; intros rows st st' out;
    cbn [fetch_loop efetch_from].
  - split.
    + intros H. injection H as <- <-. exists [], []. simpl.
      rewrite app_nil_r. repeat split. constructor.
    + intros (xmls & rowss & H & HF & ->). injection H as <- <-.
      inversion HF; subst. simpl. now rewrite app_nil_r.
  - destruct (efetch_batch World efetch_request pmids start st)
      as [st1 [xml|e]] eqn:Hf.
    + split.
      * destruct (parse_articles fromstring xml) as [new_rows|e] eqn:Hp;
          [|discriminate].
        intros H. apply IH in H as (xmls & rowss & He & HF & ->).
        rewrite He. exists (xml :: xmls), (new_rows :: rowss).
        repeat split; [now constructor|].
        simpl. now rewrite app_assoc.
      * intros (xmls & rowss & H & HF & ->).
        destruct (efetch_from World efetch_request pmids starts st1)
          as [st2 [xmls2|e]] eqn:He; [|discriminate].
        injection H as <- <-. inversion HF as [|? rs ? rowss' Hp HF']; subst.
        rewrite Hp. apply IH. exists xmls2, rowss'.
        repeat split; auto. simpl. now rewrite app_assoc.
    + split; [discriminate|].
      intros (xmls & rowss & H & _). discriminate.
Qed.

(** X1. [fetch_papers] returns a DataFrame exactly when the search, every
    EFetch request and the parsing of every batch succeed.  Its rows are
    then the rows of the batches, in batch order; the run has issued the
    requests for all the [ceil(n / 200)] batches of the identifiers found,
    and the interleaved loop has fetched what [list(efetch(pmids))]
    fetches. *)
Theorem fetch_papers_report (query : str) (retmax : nat) (st st' : run World)
    (rows : list row) :
  fetch_papers World esearch_request efetch_request fromstring
    query retmax st = (st', Ok rows)
  <-> exists st1 pmids xmls rowss,
        esearch World esearch_request query retmax st = (st1, Ok pmids) /\
        efetch World efetch_request pmids st1 = (st', Ok xmls) /\
        Forall2 (fun xml rs => parse_articles fromstring xml = Ok rs)
          xmls rowss /\
        rows = concat rowss /\
        length xmls = ceil_div (length pmids) BATCH_SIZE /\
        efetch_log st' = efetch_log st ++ map id_param (batches pmids).
Proof.
  unfold fetch_papers, efetch. split.
  - destruct (esearch World esearch_request query retmax st)
      as [st1 [pmids|e]] eqn:Hs; [|discriminate].
    intros H. apply fetch_loop_ok in H as (xmls & rowss & He & HF & ->).
    exists st1, pmids, xmls, rowss. repeat split; auto.
    + destruct (efetch_from_log World efetch_request pmids _ _ _ _ He)
        as (k & _ & _ & Hok).
      destruct (Hok xmls eq_refl) as [_ Hl]. rewrite Hl.
      destruct (batches_partition pmids) as [Hb _].
      unfold batches in Hb. now rewrite length_map in Hb.
    + destruct (efetch_from_log World efetch_request pmids _ _ _ _ He)
        as (k & _ & Hlog & Hok).
      destruct (Hok xmls eq_refl) as [-> _].
      rewrite batches_prefix, firstn_all2 in Hlog.
      * rewrite Hlog. f_equal. eapply esearch_log; eauto.
      * unfold batches. now rewrite length_map.
  - intros (st1 & pmids & xmls & rowss & Hs & He & HF & -> & _).
    rewrite Hs. apply fetch_loop_ok. exists xmls, rowss. auto.
Qed.

(** The batch loop fails at one batch: the requests issued are those of the
    batches up to it, and its request or its parsing raised the error. *)
Lemma fetch_loop_fails (pmids : list str) :
  forall starts rows st st' e,
    fetch_loop World efetch_request fromstring pmids starts rows st
    = (st', Raise e) ->
    exists k start w r,
      nth_error starts k = Some start /\
      efetch_log st'
      = efetch_log st
        ++ map (fun start =>
                  id_param (slice pmids start (start + BATCH_SIZE)))
             (firstn (S k) starts) /\
      efetch_request (id_param (slice pmids start (start + BATCH_SIZE))) w
      = (world st', r) /\
      (r = Raise e \/
       exists xml, r = Ok xml /\ parse_articles fromstring xml = Raise e).
Proof.
  induction starts as [|start starts IH]; intros rows st st' e H;
    cbn [fetch_loop] in H; [discriminate|].
  destruct (efetch_batch World efetch_request pmids start st)
    as [st1 [xml|e1]] eqn:Hf.
  - pose proof (efetch_batch_log World efetch_request _ _ _ _ _ Hf) as Hlog.
    destruct (parse_articles fromstring xml) as [new_rows|e2] eqn:Hp.
    + apply IH in H as (k & s & w & r & Hn & Hl & Hr & Hwhy).
      exists (S k), s, w, r. repeat split; auto.
      rewrite Hl, Hlog, <- app_assoc. reflexivity.
    + injection H as <- <-. exists 0, start, (world st), (Ok xml).
      repeat split; auto.
      * now apply efetch_batch_request.
      * right. eauto.
  - pose proof (efetch_batch_log World efetch_request _ _ _ _ _ Hf) as Hlog.
    injection H as <- <-. exists 0, start, (world st), (Raise e1).
    repeat split; auto. now apply efetch_batch_request.
Qed.

(** X2. When [fetch_papers] fails, either the search raised the error and
    no EFetch request was issued, or the search succeeded and the run
    stopped at one batch: the requests issued are exactly those of the
    batches up to that one, in order, and the error was raised by the
    request for that batch or by the parsing of its answer.  In particular
    a batch that does not parse keeps the next batch from being
    requested. *)
Theorem fetch_papers_stops_at_failure (query : str) (retmax : nat)
    (st st' : run World) (e : exn) :
  fetch_papers World esearch_request efetch_request fromstring
    query retmax st = (st', Raise e) ->
  (esearch World esearch_request query retmax st = (st', Raise e) /\
   efetch_log st' = efetch_log st)
  \/ (exists st1 pmids k batch w r,
        esearch World esearch_request query retmax st = (st1, Ok pmids) /\
        nth_error (batches pmids) k = Some batch /\
        efetch_log st'
        = efetch_log st ++ map id_param (firstn (S k) (batches pmids)) /\
        efetch_request (id_param batch) w = (world st', r) /\
        (r = Raise e \/
         exists xml,
           r = Ok xml /\ parse_articles fromstring xml = Raise e)).
Proof.
  unfold fetch_papers.
  destruct (esearch World esearch_request query retmax st)
    as [st1 [pmids|e1]] eqn:Hs; intros H.
  - right. apply fetch_loop_fails in H
      as (k & start & w & r & Hn & Hl & Hr & Hwhy).
    exists st1, pmids, k, (slice pmids start (start + BATCH_SIZE)), w, r.
    repeat split; auto.
    + now apply batches_nth.
    + rewrite Hl, batches_prefix. f_equal. eapply esearch_log; eauto.
  - injection H as <- <-. left. split; auto. eapply esearch_log; eauto.
Qed.

End PipelineRuns.

Lemma fetch_papers_stops_at_failure_witness :
  exists st',
    fetch_papers unit many_hit_search echo_fetch rejecting_fromstring
      (txt "crispr") 1000 (Run tt [])
    = (st', Raise (XMLSyntaxError "Document is empty")) /\
    length (batches (repeat (txt "1") 201)) = 2 /\
    length (efetch_log st') = 1.
Proof.
  eexists. split; [vm_compute; reflexivity|]. split; [reflexivity|].
  destruct (fetch_papers_stops_at_failure unit many_hit_search echo_fetch
              rejecting_fromstring (txt "crispr") 1000 (Run tt []) _ _
              ltac:(vm_compute; reflexivity))
    as [[Hs _]|(st1 & pmids & k & batch & w & r & Hs & Hn & Hl & _)].
  - discriminate.
  - reflexivity.
Defined.

Section EfetchStops.

Variable World : Type.
Variable efetch_request : str -> World -> World * result str.

(** X3. When a request of [efetch] fails ([raise_for_status()] raises), the
    generator ends there with that error: the requests issued are those of
    the batches up to the failing one, in order, and no later batch is
    requested. *)
Theorem efetch_stops_at_failure (pmids : list str) (st st' : run World)
    (e : exn) :
  efetch World efetch_request pmids st = (st', Raise e) ->
  exists k batch w,
    nth_error (batches pmids) k = Some batch /\
    efetch_request (id_param batch) w = (world st', Raise e) /\
    efetch_log st'
    = efetch_log st ++ map id_param (firstn (S k) (batches pmids)).
Proof.
  unfold efetch. intros H.
  assert (Hgen : forall starts st0,
             efetch_from World efetch_request pmids starts st0
             = (st', Raise e) ->
             exists k start w,
               nth_error starts k = Some start /\
               efetch_request
                 (id_param (slice pmids start (start + BATCH_SIZE))) w
               = (world st', Raise e) /\
               efetch_log st'
               = efetch_log st0
                 ++ map (fun start =>
                           id_param
                             (slice pmids start (start + BATCH_SIZE)))
                      (firstn (S k) starts)).
  { induction starts as [|start starts IH]; intros st0 H0;
      cbn [efetch_from] in H0; [discriminate|].
    destruct (efetch_batch World efetch_request pmids start st0)
      as [st1 [xml|e1]] eqn:Hf.
    - pose proof (efetch_batch_log World efetch_request _ _ _ _ _ Hf)
        as Hlog.
      destruct (efetch_from World efetch_request pmids starts st1)
        as [st2 [xmls|e2]] eqn:He; [discriminate|].
      injection H0 as -> ->.
      destruct (IH _ He) as (k & s & w & Hn & Hr & Hl).
      exists (S k), s, w. repeat split; auto.
      rewrite Hl, Hlog, <- app_assoc. reflexivity.
    - pose proof (efetch_batch_log World efetch_request _ _ _ _ _ Hf)
        as Hlog.
      injection H0 as <- <-. exists 0, start, (world st0).
      repeat split; auto.
      now apply (efetch_batch_request World efetch_request) in Hf. }
  destruct (Hgen _ _ H) as (k & start & w & Hn & Hr & Hl).
  exists k, (slice pmids start (start + BATCH_SIZE)), w.
  repeat split; auto.
  - now apply batches_nth.
  - now rewrite Hl, batches_prefix.
Qed.

End EfetchStops.

Lemma efetch_stops_at_failure_witness :
  exists st',
    efetch unit refusing_fetch (repeat (txt "1") 401) (Run tt [])
    = (st', Raise (HTTPError 500)) /\
    length (batches (repeat (txt "1") 401)) = 3 /\
    length (efetch_log st') = 1.
Proof.
  eexists. split; [vm_compute; reflexivity|]. split; [reflexivity|].
  destruct (efetch_stops_at_failure unit refusing_fetch
              (repeat (txt "1") 401) (Run tt []) _ _
              ltac:(vm_compute; reflexivity)) as (k & batch & w & _).
  reflexivity.
Defined.

(** ** The command line *)

Section MainProofs.

Variable World : Type.
Variable esearch_request : str -> nat -> World -> World * result (list str).
Variable efetch_request : str -> World -> World * result str.
Variable fromstring : str -> result element.
Variable perform : event -> result unit.
Variable to_csv : list row -> str.

Lemma perform_all_done (evs : list event) :
  succeed perform evs -> perform_all perform evs = (evs, Returned).
Proof.
  induction 1 as [|ev evs Hev _ IH]; simpl; auto.
  now rewrite Hev, IH.
Qed.

Lemma perform_all_prefix (evs : list event) :
  exists rest,
    evs = fst (perform_all perform evs) ++ rest /\
    forall code, snd (perform_all perform evs) <> SystemExit code.
Proof.
  induction evs as [|ev evs (rest & Heq & Hhow)]; simpl.
  - exists []. split; [reflexivity|discriminate].
  - destruct (perform ev) as [u|e]; simpl.
    + destruct (perform_all perform evs) as [done how]. simpl in *.
      exists rest. split; [now f_equal|exact Hhow].
    + exists (ev :: evs). split; [reflexivity|discriminate].
Qed.

Lemma save_or_print_prefix (df : list row) (filename : option str) :
  exists rest,
    intended to_csv df filename
    = fst (save_or_print perform to_csv df filename) ++ rest /\
    forall code,
      snd (save_or_print perform to_csv df filename) <> SystemExit code.
Proof.
  unfold intended, save_or_print.
  destruct filename as [[|c f]|]; destruct df as [|r df];
    apply perform_all_prefix.
Qed.

Lemma save_or_print_done (df : list row) (filename : option str) :
  succeed perform (intended to_csv df filename) ->
  save_or_print perform to_csv df filename
  = (intended to_csv df filename, Returned).
Proof.
  unfold intended, save_or_print.
  destruct filename as [[|c f]|]; destruct df as [|r df];
    apply perform_all_done.
Qed.

(** X4. When the query cannot be shown, [main] ends with that error
    before any request is made.  When the query has been shown and a stage
    of the pipeline raises, [main] does not return: it shows the error and
    exits with status 1, or ends with the error raised while showing it;
    it writes no file and prints no CSV. *)
Theorem main_reports_failure (args : Cli.namespace) (st : run World) :
  (forall e0,
     perform (QueryShown (Cli.query args)) = Raise e0 ->
     Cli.main World esearch_request efetch_request fromstring perform to_csv
       args st
     = (st, [], Raised e0))
  /\ (forall e,
        perform (QueryShown (Cli.query args)) = Ok tt ->
        stage_raises World esearch_request efetch_request fromstring
          (Cli.query args) (Cli.limit args) st e ->
        exists st' events how,
          Cli.main World esearch_request efetch_request fromstring perform
            to_csv args st
          = (st', events, how) /\
          how <> Returned /\
          ~ writes_file events /\ ~ prints_csv events /\
          (perform (ErrorShown e) = Ok tt ->
           events = [QueryShown (Cli.query args); ErrorShown e] /\
           how = SystemExit 1) /\
          (forall e',
             perform (ErrorShown e) = Raise e' ->
             events = [QueryShown (Cli.query args)] /\ how = Raised e')).
Proof.
  split.
  - intros e0 H. unfold Cli.main. now rewrite H.
  - intros e Hq H.
    apply (fetch_papers_raises_iff World esearch_request efetch_request
             fromstring) in H as (st' & H).
    unfold Cli.main. rewrite Hq, H.
    destruct (perform (ErrorShown e)) as [[]|e'] eqn:E.
    + exists st', [QueryShown (Cli.query args); ErrorShown e], (SystemExit 1).
      split; [reflexivity|]. split; [discriminate|].
      split; [intros (f & csv & [Hin|[Hin|[]]]); discriminate|].
      split; [intros (csv & [Hin|[Hin|[]]]); discriminate|].
      split; [intros _; split; reflexivity|discriminate].
    + exists st', [QueryShown (Cli.query args)], (Raised e').
      split; [reflexivity|]. split; [discriminate|].
      split; [intros (f & csv & [Hin|[]]); discriminate|].
      split; [intros (csv & [Hin|[]]); discriminate|].
      split; [discriminate|].
      intros e'' Heq. injection Heq as <-. split; reflexivity.
Qed.

(** X5. When the query has been shown and the pipeline returns a
    DataFrame, [main] hands the DataFrame to [save_or_print] and ends as it
    does, never through [sys.exit].  The output is a leading part of what
    is intended, and all of it, with [main] returning, when no call fails.
    Intended are, with a non-empty file name, the CSV of the DataFrame
    written to that file and the report of the number of rows, also for a
    DataFrame without rows; with no file name, or an empty one, the notice
    that nothing matched for a DataFrame without rows, and the DataFrame
    printed as CSV otherwise.  A file is written only with a file name, a
    CSV is printed only without one, and when writing the file fails
    nothing is reported as saved. *)
Theorem main_saves_or_prints (args : Cli.namespace) (st st' : run World)
    (df : list row) :
  perform (QueryShown (Cli.query args)) = Ok tt ->
  fetch_papers World esearch_request efetch_request fromstring
    (Cli.query args) (Cli.limit args) st = (st', Ok df) ->
  exists out how,
    Cli.main World esearch_request efetch_request fromstring perform to_csv
      args st
    = (st', QueryShown (Cli.query args) :: out, how) /\
    (out, how) = save_or_print perform to_csv df (Cli.file args) /\
    (exists rest, intended to_csv df (Cli.file args) = out ++ rest) /\
    (forall code, how <> SystemExit code) /\
    (succeed perform (intended to_csv df (Cli.file args)) ->
     out = intended to_csv df (Cli.file args) /\ how = Returned) /\
    (truthy_opt (Cli.file args) = true ->
     exists filename,
       Cli.file args = Some filename /\
       intended to_csv df (Cli.file args)
       = [ FileWritten filename (to_csv df);
           SavedShown (length df) filename ] /\
       forall e,
         perform (FileWritten filename (to_csv df)) = Raise e ->
         out = [] /\ how = Raised e) /\
    (truthy_opt (Cli.file args) = false ->
     (df = [] -> intended to_csv df (Cli.file args) = [NoMatchShown]) /\
     (df <> [] ->
      intended to_csv df (Cli.file args) = [CsvPrinted (to_csv df)])) /\
    (writes_file out -> truthy_opt (Cli.file args) = true) /\
    (prints_csv out -> truthy_opt (Cli.file args) = false /\ df <> []).
Proof.
  intros Hq H.
  destruct (save_or_print perform to_csv df (Cli.file args))
    as [out how] eqn:E.
  exists out, how. unfold Cli.main. rewrite Hq, H, E.
  split; [reflexivity|]. split; [reflexivity|].
  destruct (save_or_print_prefix df (Cli.file args)) as (rest & Hp & Hhow).
  rewrite E in Hp, Hhow. simpl in Hp, Hhow.
  split; [now exists rest|]. split; [exact Hhow|]. split.
  { intros Hs. apply save_or_print_done in Hs. rewrite E in Hs.
    now injection Hs as -> ->. }
  assert (Hin : forall ev, In ev out ->
                           In ev (intended to_csv df (Cli.file args))).
  { intros ev Hev. rewrite Hp. apply in_or_app. now left. }
  clear Hp Hhow. unfold save_or_print in E. unfold intended in *.
  destruct (Cli.file args) as [[|c f]|]; simpl in *.
  - split; [discriminate|]. split.
    { intros _. split; [intros ->; reflexivity|].
      intros Hne. destruct df; [congruence|reflexivity]. }
    split.
    { intros (fn & csv & Hw). apply Hin in Hw.
      destruct df; simpl in Hw; destruct Hw as [Hw|[]]; discriminate. }
    intros (csv & Hw). split; [reflexivity|]. intros ->. apply Hin in Hw.
    simpl in Hw. destruct Hw as [Hw|[]]; discriminate.
  - split.
    { intros _. exists (c :: f). split; [reflexivity|].
      split; [reflexivity|]. intros e He. rewrite He in E.
      injection E as <- <-. split; reflexivity. }
    split; [discriminate|]. split; [reflexivity|].
    intros (csv & Hw). apply Hin in Hw. simpl in Hw.
    destruct Hw as [Hw|[Hw|[]]]; discriminate.
  - split; [discriminate|]. split.
    { intros _. split; [intros ->; reflexivity|].
      intros Hne. destruct df; [congruence|reflexivity]. }
    split.
    { intros (fn & csv & Hw). apply Hin in Hw.
      destruct df; simpl in Hw; destruct Hw as [Hw|[]]; discriminate. }
    intros (csv & Hw). split; [reflexivity|]. intros ->. apply Hin in Hw.
    simpl in Hw. destruct Hw as [Hw|[]]; discriminate.
Qed.

End MainProofs.

Lemma main_reports_failure_witness :
  Cli.main unit one_hit_search refusing_fetch sample_fromstring
    strict_markup (fun _ => txt "csv")
    (Cli.Namespace (txt "x[/y]") (Some (txt "out.csv")) false 1000)
    (Run tt [])
  = (Run tt [], [],
     Raised (MarkupError "closing tag '[/y]' doesn't match any open tag"))
  /\ exists st',
       Cli.main unit one_hit_search refusing_fetch sample_fromstring
         obliging (fun _ => txt "csv")
         (Cli.Namespace (txt "crispr") (Some (txt "out.csv")) false 1000)
         (Run tt [])
       = (st', [QueryShown (txt "crispr"); ErrorShown (HTTPError 500)],
          SystemExit 1).
Proof.
  split.
  - apply (proj1 (main_reports_failure unit one_hit_search refusing_fetch
                    sample_fromstring strict_markup (fun _ => txt "csv")
                    (Cli.Namespace (txt "x[/y]") (Some (txt "out.csv"))
                       false 1000)
                    (Run tt []))).
    reflexivity.
  - destruct (proj2 (main_reports_failure unit one_hit_search refusing_fetch
                       sample_fromstring obliging (fun _ => txt "csv")
                       (Cli.Namespace (txt "crispr") (Some (txt "out.csv"))
                          false 1000)
                       (Run tt []))
                (HTTPError 500) eq_refl)
      as (st' & events & how & Hm & _ & _ & _ & Hshown & _).
    + eapply loop_raises; [reflexivity|].
      change (efetch_starts [txt "123"]) with [0].
      eapply fetch_raises. reflexivity.
    + destruct (Hshown eq_refl) as [-> ->]. exists st'. exact Hm.
Defined.

Lemma main_saves_or_prints_witness :
  exists st' out,
    Cli.main unit one_hit_search echo_fetch sample_fromstring
      obliging (fun _ => txt "csv")
      (Cli.Namespace (txt "crispr") (Some (txt "out.csv")) false 1000)
      (Run tt [])
    = (st', QueryShown (txt "crispr") :: out, Returned) /\
    out = [FileWritten (txt "out.csv") (txt "csv");
           SavedShown 1 (txt "out.csv")].
Proof.
  destruct (main_saves_or_prints unit one_hit_search echo_fetch
              sample_fromstring obliging (fun _ => txt "csv")
              (Cli.Namespace (txt "crispr") (Some (txt "out.csv")) false 1000)
              (Run tt []) _ _ eq_refl ltac:(vm_compute; reflexivity))
    as (out & how & Hm & _ & _ & _ & Hdone & _).
  destruct Hdone as [-> ->].
  - repeat constructor.
  - eexists. eexists. split; [exact Hm|reflexivity].
Defined.

(* ------------------------------------------------------------------------- *)
(** * Further properties of the parsing helpers                                *)
(* ------------------------------------------------------------------------- *)

(** ** The e-mail address found *)

Lemma email_local_char (c : char) :
  email_local c = true -> c <> at_sign /\ isspace c = false.
Proof.
  unfold email_local, email_domain, one_of, at_sign, code. simpl.
  intros H. split; char_lia.
Qed.

Lemma email_domain_char (c : char) :
  email_domain c = true -> c <> at_sign /\ isspace c = false.
Proof.
  unfold email_local, email_domain, one_of, at_sign, code. simpl.
  intros H. split; char_lia.
Qed.

Lemma is_alpha_char (c : char) :
  is_alpha c = true -> c <> at_sign /\ isspace c = false.
Proof.
  unfold email_local, email_domain, one_of, at_sign, code. simpl.
  intros H. split; char_lia.
Qed.

Lemma email_matches_shape (e : str) : matches EMAIL_RE e -> email_shape e.
Proof.
  intros (a & [<-|[]] & Hm).
  cbv [Re.plus Re.once Re.at_least] in Hm.
  apply matches_cons_inv in Hm as (l & w & -> & Hl & Hlo & _ & Hm).
  apply matches_once_inv in Hm as (x & w' & -> & Hx & Hm).
  apply matches_cons_inv in Hm as (d & w & -> & Hd & Hdlo & _ & Hm).
  apply matches_once_inv in Hm as (y & w'' & -> & Hy & Hm).
  apply matches_cons_inv in Hm as (t & w & -> & Ht & Htlo & _ & Hm).
  apply matches_nil_inv in Hm. subst w. rewrite app_nil_r.
  unfold Re.is_char, char_eqb in Hx, Hy.
  apply N.eqb_eq in Hx, Hy. subst x y. simpl in *.
  exists l, d, t. repeat split; auto.
  - intros ->. simpl in Hlo. lia.
  - intros ->. simpl in Hdlo. lia.
Qed.

Lemma count_none (l : str) :
  Forall (fun c => c <> at_sign) l -> count_occ N.eq_dec l at_sign = 0.
Proof.
  intros H. apply count_occ_not_In. intros Hin.
  rewrite Forall_forall in H. now apply (H at_sign).
Qed.

(** X6. The address returned by [first_email] is a part of the text of the
    form local-part, [@], domain, dot and at least two letters: it has at
    least six characters, exactly one [@] and no blank.  A text without
    [@] has no address. *)
Theorem first_email_shape (text : str) :
  (forall e,
     first_email text = Some e ->
     infix e text /\ email_shape e /\ 6 <= length e /\
     count_occ N.eq_dec e at_sign = 1 /\
     Forall (fun c => isspace c = false) e)
  /\ (~ In at_sign text -> first_email text = None).
Proof.
  assert (Hshape : forall e,
             first_email text = Some e ->
             infix e text /\ email_shape e /\ 6 <= length e /\
             count_occ N.eq_dec e at_sign = 1 /\
             Forall (fun c => isspace c = false) e).
  { intros e H. apply first_email_matches in H as [Hm Hi].
    split; auto. apply email_matches_shape in Hm as Hs.
    split; auto.
    destruct Hs as (l & d & t & -> & Hl & Hlc & Hd & Hdc & Ht & Htc).
    assert (Hl' : Forall (fun c => c <> at_sign /\ isspace c = false) l)
      by (eapply Forall_impl; [|exact Hlc]; apply email_local_char).
    assert (Hd' : Forall (fun c => c <> at_sign /\ isspace c = false) d)
      by (eapply Forall_impl; [|exact Hdc]; apply email_domain_char).
    assert (Ht' : Forall (fun c => c <> at_sign /\ isspace c = false) t)
      by (eapply Forall_impl; [|exact Htc]; apply is_alpha_char).
    apply Forall_and_inv in Hl' as [Hl1 Hl2].
    apply Forall_and_inv in Hd' as [Hd1 Hd2].
    apply Forall_and_inv in Ht' as [Ht1 Ht2].
    split; [|split].
    - rewrite length_app. cbn [length]. rewrite length_app. cbn [length].
      destruct l; [congruence|]. destruct d; [congruence|].
      cbn [length]. lia.
    - rewrite count_occ_app, count_none by exact Hl1.
      rewrite count_occ_cons_eq by reflexivity.
      rewrite count_occ_app, count_none by exact Hd1.
      rewrite count_occ_cons_neq by discriminate.
      now rewrite count_none.
    - apply Forall_app. split; auto. constructor; [reflexivity|].
      apply Forall_app. split; auto. }
  split; [exact Hshape|].
  intros Hno. destruct (first_email text) as [e|] eqn:E; auto.
  exfalso. apply Hno.
  destruct (Hshape e eq_refl) as ((pre & post & ->) & Hs & _).
  destruct Hs as (l & d & t & -> & _).
  apply in_or_app. right. apply in_or_app. left.
  apply in_or_app. right. now left.
Qed.

(** ** What the row holds *)

Lemma placeholder_clean : clean Textwrap.placeholder.
Proof.
  unfold clean, Textwrap.placeholder.
  repeat (constructor; [first [now left|now right]|]). constructor.
Qed.

Lemma shortened_bounds (title : str) :
  length (shortened title) <= 200 /\ clean (shortened title).
Proof.
  destruct (Nat.le_gt_cases (length (Textwrap.collapse title)) 200)
    as [Hle|Hgt].
  - unfold shortened. rewrite shorten_fits by exact Hle.
    split; [exact Hle|apply collapse_shape].
  - destruct (shorten_truncates title Hgt) as (out & Ho & Hlen & Hcut).
    unfold shortened. rewrite Ho. split; [exact Hlen|].
    destruct Hcut as [(p & post & Hp & ->)| ->].
    + pose proof (proj1 (collapse_shape title)) as Hc.
      rewrite Hp in Hc. unfold clean in *.
      apply Forall_app in Hc as [Hc _].
      apply Forall_app. split; [exact Hc|apply placeholder_clean].
    + unfold clean. repeat (constructor; [first [now left|now right]|]).
      constructor.
Qed.

(** X7. The "Title" of an emitted row has at most 200 characters, and its
    only blanks are spaces: it holds no line break and no tab, whatever the
    title of the record. *)
Theorem title_bounded_single_line (art : element) (r : row) :
  emits art r ->
  length (Title r) <= 200 /\
  Forall (fun c => c = space \/ isspace c = false) (Title r).
Proof.
  intros H. apply emits_iff in H as [_ ->]. simpl.
  apply shortened_bounds.
Qed.

Lemma title_bounded_single_line_witness :
  exists r,
    emits (titled_record "a  b") r /\ length (Title r) <= 200.
Proof.
  eexists. split; [reflexivity|].
  exact (proj1 (title_bounded_single_line (titled_record "a  b") _ eq_refl)).
Defined.

(** ** Missing fields *)

Lemma lstrip_blank (s : str) :
  Forall (fun c => isspace c = true) s -> lstrip s = [].
Proof.
  induction 1 as [|c s Hc Hs IH]; simpl; auto. now rewrite Hc.
Qed.

Lemma collapse_blank (s : str) :
  Forall (fun c => isspace c = true) s -> Textwrap.collapse s = [].
Proof.
  intros H. unfold Textwrap.collapse, strip, rstrip.
  now rewrite (lstrip_blank s H).
Qed.

Lemma findtext_desc_absent (name : string) (art : element) :
  find_desc name art = None -> findtext_desc name art = None.
Proof. unfold findtext_desc. now intros ->. Qed.

(** X8. The fields that a record lacks.  Without a [PMID] element the row
    is emitted all the same, with no identifier (no sentinel takes its
    place).  Without an [ArticleTitle] element, or with one that has no
    text, the title is the sentinel ["N/A"].  A title made of blanks only
    is not replaced by the sentinel: the emitted title is the empty
    string. *)
Theorem missing_identifier_and_title (art : element) (r : row) :
  emits art r ->
  (find_desc "PMID" art = None -> PubmedID r = None)
  /\ (find_desc "ArticleTitle" art = None -> Title r = NA)
  /\ (forall el,
        find_desc "ArticleTitle" art = Some el ->
        text el = None \/ text el = Some [] ->
        Title r = NA)
  /\ (forall el s,
        find_desc "ArticleTitle" art = Some el ->
        text el = Some s -> s <> [] ->
        Forall (fun c => isspace c = true) s ->
        Title r = []).
Proof.
  intros H. apply emits_iff in H as [_ ->]. simpl. repeat split.
  - intros Hn. now apply findtext_desc_absent.
  - intros Hn. unfold title_of. rewrite findtext_desc_absent by exact Hn.
    reflexivity.
  - intros el Hel Ht. unfold title_of, findtext_desc. rewrite Hel. simpl.
    destruct Ht as [-> | ->]; reflexivity.
  - intros el s Hel Ht Hne Hb. unfold title_of, findtext_desc.
    rewrite Hel. simpl. rewrite Ht.
    destruct s as [|c s]; [congruence|]. simpl.
    unfold shortened. rewrite shorten_fits.
    + now apply collapse_blank.
    + rewrite collapse_blank by exact Hb. simpl. lia.
Qed.

Lemma missing_identifier_and_title_witness :
  exists r,
    emits bare_record r /\ PubmedID r = None /\ Title r = txt "N/A".
Proof.
  eexists. split; [reflexivity|].
  destruct (missing_identifier_and_title bare_record _ eq_refl)
    as (Hid & Ht & _).
  split; [exact (Hid eq_refl)|exact (Ht eq_refl)].
Defined.

(** ** Trimmed entries and fields that are never empty *)

Lemma lstrip_shape (s : str) : lstrip s = [] \/ starts_nonblank (lstrip s).
Proof.
  induction s as [|c s IH]; simpl; auto.
  destruct (isspace c) eqn:E; auto. right. exists c, s. auto.
Qed.

Lemma lstrip_snoc (l : str) (c : char) :
  isspace c = false -> exists y, lstrip (l ++ [c]) = y ++ [c].
Proof.
  intros Hc. induction l as [|x l IH]; simpl.
  - rewrite Hc. now exists [].
  - destruct (isspace x); auto. now exists (x :: l).
Qed.

Lemma strip_trimmed (s : str) : trimmed (strip s).
Proof.
  unfold trimmed, strip, rstrip.
  destruct (lstrip_shape s) as [->|(c & m & -> & Hc)]; [now left|].
  right. simpl rev.
  destruct (lstrip_snoc (rev m) c Hc) as (y & Hy). rewrite Hy.
  destruct (lstrip_shape (rev m ++ [c])) as [He|(d & z & Hz & Hd)].
  - rewrite Hy in He. now destruct y.
  - split.
    + rewrite rev_app_distr. simpl. exists c, (rev y). auto.
    + rewrite <- Hy, Hz. simpl. exists (rev z), d. auto.
Qed.

Lemma or_else_nonempty (x : option str) (d : str) :
  d <> [] -> or_else x d <> [].
Proof.
  intros Hd. destruct x as [[|c s]|]; simpl; auto. discriminate.
Qed.

Lemma join_nonempty (sep : str) (parts : list str) :
  (exists p, In p parts) -> Forall (fun p => p <> []) parts ->
  join sep parts <> [].
Proof.
  intros (p & Hp) Hall. destruct parts as [|q parts]; [destruct Hp|].
  inversion Hall; subst. rewrite join_cons.
  destruct parts; auto. destruct q; [congruence|discriminate].
Qed.

Lemma company_pair_trimmed (art : element) (name affil : str) :
  In (name, affil) (company_pairs art) ->
  trimmed name /\ trimmed affil /\ affil <> [].
Proof.
  unfold company_pairs. rewrite filter_In. intros [Hin Hc]. simpl in Hc.
  unfold scanned in Hin. apply in_flat_map in Hin as (author & _ & Hin).
  unfold author_pairs, affiliations in Hin.
  rewrite map_map in Hin. apply in_map_iff in Hin as (info & Heq & _).
  injection Heq as <- <-. repeat split.
  - apply strip_trimmed.
  - apply strip_trimmed.
  - intros E. rewrite E in Hc. discriminate.
Qed.

(** X9. In an emitted row, every entry of the non-academic-author field is
    a name without blanks at its ends, and every entry of the
    company-affiliation field is a non-empty affiliation without blanks at
    its ends.  The publication date, the company-affiliation field and the
    e-mail field are never empty. *)
Theorem row_entries_trimmed (art : element) (r : row) :
  emits art r ->
  (exists names affils,
     Non_academic_Authors r = join (txt "; ") names /\
     Company_Affiliations r = join (txt "; ") affils /\
     Forall trimmed names /\
     Forall (fun a => a <> [] /\ trimmed a) affils /\
     affils <> [])
  /\ Publication_Date r <> []
  /\ Company_Affiliations r <> []
  /\ Corresponding_Author_Email r <> [].
Proof.
  intros H. apply emits_iff in H as [Hq ->]. simpl.
  assert (Hnames : Forall trimmed
                     (sorted (py_set (map fst (company_pairs art))))).
  { apply Forall_forall. intros x Hx. apply (proj1 (sorted_set_in _ _)) in Hx.
    apply in_map_iff in Hx as ([name affil] & <- & Hin).
    now apply company_pair_trimmed in Hin. }
  assert (Haffils : Forall (fun a => a <> [] /\ trimmed a)
                      (sorted (py_set (map snd (company_pairs art))))).
  { apply Forall_forall. intros x Hx. apply (proj1 (sorted_set_in _ _)) in Hx.
    apply in_map_iff in Hx as ([name affil] & <- & Hin).
    apply company_pair_trimmed in Hin. simpl. tauto. }
  assert (Hsome : exists a,
             In a (sorted (py_set (map snd (company_pairs art))))).
  { destruct (company_pairs art) as [|p pairs] eqn:E.
    - exfalso. rewrite <- qualifies_iff in Hq.
      destruct (scan_authors_spec art) as (H1 & _). rewrite H1, E in Hq.
      discriminate.
    - exists (snd p). apply (proj2 (sorted_set_in _ _)). now left. }
  repeat split.
  - exists (sorted (py_set (map fst (company_pairs art)))),
           (sorted (py_set (map snd (company_pairs art)))).
    repeat split; auto.
    destruct Hsome as (a & Ha). intros E. rewrite E in Ha. destruct Ha.
  - rewrite publication_date_node.
    destruct (date_node art); [apply or_else_nonempty|]; discriminate.
  - apply join_nonempty; auto.
    eapply Forall_impl; [|exact Haffils]. simpl. tauto.
  - apply or_else_nonempty. discriminate.
Qed.

Lemma row_entries_trimmed_witness :
  exists r,
    emits record_zeta_first r /\
    Publication_Date r <> [] /\ Company_Affiliations r <> []
    /\ Corresponding_Author_Email r <> [].
Proof.
  eexists. split; [reflexivity|].
  exact (proj2 (row_entries_trimmed record_zeta_first _ eq_refl)).
Defined.

(** ** Author names *)

Lemma lstrip_start (s : str) : starts_nonblank s -> lstrip s = s.
Proof. intros (c & t & -> & Hc). simpl. now rewrite Hc. Qed.

Lemma strip_unchanged (s : str) :
  starts_nonblank s -> ends_nonblank s -> strip s = s.
Proof.
  intros Hs (t & c & Heq & Hc). unfold strip, rstrip.
  rewrite (lstrip_start s Hs), Heq, rev_app_distr. simpl.
  rewrite Hc. simpl. now rewrite rev_involutive.
Qed.

Lemma lstrip_app (s t : str) :
  lstrip (s ++ t)
  = match lstrip s with [] => lstrip t | _ :: _ => lstrip s ++ t end.
Proof.
  induction s as [|c s IH]; simpl; auto. destruct (isspace c); auto.
Qed.

Lemma strip_space_right (s : str) : strip (s ++ [space]) = strip s.
Proof.
  unfold strip, rstrip. rewrite lstrip_app.
  destruct (lstrip s) as [|c m] eqn:E; [reflexivity|].
  rewrite rev_app_distr. reflexivity.
Qed.

(** X10. The display name of an author is the first name, a space and the
    last name, without blanks at its ends; the first name is the text of
    [ForeName], and that of [Initials] only when [ForeName] is missing or
    empty.  An author without first name is shown by the last name alone
    and an author without last name by the first name alone, with no
    stray space. *)
Theorem author_name_built (author : element) :
  let last := or_else (findtext_child "LastName" author) [] in
  let fore := or_else (findtext_child "ForeName" author) [] in
  let initials := or_else (findtext_child "Initials" author) [] in
  let first := match fore with [] => initials | _ :: _ => fore end in
  trimmed (author_name author)
  /\ (starts_nonblank first -> ends_nonblank last ->
      author_name author = first ++ txt " " ++ last)
  /\ (first = [] -> author_name author = strip last)
  /\ (last = [] -> author_name author = strip first).
Proof.
  cbv zeta. unfold author_name.
  set (last := or_else (findtext_child "LastName" author) []).
  assert (Hfirst :
            or_else (findtext_child "ForeName" author)
              (or_else (findtext_child "Initials" author) [])
            = match or_else (findtext_child "ForeName" author) [] with
              | [] => or_else (findtext_child "Initials" author) []
              | _ :: _ => or_else (findtext_child "ForeName" author) []
              end).
  { destruct (findtext_child "ForeName" author) as [[|c s]|]; reflexivity. }
  rewrite Hfirst.
  set (first := match or_else (findtext_child "ForeName" author) [] with
                | [] => or_else (findtext_child "Initials" author) []
                | _ :: _ => or_else (findtext_child "ForeName" author) []
                end).
  split; [apply strip_trimmed|]. split; [|split].
  - intros (c & t & Hf & Hc) (t' & c' & Hl & Hc').
    apply strip_unchanged.
    + exists c, (t ++ txt " " ++ last). rewrite Hf. auto.
    + exists (first ++ txt " " ++ t'), c'. rewrite Hl.
      now rewrite <- !app_assoc.
  - intros ->. reflexivity.
  - intros ->. rewrite app_nil_r. apply strip_space_right.
Qed.

(** ** The e-mail and the classification *)

(** X11. The e-mail address kept for a record does not depend on the
    classification of the affiliations: whatever the classifier answers,
    it is the first address found in the affiliation strings of all the
    authors, those of academic authors included. *)
Theorem email_ignores_classification (classify : str -> bool)
    (art : element) :
  corr_email (scan_authors classify art)
  = first_found (map snd (scanned art))
  /\ corr_email (scan_authors classify art)
     = corr_email (scan_authors is_company_affil art).
Proof.
  assert (H : forall f,
             corr_email (scan_authors f art)
             = first_found (map snd (scanned art))).
  { intros f. rewrite scan_authors_pairs.
    destruct (scan_pairs_spec f (scanned art) (Scan [] [] None))
      as (_ & _ & H); [intros _; reflexivity|].
    exact H. }
  split; [apply H|]. now rewrite !H.
Qed.

(** ** The classifier, blanks and case *)

Lemma lstrip_split (s : str) :
  exists b, s = b ++ lstrip s /\ Forall (fun c => isspace c = true) b.
Proof.
  induction s as [|c s (b & Hb & Hall)]; simpl.
  - now exists [].
  - destruct (isspace c) eqn:E.
    + exists (c :: b). simpl. split; [now f_equal|now constructor].
    + now exists [].
Qed.

Lemma strip_split (s : str) :
  exists b1 b2,
    s = b1 ++ strip s ++ b2 /\
    Forall (fun c => isspace c = true) b1 /\
    Forall (fun c => isspace c = true) b2.
Proof.
  destruct (lstrip_split s) as (b1 & H1 & Hb1).
  destruct (lstrip_split (rev (lstrip s))) as (b2 & H2 & Hb2).
  exists b1, (rev b2). unfold strip, rstrip. repeat split; auto.
  - rewrite <- rev_app_distr, <- H2, rev_involutive. exact H1.
  - apply Forall_forall. intros c Hc. apply in_rev in Hc.
    rewrite Forall_forall in Hb2. now apply Hb2.
Qed.

Lemma infix_drop_left (w b s : str) :
  Forall (fun c => isspace c = true) b -> starts_nonblank w ->
  infix w (b ++ s) -> infix w s.
Proof.
  intros Hb (x & w' & -> & Hx).
  induction Hb as [|c b Hc Hb IH]; simpl; auto.
  intros (pre & post & Heq). apply IH.
  destruct pre as [|p pre]; simpl in Heq.
  - injection Heq as -> _. congruence.
  - injection Heq as _ Heq. now exists pre, post.
Qed.

Lemma infix_rev (w s : str) : infix w s -> infix (rev w) (rev s).
Proof.
  intros (pre & post & ->). exists (rev post), (rev pre).
  now rewrite !rev_app_distr, <- app_assoc.
Qed.

Lemma infix_drop_right (w b s : str) :
  Forall (fun c => isspace c = true) b -> ends_nonblank w ->
  infix w (s ++ b) -> infix w s.
Proof.
  intros Hb (w' & x & -> & Hx) H.
  apply infix_rev in H. rewrite !rev_app_distr in H. simpl in H.
  apply infix_drop_left in H.
  - apply infix_rev in H. simpl in H.
    now rewrite !rev_involutive in H.
  - apply Forall_forall. intros c Hc. apply in_rev in Hc.
    rewrite Forall_forall in Hb. now apply Hb.
  - now exists x, (rev w').
Qed.

(** A word without blanks at its ends occurs in a text exactly when it
    occurs in the trimmed text. *)
Lemma infix_strip (w s : str) :
  starts_nonblank w -> ends_nonblank w ->
  infix w (strip s) <-> infix w s.
Proof.
  intros Hs He. destruct (strip_split s) as (b1 & b2 & Heq & Hb1 & Hb2).
  split.
  - intros H. eapply infix_trans; [exact H|].
    exists b1, b2. exact Heq.
  - intros H. rewrite Heq in H.
    apply infix_drop_left in H; auto.
    apply infix_drop_right in H; auto.
Qed.

(** The whitespace characters are neither cased nor case-ignorable, and
    [str.lower] leaves them as they are. *)
Lemma isspace_whitespace (c : char) : isspace c = true -> In c whitespace.
Proof.
  intros H. unfold whitespace. simpl.
  assert (Hc : (c = 9 \/ c = 10 \/ c = 11 \/ c = 12 \/ c = 13 \/ c = 28 \/
                c = 29 \/ c = 30 \/ c = 31 \/ c = 32 \/ c = 133 \/
                c = 160 \/ c = 5760 \/ c = 8192 \/ c = 8193 \/ c = 8194 \/
                c = 8195 \/ c = 8196 \/ c = 8197 \/ c = 8198 \/ c = 8199 \/
                c = 8200 \/ c = 8201 \/ c = 8202 \/ c = 8232 \/ c = 8233 \/
                c = 8239 \/ c = 8287 \/ c = 12288)%N) by char_lia.
  repeat (destruct Hc as [->|Hc]; [tauto|]). subst c. tauto.
Qed.

Lemma whitespace_plain (c : char) :
  isspace c = true ->
  Unicode.case_ignorable c = false /\ Unicode.cased c = false /\
  (c =? 931)%N = false /\ lower_full c = [c].
Proof.
  intros H. apply isspace_whitespace in H. unfold whitespace in H.
  simpl in H.
  repeat (destruct H as [<-|H]; [vm_compute; auto|]). destruct H.
Qed.

Lemma cased_ahead_blanks (s b : str) :
  blanks b -> cased_ahead (s ++ b) = cased_ahead s.
Proof.
  intros Hb. induction s as [|c s IH]; simpl.
  - destruct Hb as [|w b Hw _]; simpl; auto.
    apply whitespace_plain in Hw as (-> & -> & _). reflexivity.
  - now rewrite IH.
Qed.

Lemma lower_from_after_blanks (before b : str) :
  blanks b -> forall s, lower_from before (s ++ b) = lower_from before s ++ b.
Proof.
  intros Hb s. revert before. induction s as [|c s IH]; intros before.
  - simpl. revert before.
    induction Hb as [|w b Hw _ IHb]; intros before; simpl; auto.
    apply whitespace_plain in Hw as (_ & _ & -> & ->). simpl.
    now rewrite IHb.
  - cbn [app lower_from]. rewrite IH. unfold final_sigma.
    rewrite (cased_ahead_blanks s b Hb). now rewrite <- app_assoc.
Qed.

Lemma lower_from_before_blanks (b : str) :
  blanks b ->
  forall s before, lower_from (before ++ b) s = lower_from before s.
Proof.
  intros Hb. induction s as [|c s IH]; intros before; simpl; auto.
  change (c :: before ++ b) with ((c :: before) ++ b).
  rewrite (IH (c :: before)). unfold final_sigma.
  now rewrite (cased_ahead_blanks before b Hb).
Qed.

Lemma lower_from_blanks (b : str) :
  blanks b ->
  forall s before,
    lower_from before (b ++ s) = b ++ lower_from (rev b ++ before) s.
Proof.
  induction 1 as [|w b Hw _ IH]; intros s before; simpl; auto.
  apply whitespace_plain in Hw as (_ & _ & -> & ->). simpl.
  rewrite IH. now rewrite <- app_assoc.
Qed.

Lemma blanks_rev (b : str) : blanks b -> blanks (rev b).
Proof.
  unfold blanks. rewrite !Forall_forall. intros H c Hc.
  apply H. now apply in_rev.
Qed.

(** Lower-casing only passes over the blanks around a text. *)
Lemma lower_around (s : str) :
  exists b1 b2,
    blanks b1 /\ blanks b2 /\ lower s = b1 ++ lower (strip s) ++ b2.
Proof.
  destruct (strip_split s) as (b1 & b2 & Heq & Hb1 & Hb2).
  exists b1, b2. split; [exact Hb1|]. split; [exact Hb2|].
  unfold lower. rewrite Heq at 1.
  rewrite (lower_from_blanks b1 Hb1).
  rewrite (lower_from_after_blanks _ b2 Hb2).
  rewrite app_nil_r.
  now rewrite (lower_from_before_blanks (rev b1) (blanks_rev b1 Hb1) _ []).
Qed.

(** The words of the two patterns have no blank at their ends. *)
Lemma is_char_i_nonblank (x c : char) :
  isspace x = false -> Re.is_char_i x c = true -> isspace c = false.
Proof.
  unfold Re.is_char_i. intros Hx H. apply orb_true_iff in H as [H|H].
  - apply N.eqb_eq in H.
    now rewrite <- (isspace_lower c), H, isspace_lower.
  - unfold Re.folds_to, code in H. simpl in H. char_lia.
Qed.

Lemma ends_as_start (w : str) : starts_nonblank (rev w) -> ends_nonblank w.
Proof.
  intros (c & t & Heq & Hc). exists (rev t), c. split; auto.
  rewrite <- (rev_involutive w), Heq. reflexivity.
Qed.

Ltac invert_atoms :=
  repeat match goal with
    | H : matches_alt [] _ |- _ => apply matches_nil_inv in H; subst
    | H : matches_alt (Re.Atom _ 1 (Some 1) :: _) _ |- _ =>
        let c := fresh "c" in
        let w' := fresh "w" in
        let Hc := fresh "Hc" in
        apply matches_once_inv in H as (c & w' & -> & Hc & H)
    | H : matches_alt (Re.Atom _ 0 (Some 1) :: _) _ |- _ =>
        let c := fresh "c" in
        let w' := fresh "w" in
        let Hc := fresh "Hc" in
        apply matches_opt_inv in H as [H|(c & w' & -> & Hc & H)]
    end.

Ltac nonblank_char :=
  eapply is_char_i_nonblank; [|eassumption]; reflexivity.

Ltac nonblank_ends :=
  split;
  [ eexists; eexists; split; [reflexivity|nonblank_char]
  | apply ends_as_start; eexists; eexists;
    split; [reflexivity|nonblank_char] ].

Lemma company_word_ends (w : str) :
  matches COMPANY_KEYWORDS w -> starts_nonblank w /\ ends_nonblank w.
Proof.
  intros (a & Hin & Hm).
  unfold COMPANY_KEYWORDS in Hin. simpl in Hin.
  repeat (destruct Hin as [<-|Hin]); try contradiction;
    cbv [Re.word_i Re.once Re.opt txt list_ascii_of_string map app] in Hm.
  12: {
    change (matches_alt
              ([ Re.Atom (Re.is_char_i (code "c")) 1 (Some 1);
                 Re.Atom (Re.is_char_i (code "o")) 1 (Some 1);
                 Re.Atom (Re.is_char_i dot) 0 (Some 1);
                 Re.Atom isspace 0 (Some 1) ] ++
               [ Re.Atom (Re.is_char_i (code "l")) 1 (Some 1);
                 Re.Atom (Re.is_char_i (code "t")) 1 (Some 1);
                 Re.Atom (Re.is_char_i (code "d")) 1 (Some 1) ]) w) in Hm.
    apply matches_app_inv in Hm as (w1 & w2 & -> & Hm1 & Hm2).
    apply matches_once_inv in Hm1 as (c0 & w1' & -> & Hc0 & _).
    invert_atoms. split.
    - eexists. eexists. split; [reflexivity|nonblank_char].
    - exists ((c0 :: w1') ++ [c; c1]), c2.
      split; [now rewrite <- app_assoc|nonblank_char]. }
  all: invert_atoms; nonblank_ends.
Qed.

Lemma academic_word_ends (w : str) :
  matches ACADEMIC_KEYWORDS w -> starts_nonblank w /\ ends_nonblank w.
Proof.
  intros (a & Hin & Hm).
  unfold ACADEMIC_KEYWORDS in Hin. simpl in Hin.
  repeat (destruct Hin as [<-|Hin]); try contradiction;
    cbv [Re.word_i Re.once Re.opt txt list_ascii_of_string map app] in Hm;
    invert_atoms; nonblank_ends.
Qed.

Lemma contains_match_strip (p : Re.pattern) (affil : str) :
  (forall w, matches p w -> starts_nonblank w /\ ends_nonblank w) ->
  contains_match p (lower (strip affil)) <-> contains_match p (lower affil).
Proof.
  intros Hends.
  destruct (lower_around affil) as (b1 & b2 & Hb1 & Hb2 & Heq).
  split; intros (w & Hm & Hi); exists w; split; auto.
  - eapply infix_trans; [exact Hi|]. exists b1, b2. exact Heq.
  - destruct (Hends w Hm) as [Hs He]. rewrite Heq in Hi.
    apply infix_drop_left in Hi; auto.
    apply infix_drop_right in Hi; auto.
Qed.

Lemma lower_idem_ascii (s : str) : ascii_text s -> lower (lower s) = lower s.
Proof.
  intros H. rewrite (lower_ascii s H).
  assert (Ha : ascii_text (map ascii_lower s)).
  { unfold ascii_text in *. rewrite forallb_forall in *.
    intros c Hc. apply in_map_iff in Hc as (x & <- & Hx).
    rewrite ascii_lower_ascii. now apply H. }
  rewrite (lower_ascii _ Ha), map_map. apply map_ext.
  intros c. apply ascii_lower_idem.
Qed.

(** X12. The classification of an affiliation does not change when the
    blanks at its ends are removed, whatever its characters: the parser may
    trim the affiliation before it classifies it.  Nor does the
    classification of an affiliation in ASCII change when the affiliation
    is put in lower case. *)
Theorem classification_ignores_blanks_and_case (affil : str) :
  is_company_affil (strip affil) = is_company_affil affil
  /\ (ascii_text affil ->
      is_company_affil (lower affil) = is_company_affil affil).
Proof.
  split.
  - apply eq_iff_eq_true. rewrite !is_company_affil_lowered.
    rewrite (contains_match_strip _ _ company_word_ends).
    rewrite (contains_match_strip _ _ academic_word_ends).
    reflexivity.
  - intros H. unfold is_company_affil. now rewrite (lower_idem_ascii affil H).
Qed.

Lemma classification_ignores_blanks_and_case_witness :
  ascii_text (txt "  Acme Inc ")
  /\ is_company_affil (strip (txt "  Acme Inc "))
     = is_company_affil (txt "  Acme Inc ")
  /\ is_company_affil (lower (txt "  Acme Inc "))
     = is_company_affil (txt "  Acme Inc ").
Proof.
  split; [reflexivity|].
  destruct (classification_ignores_blanks_and_case (txt "  Acme Inc "))
    as [Hs Hl].
  split; [exact Hs|exact (Hl eq_refl)].
Defined.
